(** * glowfic-dl: the content assembly pipeline of [glowfic-dl.py]

    A shallow embedding of the script's pure core (file-name sanitizer, image
    registry, post renderer, section splitter, link rewriter, file naming) and
    the properties its specification states about them.

    Conventions.
    - A Python [str] is a sequence of code points: [list N].  [lit] turns an
      ASCII literal into such a sequence.
    - A Python [int] that is never negative (a counter, an index, a length) is
      an [N]; byte sizes are [Z].
    - A [dict] is a [gmap].
    - Code that can raise returns an [outcome]; shared mutable objects
      ([ImageMap], the author set) are threaded explicitly. *)

From Stdlib Require Import Ascii String.
From stdpp Require Import base numbers option list gmap.

Set Default Proof Using "Type".
Local Open Scope N_scope.

(** ** Python strings *)

Abbreviation str := (list N).

Definition lit (s : string) : str := N_of_ascii <$> list_ascii_of_string s.
Arguments lit s%_string : simpl never.

(** [ord("x")] of a one-character literal. *)
Definition ord (c : ascii) : N := N_of_ascii c.
Arguments ord c%_char : simpl never.

(** [s[:-1]] *)
Definition drop_last {A} (s : list A) : list A := take (Nat.pred (length s)) s.

(** [s.startswith(p)] *)
Fixpoint startswith (p s : str) : bool :=
  match p, s with
  | [], _ => true
  | _ :: _, [] => false
  | a :: p', b :: s' => (a =? b) && startswith p' s'
  end.

(** [c in s] for a one-character [c] *)
Definition str_in (c : N) (s : str) : bool := existsb (N.eqb c) s.

(** [s.split(c)] for a one-character separator: never the empty list. *)
Fixpoint str_split (c : N) (s : str) : list str :=
  match s with
  | [] => [[]]
  | x :: s' =>
      if x =? c then [] :: str_split c s'
      else match str_split c s' with
           | [] => [[x]]
           | seg :: rest => (x :: seg) :: rest
           end
  end.

(** [sep.join(parts)] *)
Fixpoint str_join (sep : str) (parts : list str) : str :=
  match parts with
  | [] => []
  | [p] => p
  | p :: rest => p ++ sep ++ str_join sep rest
  end.

(** [parts[-1]] of a list of strings; the empty string stands for the
    IndexError that [str_split] never triggers. *)
Definition last_seg (parts : list str) : str := default [] (last parts).

(** [s.partition(c)] without the separator: the text before the first [c] and
    the text after it, [None] when [c] does not occur. *)
Fixpoint split_once (c : N) (s : str) : option (str * str) :=
  match s with
  | [] => None
  | x :: s' =>
      if x =? c then Some ([], s')
      else '(a, b) ← split_once c s'; Some (x :: a, b)
  end.

(** [str(n)] for a non-negative [int]: the decimal digits, most significant
    first.  A number below [2 ^ fuel] has at most [fuel] digits. *)
Fixpoint digits (fuel : nat) (n : N) (acc : str) : str :=
  match fuel with
  | O => acc
  | S fuel' =>
      let acc' := (48 + n mod 10) :: acc in
      if n / 10 =? 0 then acc' else digits fuel' (n / 10) acc'
  end.

Definition str_of_int (n : N) : str := digits (S (N.to_nat (N.log2 n))) n [].

(** ["%.*i" % (width, n)]: at least [width] digits, padded with zeros. *)
Definition fmt_prec (width : nat) (n : N) : str :=
  let d := str_of_int n in
  replicate (width - length d) 48 ++ d.

(** The value a string of decimal digits denotes. *)
Definition digit_value (s : str) : N := foldl (fun acc c => 10 * acc + (c - 48)) 0 s.

Definition is_digit (c : N) : bool := (48 <=? c) && (c <=? 57).

(** [len(s.encode("utf-8"))] on Unicode scalar values: the number of bytes of
    each code point.  On a lone surrogate (U+D800 to U+DFFF) [encode] raises
    [UnicodeEncodeError], where this model counts 3 bytes: the model is the
    code on the strings of [is_scalar_value] below.  (Text decoded from a web
    page has no lone surrogate.) *)
Definition utf8_width (c : N) : Z :=
  if c <? 0x80 then 1%Z
  else if c <? 0x800 then 2%Z
  else if c <? 0x10000 then 3%Z
  else 4%Z.

Definition utf8_len (s : str) : Z := foldr (fun c acc => (utf8_width c + acc)%Z) 0%Z s.

(** [str.isspace] per character, and [s.strip()] *)
Definition isspace (c : N) : bool :=
  ((9 <=? c) && (c <=? 13)) || ((0x1c <=? c) && (c <=? 0x20))
  || (c =? 0x85) || (c =? 0xa0) || (c =? 0x1680)
  || ((0x2000 <=? c) && (c <=? 0x200a))
  || (c =? 0x2028) || (c =? 0x2029) || (c =? 0x202f) || (c =? 0x205f)
  || (c =? 0x3000).

Fixpoint lstrip_by (f : N -> bool) (s : str) : str :=
  match s with
  | [] => []
  | c :: s' => if f c then lstrip_by f s' else s
  end.

Definition rstrip_by (f : N -> bool) (s : str) : str :=
  reverse (lstrip_by f (reverse s)).

Definition strip (s : str) : str := rstrip_by isspace (lstrip_by isspace s).

(** ** Exceptions *)

Inductive exn : Type :=
  | Exception (msg : str)        (* raise Exception(msg) *)
  | RuntimeError (msg : str)     (* raise RuntimeError(msg) *)
  | AttributeError (msg : str)   (* a missing attribute or method *)
  | KeyError (key : str).        (* tag[key] on a missing attribute *)

(** The result of running a piece of the script: a value, a raised exception,
    or a loop still running when the fuel given to it ran out. *)
Inductive outcome (A : Type) : Type :=
  | Ok (a : A)
  | Raise (e : exn)
  | OutOfFuel.
Arguments Ok {A} a.
Arguments Raise {A} e.
Arguments OutOfFuel {A}.

Definition bind {A B} (m : outcome A) (k : A -> outcome B) : outcome B :=
  match m with
  | Ok a => k a
  | Raise e => Raise e
  | OutOfFuel => OutOfFuel
  end.

Notation "'let*' x := m 'in' k" := (bind m (fun x => k))
  (at level 10, x pattern, m at level 100, k at level 200).

(** [for x in xs: st = body(st, x)], stopping at the first exception. *)
Fixpoint for_each {A S} (body : S -> A -> outcome S) (xs : list A) (st : S) : outcome S :=
  match xs with
  | [] => Ok st
  | x :: xs' => let* st' := body st x in for_each body xs' st'
  end.

(** [[f(x) for x in xs]], stopping at the first exception. *)
Fixpoint map_each {A B} (f : A -> outcome B) (xs : list A) : outcome (list B) :=
  match xs with
  | [] => Ok []
  | x :: xs' => let* y := f x in let* ys := map_each f xs' in Ok (y :: ys)
  end.

(** ** urllib.parse

    The splitting algorithm of [urlsplit], [urlparse] and [urlunparse]
    (CPython 3.11).  The library raises [ValueError] where this model
    returns: on a host with one bracket and not the other, or with brackets
    around what is no address (the URLs [//[] and [http://[::1] are two), and
    on a host that is not ASCII and that NFKC normalisation changes.  The
    model is the library on the URLs of [url_accepted] below, whose host is
    ASCII without brackets. *)

Module urllib.

Record ParseResult : Type := mkParseResult {
  scheme : str; netloc : str; path : str;
  params : str; query : str; fragment : str }.

Definition uses_netloc : list str := lit <$>
  [""; "ftp"; "http"; "gopher"; "nntp"; "telnet"; "imap"; "wais"; "file";
   "mms"; "https"; "shttp"; "snews"; "prospero"; "rtsp"; "rtspu"; "rsync";
   "svn"; "svn+ssh"; "sftp"; "nfs"; "git"; "git+ssh"; "ws"; "wss"]%string.

Definition uses_params : list str := lit <$>
  [""; "ftp"; "hdl"; "prospero"; "http"; "imap"; "https"; "shttp"; "rtsp";
   "rtspu"; "sip"; "sips"; "mms"; "sftp"; "tel"]%string.

Definition is_alpha (c : N) : bool :=
  ((65 <=? c) && (c <=? 90)) || ((97 <=? c) && (c <=? 122)).

Definition scheme_char (c : N) : bool :=
  is_alpha c || is_digit c || (c =? ord "+") || (c =? ord "-") || (c =? ord ".").

Definition lower (c : N) : N := if (65 <=? c) && (c <=? 90) then c + 32 else c.

(* _WHATWG_C0_CONTROL_OR_SPACE and _UNSAFE_URL_BYTES_TO_REMOVE *)
Definition c0_control_or_space (c : N) : bool := c <=? 0x20.
Definition unsafe_byte (c : N) : bool := (c =? 9) || (c =? 13) || (c =? 10).

(** The text up to the first character satisfying [f], and the rest. *)
Fixpoint span_until (f : N -> bool) (s : str) : str * str :=
  match s with
  | [] => ([], [])
  | c :: s' =>
      if f c then ([], s)
      else let '(a, b) := span_until f s' in (c :: a, b)
  end.

(** The text before the last [c] and the text after it. *)
Definition rsplit_once (c : N) (s : str) : option (str * str) :=
  '(a, b) ← split_once c (reverse s); Some (reverse b, reverse a).

Definition split_scheme (url : str) : str * str :=
  match split_once (ord ":") url with
  | Some (c0 :: pre, rest) =>
      if is_alpha c0 && forallb scheme_char (c0 :: pre)
      then (lower <$> (c0 :: pre), rest)
      else ([], url)
  | _ => ([], url)
  end.

Definition splitnetloc (url : str) : str * str :=
  span_until (fun c => (c =? ord "/") || (c =? ord "?") || (c =? ord "#")) (drop 2 url).

Definition urlsplit (url0 : str) : ParseResult :=
  let url := lstrip_by c0_control_or_space url0 in
  let url := List.filter (fun c => negb (unsafe_byte c)) url in
  let '(scheme, url) := split_scheme url in
  let '(netloc, url) :=
    if bool_decide (take 2 url = lit "//") then splitnetloc url else ([], url) in
  let '(url, fragment) :=
    match split_once (ord "#") url with Some p => p | None => (url, []) end in
  let '(url, query) :=
    match split_once (ord "?") url with Some p => p | None => (url, []) end in
  mkParseResult scheme netloc url [] query fragment.

Definition splitparams (url : str) : str * str :=
  match rsplit_once (ord "/") url with
  | Some (dir, base) =>
      match split_once (ord ";") base with
      | Some (b, p) => (dir ++ lit "/" ++ b, p)
      | None => (url, [])
      end
  | None =>
      match split_once (ord ";") url with Some p => p | None => (url, []) end
  end.

Definition urlparse (url : str) : ParseResult :=
  let r := urlsplit url in
  if bool_decide (scheme r ∈ uses_params) && str_in (ord ";") (path r) then
    let '(url, params) := splitparams (path r) in
    mkParseResult (scheme r) (netloc r) url params (query r) (fragment r)
  else r.

Definition urlunsplit (scheme netloc url query fragment : str) : str :=
  let url :=
    if bool_decide (netloc ≠ [])
       || (bool_decide (scheme ≠ []) && bool_decide (scheme ∈ uses_netloc)
           && bool_decide (take 2 url ≠ lit "//"))
    then
      let url := if bool_decide (url ≠ []) && bool_decide (take 1 url ≠ lit "/")
                 then lit "/" ++ url else url in
      lit "//" ++ netloc ++ url
    else url in
  let url := if bool_decide (scheme ≠ []) then scheme ++ lit ":" ++ url else url in
  let url := if bool_decide (query ≠ []) then url ++ lit "?" ++ query else url in
  if bool_decide (fragment ≠ []) then url ++ lit "#" ++ fragment else url.

(** [ParseResult.geturl()], that is [urlunparse(self)]. *)
Definition geturl (r : ParseResult) : str :=
  let url := if bool_decide (params r ≠ []) then path r ++ lit ";" ++ params r
             else path r in
  urlunsplit (scheme r) (netloc r) url (query r) (fragment r).

(** [r._replace(path=p)] and [r._replace(scheme=s, netloc=n)] *)
Definition replace_path (r : ParseResult) (p : str) : ParseResult :=
  mkParseResult (scheme r) (netloc r) p (params r) (query r) (fragment r).

Definition replace_scheme_netloc (r : ParseResult) (s n : str) : ParseResult :=
  mkParseResult s n (path r) (params r) (query r) (fragment r).

End urllib.

(** ** BeautifulSoup

    A parsed document is a tree of tags and strings.  Only the queries the
    script makes are modelled: [find], [find_all], [.text], [.parent],
    [tag[attr]] and appending children. *)

Module bs4.

#[warnings="-register-all"]
Inductive Node : Type :=
  | NavigableString (s : str)
  | Tag (name : str) (attrs : list (str * str)) (contents : list Node).

Definition attrs_of (n : Node) : list (str * str) :=
  match n with Tag _ attrs _ => attrs | NavigableString _ => [] end.

Definition contents_of (n : Node) : list Node :=
  match n with Tag _ _ cs => cs | NavigableString _ => [] end.

Definition is_tag (name : str) (n : Node) : bool :=
  match n with Tag nm _ _ => bool_decide (nm = name) | NavigableString _ => false end.

(** [attrs.get(k)] and [attrs[k] = v] on the attribute dictionary, which
    keeps the order of the attributes. *)
Fixpoint attr_get (k : str) (attrs : list (str * str)) : option str :=
  match attrs with
  | [] => None
  | (k', v) :: rest => if bool_decide (k' = k) then Some v else attr_get k rest
  end.

Fixpoint attr_set (k v : str) (attrs : list (str * str)) : list (str * str) :=
  match attrs with
  | [] => [(k, v)]
  | (k', v') :: rest =>
      if bool_decide (k' = k) then (k, v) :: rest else (k', v') :: attr_set k v rest
  end.

(** [tag[k]] *)
Definition getitem (n : Node) (k : str) : outcome str :=
  match attr_get k (attrs_of n) with
  | Some v => Ok v
  | None => Raise (KeyError k)
  end.

(** All the nodes below [n], in document order. *)
Fixpoint descendants (n : Node) : list Node :=
  match n with
  | NavigableString _ => []
  | Tag _ _ cs => flat_map (fun c => c :: descendants c) cs
  end.

(** [n.find_all(name, ...)] and [n.find(name, ...)]; [p] is the condition
    on the attributes. *)
Definition find_all (name : str) (p : list (str * str) -> bool) (n : Node) : list Node :=
  List.filter (fun d => is_tag name d && p (attrs_of d)) (descendants n).

Definition find (name : str) (p : list (str * str) -> bool) (n : Node) : option Node :=
  head (find_all name p n).

(** The parent of the first node below [n] that satisfies [p]:
    [n.find(...).parent]. *)
Fixpoint find_parent (p : Node -> bool) (n : Node) : option Node :=
  match n with
  | NavigableString _ => None
  | Tag _ _ cs =>
      (fix go (cs : list Node) : option Node :=
         match cs with
         | [] => None
         | c :: cs' =>
             if p c then Some n
             else match find_parent p c with
                  | Some r => Some r
                  | None => go cs'
                  end
         end) cs
  end.

(** [n.text] *)
Fixpoint get_text (n : Node) : str :=
  match n with
  | NavigableString s => s
  | Tag _ _ cs => flat_map get_text cs
  end.

(** The whitespace-separated words of an attribute value. *)
Fixpoint words_from (cur : str) (s : str) : list str :=
  match s with
  | [] => if bool_decide (cur = []) then [] else [cur]
  | c :: s' =>
      if isspace c
      then (if bool_decide (cur = []) then words_from [] s'
            else cur :: words_from [] s')
      else words_from (cur ++ [c]) s'
  end.

Definition words (s : str) : list str := words_from [] s.

(** A search by CSS class: one of the tag's classes is [c], or the whole
    list of classes, joined by spaces, is. *)
Definition has_class (c : str) (attrs : list (str * str)) : bool :=
  match attr_get (lit "class") attrs with
  | Some v =>
      let ws := words v in
      bool_decide (c ∈ ws) || bool_decide (str_join (lit " ") ws = c)
  | None => false
  end.

Definition has_attr (k v : str) (attrs : list (str * str)) : bool :=
  bool_decide (attr_get k attrs = Some v).

Definition any_attrs (attrs : list (str * str)) : bool := true.

(** The serializer behind [str(tag)] and [tag.encode()].  The script only
    measures its output, and what matters of it is that a tag is never
    written as the empty string. *)
Class Formatter : Type := {
  decode : Node -> str;
  decode_tag_nonempty name attrs cs : decode (Tag name attrs cs) ≠ []
}.

(** [len(tag.encode())] *)
Definition encoded_size `{Formatter} (n : Node) : Z := utf8_len (decode n).

(** A plain serializer: [<name k="v" ...>children</name>], text as it is. *)
Fixpoint plain_decode (n : Node) : str :=
  match n with
  | NavigableString s => s
  | Tag name attrs cs =>
      lit "<" ++ name
      ++ flat_map (fun kv => lit " " ++ kv.1 ++ lit "=" ++ [34] ++ kv.2 ++ [34]) attrs
      ++ lit ">" ++ flat_map plain_decode cs ++ lit "</" ++ name ++ lit ">"
  end.

End bs4.

Import bs4.

(** ** Consts *)

(* slash, backslash, double quote, then * : < > ? | and U+007F *)
Definition FILENAME_BANNED_CHARS : str :=
  [ord "/"; 92; 34; ord "*"; ord ":"; ord "<"; ord ">"; ord "?"; ord "|"; 0x7f].

Definition FILENAME_BANNED_CHAR_RANGES : list (N * N) :=
  [ (0x0000, 0x001f);      (* C0 *)
    (0x0080, 0x009f);      (* C1 *)
    (0xe000, 0xf8ff);      (* Private Use Area *)
    (0xfdd0, 0xfdef);      (* Non-Characters in Arabic Presentation Forms-A *)
    (0xfff0, 0xffff);      (* Specials *)
    (0xe0000, 0xe0fff);    (* Tags and Variation Selectors Supplement *)
    (0xf0000, 0xfffff);    (* Supplementary Private Use Area-A *)
    (0x100000, 0x10ffff)   (* Supplementary Private Use Area-B *) ].

Definition SECTION_SIZE_LIMIT : Z := 200000.

(** [REPLY_RE.match(s)], for [REPLY_RE = re.compile(r"/(replies|posts)/\d*")]:
    the pattern is tried at the start of [s] only, and [\d*] also matches no
    digit at all, so the match succeeds exactly when [s] starts with
    [/replies/] or with [/posts/]. *)
Definition REPLY_RE_match (s : str) : bool :=
  startswith (lit "/replies/") s || startswith (lit "/posts/") s.

(** ** Classes *)

Module MappedImage.
Record t : Type := mk { name : str; id : N; ext : str }.

(* "Images/%s%.*i.%s" % (self.name, id_width, self.id, self.ext) *)
Definition to_filename (self : t) (id_width : nat) : str :=
  lit "Images/" ++ name self ++ fmt_prec id_width (id self) ++ lit "." ++ ext self.
End MappedImage.

Module ImageMap.
Record t : Type := mk {
  map : gmap str MappedImage.t;
  next_icon : N;
  icon_id_width : nat }.

Definition init : t := mk ∅ 0 1.

Definition add_icon (self : t) (url : str) : t :=
  match map self !! url with
  | Some _ => self
  | None =>
      let path := urllib.path (urllib.urlparse url) in
      let ext := last_seg (str_split (ord ".") path) in
      mk (<[url := MappedImage.mk (lit "icon") (next_icon self) ext]> (map self))
         (next_icon self + 1)
         (length (str_of_int (next_icon self)))
  end.

(** [self.<name>(url)] for a method that updates the registry: the class
    defines [add_icon]; any other name is an [AttributeError]. *)
Definition method (name : str) : outcome (t -> str -> t) :=
  if bool_decide (name = lit "add_icon") then Ok add_icon
  else Raise (AttributeError
                (lit "'ImageMap' object has no attribute '" ++ name ++ lit "'")).

Definition get_icon (self : t) (url : str) : outcome (str * t) :=
  let* self :=
    match map self !! url with
    | None => let* add := method (lit "add") in Ok (add self url)
    | Some _ => Ok self
    end in
  match map self !! url with
  | Some image => Ok (MappedImage.to_filename image (icon_id_width self), self)
  | None => Raise (KeyError url)
  end.
End ImageMap.

Module RenderedPost.
Record t : Type := mk {
  html : Node;
  author : option str;
  permalink : str;
  permalink_fragment : str }.
End RenderedPost.

(** A [Section]: the posts appended to the [div] of [output_template], the
    running size and the permalinks of the posts. *)
Module Sec.
Record t : Type := mk {
  posts : list Node;
  size : Z;
  link_targets : list str }.

Definition init : t := mk [] 0 [].

Definition append `{Formatter} (self : t) (post : RenderedPost.t) : t :=
  let post_size := encoded_size (RenderedPost.html post) in
  mk (posts self ++ [RenderedPost.html post])
     (size self + post_size)
     (link_targets self ++ [RenderedPost.permalink post]).

(** [self.html]: [output_template] with the posts inside its [div]. *)
Definition html (self : t) : Node :=
  let nl := NavigableString [10] in
  Tag (lit "[document]") []
    [ Tag (lit "html") []
        [ nl; Tag (lit "head") [] [nl]; nl;
          Tag (lit "body") []
            [ nl; Tag (lit "div") [(lit "class", lit "posts")] (nl :: posts self); nl ];
          nl ];
      nl ].
End Sec.

(** ** Helpers *)

(* The two messages the sanitizer raises [Exception] with; the specification
   calls the first failure InvalidNameError, the second ExtensionTooLongError. *)
Definition InvalidNameError : exn := Exception (lit
  "Attempted to put file into EPUB with filename containing only invalid characters and/or periods.").

Definition ExtensionTooLongError : exn := Exception (lit
  "Attempted to put file into EPUB with extension longer than 255 bytes.").

(** The inner loop over [FILENAME_BANNED_CHAR_RANGES]. *)
Definition char_allowed (char : N) : bool :=
  forallb (fun '(range_bottom, range_top) =>
             negb ((range_bottom <=? char) && (char <=? range_top)))
          FILENAME_BANNED_CHAR_RANGES.

(** The first loop: the characters of [filename] that are kept. *)
Definition filter_filename (filename : str) : str :=
  foldl (fun filtered_filename char =>
           if str_in char FILENAME_BANNED_CHARS then filtered_filename
           else if char_allowed char then filtered_filename ++ [char]
           else filtered_filename)
        [] filename.

(** The last loop: drop the last character of the name until the full name
    fits in 255 bytes. *)
Fixpoint truncate_loop (fuel : nat) (name_truncated ext : str) : outcome str :=
  let full_name_truncated := name_truncated ++ lit "." ++ ext in
  if (255 <? utf8_len full_name_truncated)%Z then
    match fuel with
    | O => OutOfFuel
    | S fuel' => truncate_loop fuel' (drop_last name_truncated) ext
    end
  else Ok full_name_truncated.

Definition make_filename_valid_for_epub3 (fuel : nat) (filename : str) : outcome str :=
  let filtered_filename := filter_filename filename in
  (* while len(filtered_filename) > 0 and filtered_filename[-1] == ".": drop it *)
  let filtered_filename := rstrip_by (N.eqb (ord ".")) filtered_filename in
  if bool_decide (length filtered_filename = 0%nat) then Raise InvalidNameError
  else if (utf8_len filtered_filename <=? 255)%Z then Ok filtered_filename
  else
    let split_filename := str_split (ord ".") filtered_filename in
    let ext := last_seg split_filename in
    let ext_bytes := utf8_len ext in
    if (255 <? ext_bytes)%Z then Raise ExtensionTooLongError
    else
      let name_truncated := drop_last (str_join (lit ".") (drop_last split_filename)) in
      truncate_loop fuel name_truncated ext.

(** ** Scrape and render *)

Section render.
Context `{Formatter}.

(** [post.find("img", "icon")]; a tag is always true. *)
Definition find_icon (post : Node) : option Node :=
  find (lit "img") (has_class (lit "icon")) post.

Definition populate_image_map (posts : list Node) (image_map : ImageMap.t)
  : outcome ImageMap.t :=
  for_each (fun image_map post =>
              match find_icon post with
              | Some icon =>
                  let* src := getitem icon (lit "src") in
                  Ok (ImageMap.add_icon image_map src)
              | None => Ok image_map
              end)
           posts image_map.

(** [post.find("div", cls).text.strip()], [None] on AttributeError. *)
Definition find_text (cls : str) (post : Node) : option str :=
  (fun tag => strip (get_text tag)) <$> find (lit "div") (has_class cls) post.

Definition is_permalink_img (n : Node) : bool :=
  is_tag (lit "img") n
  && has_attr (lit "title") (lit "Permalink") (attrs_of n)
  && has_attr (lit "alt") (lit "Permalink") (attrs_of n).

Definition none_has_no_attribute (attr : str) : exn :=
  AttributeError (lit "'NoneType' object has no attribute '" ++ attr ++ lit "'").

Definition render_post (post : Node) (image_map : ImageMap.t)
  : outcome (RenderedPost.t * ImageMap.t) :=
  let character := find_text (lit "post-character") post in
  let screen_name := find_text (lit "post-screenname") post in
  let author := find_text (lit "post-author") post in
  let content := find (lit "div") (has_class (lit "post-content")) post in
  let header :=
    Tag (lit "p") []
      [Tag (lit "strong") []
         [NavigableString
            (str_join (lit " / ") (omap id [character; screen_name; author]))]] in
  let* permalink :=
    match find_parent is_permalink_img post with
    | Some parent => getitem parent (lit "href")
    | None => Raise (none_has_no_attribute (lit "parent"))
    end in
  let permalink_fragment := urllib.fragment (urllib.urlparse permalink) in
  let reply_anchor :=
    if bool_decide (permalink_fragment = []) then
      let post_id := lit "post-" ++ last_seg (str_split (ord "/") permalink) in
      Tag (lit "a") [(lit "id", post_id)] []
    else Tag (lit "a") [(lit "id", permalink_fragment)] [] in
  let contents_of_content :=
    match content with
    | Some c => Ok (contents_of c)
    | None => Raise (none_has_no_attribute (lit "contents"))
    end in
  let* (children, image_map) :=
    match find_icon post with
    | Some icon =>
        let* src := getitem icon (lit "src") in
        let* (path, image_map) := ImageMap.get_icon image_map src in
        let* alt := getitem icon (lit "alt") in
        let local_image :=
          Tag (lit "img")
            [(lit "class", lit "icon"); (lit "src", lit "../" ++ path); (lit "alt", alt)]
            [] in
        let* contents := contents_of_content in
        Ok ([header; local_image] ++ contents, image_map)
    | None =>
        let* contents := contents_of_content in
        Ok ([header] ++ contents, image_map)
    end in
  let post_html := Tag (lit "div") [(lit "class", lit "post")] (reply_anchor :: children) in
  Ok (RenderedPost.mk post_html author permalink permalink_fragment, image_map).

(** [authors[author] = True] on the ordered author set. *)
Definition add_author (authors : list (option str)) (author : option str)
  : list (option str) :=
  if bool_decide (author ∈ authors) then authors else authors ++ [author].

(** The state of the loop of [render_posts]: the sections yielded so far,
    the section being filled, the registry and the author set.  Each post is
    rendered from its own tree.  In the code [extend] moves the children of
    a post's content out of the page, so a post that lies inside another one
    would be rendered from a tree that the outer post's rendering has
    emptied: the step is the code's on posts that do not overlap
    ([independent] below), as the top-level posts of a page are. *)
Definition render_posts_step
    (st : list Sec.t * Sec.t * ImageMap.t * list (option str)) (post : Node)
  : outcome (list Sec.t * Sec.t * ImageMap.t * list (option str)) :=
  let '(yielded, out, image_map, authors) := st in
  let* (rendered, image_map) := render_post post image_map in
  let post_size := encoded_size (RenderedPost.html rendered) in
  let '(yielded, out) :=
    if (SECTION_SIZE_LIMIT <? Sec.size out + post_size)%Z && (0 <? Sec.size out)%Z
    then (yielded ++ [out], Sec.init)
    else (yielded, out) in
  Ok (yielded, Sec.append out rendered, image_map,
      add_author authors (RenderedPost.author rendered)).

(** [list(render_posts(posts, image_map, authors))] *)
Definition render_posts (posts : list Node) (image_map : ImageMap.t)
    (authors : list (option str))
  : outcome (list Sec.t * ImageMap.t * list (option str)) :=
  let* image_map := populate_image_map posts image_map in
  let* (yielded, out, image_map, authors) :=
    for_each render_posts_step posts ([], Sec.init, image_map, authors) in
  Ok (yielded ++ [out], image_map, authors).

Definition validate_tag (tag : option Node) (soup : Node) : outcome Node :=
  match tag with
  | Some tag => Ok tag
  | None =>
      match find (lit "div") (has_class (lit "flash error")) soup with
      | Some err => Raise (RuntimeError (strip (get_text err)))
      | None => Raise (RuntimeError (lit "Unknown error: tag missing"))
      end
  end.

(** [download_chapter] from the parsed response on: [soup] is the page the
    origin returned for the chapter. *)
Definition download_chapter (soup : Node) (image_map : ImageMap.t)
    (authors : list (option str))
  : outcome ((str * list Sec.t) * ImageMap.t * list (option str)) :=
  let posts := find_all (lit "div") (has_class (lit "post-container")) soup in
  let* title_tag :=
    validate_tag (find (lit "span") (has_attr (lit "id") (lit "post-title")) soup) soup in
  let title := strip (get_text title_tag) in
  let* (sections, image_map, authors) := render_posts posts image_map authors in
  Ok ((title, sections), image_map, authors).

End render.

(** ** Compiling the chapters *)

Module EpubHtml.
Record t : Type := mk { title : str; file_name : str; content : Node }.
End EpubHtml.

(** [enumerate(xs)] *)
Fixpoint enumerate_from {A} (i : N) (xs : list A) : list (N * A) :=
  match xs with
  | [] => []
  | x :: xs' => (i, x) :: enumerate_from (i + 1) xs'
  end.

Definition enumerate {A} (xs : list A) : list (N * A) := enumerate_from 0 xs.

(** [len(xs)] as an [int], and [len(str(len(xs)))] *)
Definition len {A} (xs : list A) : N := N.of_nat (length xs).

Definition digits_of_len {A} (xs : list A) : nat := length (str_of_int (len xs)).

(* "Text/" + make_filename_valid_for_epub3("%.*i-%.*i (%s).xhtml"
     % (chapter_digits, i + 1, section_digits, j, title)) *)
Definition section_file_name (fuel : nat) (chapter_digits : nat) (i : N)
    (section_digits : nat) (j : N) (title : str) : outcome str :=
  let* name :=
    make_filename_valid_for_epub3 fuel
      (fmt_prec chapter_digits (i + 1) ++ lit "-" ++ fmt_prec section_digits j
       ++ lit " (" ++ title ++ lit ").xhtml") in
  Ok (lit "Text/" ++ name).

(** The first loop: map permalinks to file names. *)
Definition map_permalinks (fuel : nat) (chapters : list (str * list Sec.t))
  : outcome (gmap str str) :=
  let chapter_digits := digits_of_len chapters in
  for_each
    (fun anchor_sections '(i, (title, sections)) =>
       let section_digits := digits_of_len sections in
       for_each
         (fun anchor_sections '(j, section) =>
            let* file_name :=
              section_file_name fuel chapter_digits i section_digits j title in
            Ok (foldl (fun anchor_sections permalink =>
                         <[permalink := file_name]> anchor_sections)
                      anchor_sections (Sec.link_targets section)))
         (enumerate sections) anchor_sections)
    (enumerate chapters) ∅.

(** The body of the second loop for one [a] tag, on its attributes. *)
Definition rewrite_href (anchor_sections : gmap str str) (attrs : list (str * str))
  : list (str * str) :=
  match attr_get (lit "href") attrs with
  | None => attrs
  | Some raw_url =>
      let url := urllib.urlparse raw_url in
      match (if REPLY_RE_match raw_url then anchor_sections !! raw_url else None) with
      | Some file_name =>
          attr_set (lit "href") (urllib.geturl (urllib.replace_path url file_name)) attrs
      | None =>
          if bool_decide (urllib.netloc url = []) then
            attr_set (lit "href")
              (urllib.geturl
                 (urllib.replace_scheme_netloc url (lit "https") (lit "glowfic.com")))
              attrs
          else attrs
      end
  end.

(** [for a in html.find_all("a"): ...]: every [a] tag of the tree gets its
    attributes rewritten in place. *)
Fixpoint rewrite_links (anchor_sections : gmap str str) (n : Node) : Node :=
  match n with
  | NavigableString s => NavigableString s
  | Tag name attrs cs =>
      Tag name
        (if bool_decide (name = lit "a") then rewrite_href anchor_sections attrs else attrs)
        (List.map (rewrite_links anchor_sections) cs)
  end.

Definition rewrite_section (anchor_sections : gmap str str) (section : Sec.t) : Sec.t :=
  Sec.mk (List.map (rewrite_links anchor_sections) (Sec.posts section))
         (Sec.size section) (Sec.link_targets section).

(** The second loop: replace external links with internal links. *)
Definition replace_links (anchor_sections : gmap str str)
    (chapters : list (str * list Sec.t)) : list (str * list Sec.t) :=
  List.map
    (fun '(title, sections) =>
       (title, List.map (rewrite_section anchor_sections) sections))
    chapters.

(** The third loop: one list of [EpubHtml] objects per chapter.  The content
    of an object is the section's document.  The code passes it through lxml
    ([etree.fromstring], then [etree.tostring]), which raises
    [XMLSyntaxError] on a document it cannot parse; neither the parsing nor
    the printing is modelled, so the model says what the names and the
    documents are when the loop returns, not that it returns. *)
Definition compile_sections (fuel : nat) (chapters : list (str * list Sec.t))
  : outcome (list (list EpubHtml.t)) :=
  let chapter_digits := digits_of_len chapters in
  map_each
    (fun '(i, (title, sections)) =>
       let section_digits := digits_of_len sections in
       map_each
         (fun '(j, section) =>
            let* file_name :=
              section_file_name fuel chapter_digits i section_digits j title in
            Ok (EpubHtml.mk title file_name (Sec.html section)))
         (enumerate sections))
    (enumerate chapters).

(** [list(compile_chapters(chapters))] *)
Definition compile_chapters (fuel : nat) (chapters : list (str * list Sec.t))
  : outcome (list (list EpubHtml.t)) :=
  let* anchor_sections := map_permalinks fuel chapters in
  compile_sections fuel (replace_links anchor_sections chapters).

(** ** Measures used to state the properties *)

(** The bytes of a list of posts: the sum of [len(post.encode())]. *)
Definition posts_size `{Formatter} (posts : list Node) : Z :=
  foldr (fun post acc => (encoded_size post + acc)%Z) 0%Z posts.

(** What holds of a section, yielded or being filled: its size is that of
    its posts, every post has some bytes, and it is within the limit unless
    it holds one post only. *)
Definition section_packed `{Formatter} (s : Sec.t) : Prop :=
  Sec.size s = posts_size (Sec.posts s)
  /\ Forall (fun post => (0 < encoded_size post)%Z) (Sec.posts s)
  /\ ((Sec.size s <= SECTION_SIZE_LIMIT)%Z \/ length (Sec.posts s) = 1%nat).

(** A character the sanitizer must remove: one of [FILENAME_BANNED_CHARS],
    or one inside a range of [FILENAME_BANNED_CHAR_RANGES]. *)
Definition banned (c : N) : Prop :=
  c ∈ FILENAME_BANNED_CHARS
  \/ exists lo hi, (lo, hi) ∈ FILENAME_BANNED_CHAR_RANGES /\ lo <= c <= hi.

(** The attributes of the [a] tags of a document, in document order. *)
Definition link_attrs (n : Node) : list (list (str * str)) :=
  attrs_of <$> find_all (lit "a") any_attrs n.

(** The parts of a URL that [geturl] writes after the path. *)
Definition params_part (url : urllib.ParseResult) : str :=
  if bool_decide (urllib.params url = []) then []
  else lit ";" ++ urllib.params url.

Definition query_part (url : urllib.ParseResult) : str :=
  if bool_decide (urllib.query url = []) then []
  else lit "?" ++ urllib.query url.

Definition fragment_part (url : urllib.ParseResult) : str :=
  if bool_decide (urllib.fragment url = []) then []
  else lit "#" ++ urllib.fragment url.

(** A path as [geturl] writes it after a host: with a leading slash, unless
    it is empty. *)
Definition rooted (p : str) : str :=
  match p with
  | [] => []
  | c :: _ => if c =? ord "/" then p else lit "/" ++ p
  end.

(** The start of the name of section [j] of chapter [i], up to the title. *)
Definition section_prefix (chapter_digits : nat) (i : N) (section_digits : nat) (j : N)
  : str :=
  fmt_prec chapter_digits (i + 1) ++ lit "-" ++ fmt_prec section_digits j ++ lit " (".

(** A permalink that is a path and nothing more: it starts with one slash,
    and has none of the characters that end a path ([#], [?], [;]) or that
    [urlparse] drops (tab, line feed, carriage return). *)
Definition is_plain_path (s : str) : bool :=
  startswith (lit "/") s && negb (startswith (lit "//") s)
  && forallb (fun c => negb (str_in c [ord "#"; ord "?"; ord ";"; 9; 10; 13])) s.

(** ** Sample data, used to run the definitions *)

#[export] Instance plain_formatter : Formatter :=
  {| decode := plain_decode;
     decode_tag_nonempty := ltac:(intros; discriminate) |}.

Definition sample_icon_url (k : N) : str :=
  lit "https://i.example.org/icons/" ++ str_of_int k ++ lit ".png".

(** Eleven distinct icon URLs: enough to take the registry's counter from one
    digit to two. *)
Definition eleven_urls : list str := sample_icon_url <$> [0; 1; 2; 3; 4; 5; 6; 7; 8; 9; 10].

Local Open Scope string_scope.

(** A tag and a string built from ASCII literals. *)
Definition tag (name : string) (attrs : list (string * string)) (cs : list Node) : Node :=
  Tag (lit name) ((fun kv => (lit kv.1, lit kv.2)) <$> attrs) cs.

Definition text (s : string) : Node := NavigableString (lit s).

(** A post as the origin serves it: icon, character and author, the permalink
    image inside its link, and a content made of links. *)
Definition sample_post (permalink icon : string) (links : list string) : Node :=
  tag "div" [("class", "post-container post-reply")]
    [ tag "div" [("class", "post-info-box")]
        [ tag "div" [("class", "post-icon")]
            [ tag "img" [("class", "icon"); ("src", icon); ("alt", "portrait")] [] ];
          tag "div" [("class", "post-character")] [text " Alice "];
          tag "div" [("class", "post-author")] [text "bob"] ];
      tag "div" [("class", "post-edit-box")]
        [ tag "a" [("href", permalink)]
            [ tag "img" [("title", "Permalink"); ("alt", "Permalink")] [] ] ];
      tag "div" [("class", "post-content")]
        ((fun l => tag "a" [("href", l)] [text "see"]) <$> links) ]%string.

Definition first_post : Node :=
  sample_post "/posts/7" "https://i.example.org/icons/0.png"
    ["/replies/12#reply-12"; "/users/5"; "https://example.com/z"]%string.

Definition second_post : Node :=
  sample_post "/replies/12#reply-12" "https://i.example.org/icons/1.png"
    ["/posts/7"; "/posts/8"]%string.

Definition sample_page : Node :=
  tag "[document]" []
    [ tag "span" [("id", "post-title")] [text " A title "]; first_post; second_post ]%string.

(** A post with no icon, and what [render_post] makes of it. *)
Definition bare_post : Node :=
  tag "div" [("class", "post-container post-post")]
    [ tag "div" [("class", "post-author")] [text " bob "];
      tag "a" [("href", "/posts/7")]
        [ tag "img" [("title", "Permalink"); ("alt", "Permalink")] [] ];
      tag "div" [("class", "post-content")] [text "Hello."] ].

Definition bare_rendered : RenderedPost.t :=
  RenderedPost.mk
    (tag "div" [("class", "post")]
       [ tag "a" [("id", "post-7")] [];
         tag "p" [] [ tag "strong" [] [text "bob"] ];
         text "Hello." ])
    (Some (lit "bob")) (lit "/posts/7") (lit "").

(** A post whose content is [k] letters, and a chapter with an oversized
    post and posts that fill more than one section. *)
Definition long_post (k : N) : Node :=
  tag "div" [("class", "post-container post-reply")]
    [ tag "a" [("href", "/replies/8#reply-8")]
        [ tag "img" [("title", "Permalink"); ("alt", "Permalink")] [] ];
      tag "div" [("class", "post-content")]
        [ NavigableString (replicate (N.to_nat k) (ord "a")) ] ].

Definition long_chapter : list Node :=
  [bare_post; long_post 200000; bare_post; long_post 150000; long_post 100000].

(** The number of posts of a section and its size. *)
Definition shape (s : Sec.t) : nat * Z := (length (Sec.posts s), Sec.size s).

Definition shapes (r : outcome (list Sec.t * ImageMap.t * list (option str)))
  : list (nat * Z) :=
  match r with Ok (sections, _, _) => shape <$> sections | _ => [] end.

(** Two small posts, and the section they make. *)
Definition short_chapter : list Node := [bare_post; bare_post].

Definition short_section : Sec.t :=
  Sec.mk [RenderedPost.html bare_rendered; RenderedPost.html bare_rendered]
         152 [lit "/posts/7"; lit "/posts/7"].

(** A name whose extension is exactly 255 bytes long. *)
Definition long_extension_name : str := lit "a." ++ replicate 255 (ord "b").

(** Two chapters of one section each, with links between them: to a reply of
    the other chapter, to pages of the origin that are not in the book, and to
    another site. *)
Definition linked_chapters : list (str * list Sec.t) :=
  [ (lit "One",
     [ Sec.mk
         [ tag "div" [("class", "post")]
             [ tag "a" [("id", "post-7")] [];
               tag "a" [("href", "/replies/12#reply-12")] [text "a reply"];
               tag "a" [("href", "/users/5")] [text "a user"];
               tag "a" [("href", "https://example.com/z")] [text "elsewhere"] ] ]
         159 [lit "/posts/7"] ]);
    (lit "Two",
     [ Sec.mk
         [ tag "div" [("class", "post")]
             [ tag "a" [("id", "reply-12")] [];
               tag "a" [("href", "/posts/7")] [text "the first post"];
               tag "a" [("href", "/posts/7?page=2")] [text "its second page"] ] ]
         127 [lit "/replies/12#reply-12"] ]) ].

Definition linked_compiled : list (list EpubHtml.t) :=
  Eval vm_compute in
    match compile_chapters 0 linked_chapters with Ok compiled => compiled | _ => [] end.


Definition blank_page : Node := tag "[document]" [] [text "nothing here"].

Local Close Scope string_scope.

(** ** Around the pipeline

    The parts of the script that frame the pipeline: the cookie file, the
    description of the book, the names of the image files and the table of
    contents. *)

(** The built-in exceptions that these parts raise, and the result of
    running one of them. *)
Inductive builtin_exn : Type :=
  | ValueError (msg : str)
  | IndexError (msg : str).

Inductive result (A : Type) : Type :=
  | Return (a : A)
  | Throw (e : builtin_exn).
Arguments Return {A} a.
Arguments Throw {A} e.

Definition COOKIE_NAME : str := lit "_glowfic_constellation_production".

(** [get_cookies()]; [cookie_file] is the text that [fin.read()] returns,
    [None] when there is no file named [cookie]. *)
Definition get_cookies (cookie_file : option str) : result (gmap str str) :=
  match cookie_file with
  | None => Return ∅
  | Some raw =>
      (* (name, cookie) = raw.split("=") *)
      match str_split (ord "=") raw with
      | [name; cookie] =>
          if bool_decide (name ≠ COOKIE_NAME) then
            Throw (ValueError
                     (lit "cookie file must start with " ++ [34] ++ COOKIE_NAME
                      ++ lit "=" ++ [34] ++ lit " (no quotes)"))
          else Return (<[COOKIE_NAME := strip cookie]> ∅)
      | [] | [_] =>
          Throw (ValueError (lit "not enough values to unpack (expected 2, got 1)"))
      | _ => Throw (ValueError (lit "too many values to unpack (expected 2)"))
      end
  end.

(** A [datetime] with a time zone is an instant: the microseconds since the
    epoch. *)
Module StampedURL.
Record t : Type := mk { url : str; stamp : Z }.
End StampedURL.

Module BookSpec.
Record t : Type := mk {
  stamped_urls : list StampedURL.t;
  title : str;
  last_update : Z }.

(* self.last_update = max((stamped_url.stamp for stamped_url in stamped_urls)) *)
Definition init (stamped_urls : list StampedURL.t) (title : str) : result t :=
  match StampedURL.stamp <$> stamped_urls with
  | [] => Throw (ValueError (lit "max() arg is an empty sequence"))
  | first :: rest => Return (mk stamped_urls title (foldl Z.max first rest))
  end.
End BookSpec.

(** The requests of [download_images]: for every URL [k] of the registry, the
    name [v.to_filename(image_map.icon_id_width)] its image is stored under.
    (The order of the requests, which is the order of registration, is not
    kept by the map.) *)
Definition download_requests (image_map : ImageMap.t) : gmap str str :=
  (fun v => MappedImage.to_filename v (ImageMap.icon_id_width image_map))
    <$> ImageMap.map image_map.

(** [[chapter[0] for chapter in chapters]], the table of contents of [main]. *)
Fixpoint toc (chapters : list (list EpubHtml.t)) : result (list EpubHtml.t) :=
  match chapters with
  | [] => Return []
  | chapter :: chapters' =>
      match chapter with
      | [] => Throw (IndexError (lit "list index out of range"))
      | first :: _ =>
          match toc chapters' with
          | Return entries => Return (first :: entries)
          | Throw e => Throw e
          end
      end
  end.

(** ** More measures *)

(** [icon["src"]] of the icon of a post, when there are both. *)
Definition icon_src (post : Node) : option str :=
  icon ← find_icon post; attr_get (lit "src") (attrs_of icon).

(** A post that has what [render_post] reads: the link around the permalink
    image with its [href], the content, and an icon (if any) with [src] and
    [alt]. *)
Definition well_formed_post (post : Node) : bool :=
  match find_parent is_permalink_img post with
  | Some parent => bool_decide (is_Some (attr_get (lit "href") (attrs_of parent)))
  | None => false
  end
  && bool_decide (is_Some (find (lit "div") (has_class (lit "post-content")) post))
  && match find_icon post with
     | Some icon =>
         bool_decide (is_Some (attr_get (lit "src") (attrs_of icon)))
         && bool_decide (is_Some (attr_get (lit "alt") (attrs_of icon)))
     | None => true
     end.

(** A name the sanitizer has nothing to do on. *)
Definition valid_name (name : str) : Prop :=
  name <> []
  /\ Forall (fun c => ~ banned c) name
  /\ last name <> Some (ord ".")
  /\ (utf8_len name <= 255)%Z.

(** What every registry built by [add_icon] satisfies: the counter is the
    number of entries, every id is below it, and no two URLs share an id. *)
Definition registry_ok (image_map : ImageMap.t) : Prop :=
  ImageMap.next_icon image_map = N.of_nat (size (ImageMap.map image_map))
  /\ (forall url image,
        ImageMap.map image_map !! url = Some image ->
        MappedImage.name image = lit "icon"
        /\ MappedImage.id image < ImageMap.next_icon image_map)
  /\ (forall url url' image image',
        ImageMap.map image_map !! url = Some image ->
        ImageMap.map image_map !! url' = Some image' ->
        MappedImage.id image = MappedImage.id image' -> url = url').

(** The exceptions of [render_post] on a post whose icon is registered. *)
Definition render_post_errors : list exn :=
  [ none_has_no_attribute (lit "parent"); KeyError (lit "href");
    KeyError (lit "src"); KeyError (lit "alt");
    none_has_no_attribute (lit "contents") ].

(** The sections of a chapter of one post with an icon. *)
Definition one_icon_sections : list Sec.t :=
  Eval vm_compute in
    match render_posts [first_post] ImageMap.init [] with
    | Ok (sections, _, _) => sections
    | _ => []
    end.


(** The chapter that [download_chapter] makes of the sample page, and the
    book of that one chapter. *)
Definition sample_chapter : str * list Sec.t :=
  Eval vm_compute in
    match download_chapter sample_page ImageMap.init [] with
    | Ok (chapter, _, _) => chapter
    | _ => ([], [])
    end.

Definition sample_compiled : list (list EpubHtml.t) :=
  Eval vm_compute in
    match compile_chapters 0 [sample_chapter] with Ok compiled => compiled | _ => [] end.


(** The id of the anchor that [render_post] puts before a post. *)
Definition anchor_id (permalink : str) : str :=
  if bool_decide (urllib.fragment (urllib.urlparse permalink) = [])
  then lit "post-" ++ last_seg (str_split (ord "/") permalink)
  else urllib.fragment (urllib.urlparse permalink).



(** A section was closed because the first post of the next one did not fit
    in it. *)
Definition closed_when_full `{Formatter} (s s' : Sec.t) : Prop :=
  exists post posts,
    Sec.posts s' = post :: posts
    /\ (SECTION_SIZE_LIMIT < Sec.size s + encoded_size post)%Z.

(** Every section of a list but the last was closed because it was full. *)
Fixpoint packed_greedily `{Formatter} (sections : list Sec.t) : Prop :=
  match sections with
  | s :: (s' :: _) as rest => closed_when_full s s' /\ packed_greedily rest
  | _ => True
  end.


(** ** Where the models of the libraries stop

    Two library calls raise where their models above return.  [urlsplit]
    raises [ValueError] on a host with a bracket that is not a well-formed
    bracketed address, and on a host that is not ASCII and that NFKC
    normalisation changes; [str.encode] raises [UnicodeEncodeError] on a
    lone surrogate.  The statements that say what the code returns or raises
    keep to the inputs described here, on which the libraries return. *)

(** A URL whose host, as [urlsplit] cuts it, is ASCII and has no bracket:
    none of the checks of [urlsplit] raises on it. *)
Definition url_accepted (url : str) : bool :=
  forallb (fun c => (c <? 128) && negb (c =? ord "[") && negb (c =? ord "]"))
          (urllib.netloc (urllib.urlsplit url)).

(** A Unicode scalar value: a code point that [encode("utf-8")] accepts. *)
Definition is_scalar_value (c : N) : bool :=
  (c <? 0xD800) || ((0xDFFF <? c) && (c <=? 0x10FFFF)).

(** The URLs that rendering a post hands to [urlparse], the permalink and the
    icon's [src], are accepted. *)
Definition post_urls_accepted (post : Node) : bool :=
  match find_parent is_permalink_img post with
  | Some parent =>
      match attr_get (lit "href") (attrs_of parent) with
      | Some permalink => url_accepted permalink
      | None => true
      end
  | None => true
  end
  && match icon_src post with
     | Some src => url_accepted src
     | None => true
     end.

(** No post of the list lies inside another one.  ([render_post] moves the
    children of a post's content into the rendered post; posts that do not
    overlap do not see each other's rendering.) *)
Definition independent (posts : list Node) : Prop :=
  forall post post', post ∈ posts -> post' ∈ posts -> post' ∉ descendants post.


(** A post whose permalink carries a query string, and a page without a
    title whose error banner reads like the fixed message. *)
Definition paged_post : Node :=
  Tag (lit "div") [(lit "class", lit "post-container post-post")]
    [ Tag (lit "a") [(lit "href", lit "/posts/7?page=2")]
        [ Tag (lit "img") [(lit "title", lit "Permalink"); (lit "alt", lit "Permalink")] [] ];
      Tag (lit "div") [(lit "class", lit "post-content")] [NavigableString (lit "Hello.")] ].


(** * Properties *)

(** ** The models of the libraries, run *)

Example str_of_int_120 : str_of_int 120 = lit "120".
Proof. reflexivity. Qed.

Example str_of_int_0 : str_of_int 0 = lit "0".
Proof. reflexivity. Qed.

Example fmt_prec_3_7 : fmt_prec 3 7 = lit "007".
Proof. reflexivity. Qed.

Example fmt_prec_1_12 : fmt_prec 1 12 = lit "12".
Proof. reflexivity. Qed.

Example str_split_dots :
  str_split (ord ".") (lit "a.b..c") = [lit "a"; lit "b"; lit ""; lit "c"].
Proof. reflexivity. Qed.

Example strip_spaces : strip (lit "  a b  ") = lit "a b".
Proof. reflexivity. Qed.

Example urlparse_reply :
  urllib.urlparse (lit "/replies/123#reply-123")
  = urllib.mkParseResult [] [] (lit "/replies/123") [] [] (lit "reply-123").
Proof. vm_compute. reflexivity. Qed.

Example urlparse_absolute :
  urllib.urlparse (lit "https://glowfic.com/posts/1?page=2#x")
  = urllib.mkParseResult (lit "https") (lit "glowfic.com") (lit "/posts/1") []
      (lit "page=2") (lit "x").
Proof. vm_compute. reflexivity. Qed.

Example urlparse_params :
  urllib.urlparse (lit "//host/p;x/q;y?z#f")
  = urllib.mkParseResult [] (lit "host") (lit "/p;x/q") (lit "y") (lit "z") (lit "f").
Proof. vm_compute. reflexivity. Qed.

Example urlparse_mailto :
  urllib.urlparse (lit "mailto:a@b.c")
  = urllib.mkParseResult (lit "mailto") [] (lit "a@b.c") [] [] [].
Proof. vm_compute. reflexivity. Qed.

Example geturl_round_trip :
  urllib.geturl (urllib.urlparse (lit "//host/p;x/q;y?z#f")) = lit "//host/p;x/q;y?z#f".
Proof. vm_compute. reflexivity. Qed.

Example geturl_to_origin :
  urllib.geturl
    (urllib.replace_scheme_netloc (urllib.urlparse (lit "mailto:a@b.c"))
       (lit "https") (lit "glowfic.com"))
  = lit "https://glowfic.com/a@b.c".
Proof. vm_compute. reflexivity. Qed.

Example download_sample_page :
  match download_chapter sample_page ImageMap.init [] with
  | Ok ((title, sections), image_map, authors) =>
      Some (title, shape <$> sections, Sec.link_targets <$> sections,
            ImageMap.next_icon image_map, authors)
  | _ => None
  end
  = Some (lit "A title", [(2%nat, 443%Z)],
          [[lit "/posts/7"; lit "/replies/12#reply-12"]], 2, [Some (lit "bob")]).
Proof. vm_compute. reflexivity. Qed.

Example sanitize_slash_dots :
  make_filename_valid_for_epub3 0 (lit "a/b.txt...") = Ok (lit "ab.txt").
Proof. vm_compute. reflexivity. Qed.

Example sanitize_truncates :
  make_filename_valid_for_epub3 300 (replicate 300 (ord "a") ++ lit ".b.c")
  = Ok (replicate 253 (ord "a") ++ lit ".c").
Proof. vm_compute. reflexivity. Qed.

Example render_first_post :
  fst <$> (match render_post first_post
                   (ImageMap.add_icon ImageMap.init
                      (lit "https://i.example.org/icons/0.png")) with
           | Ok r => Some r
           | _ => None
           end)
  = Some
      (RenderedPost.mk
         (tag "div" [("class", "post")%string]
            [ tag "a" [("id", "post-7")%string] [];
              tag "p" [] [ tag "strong" [] [text "Alice / bob"] ];
              tag "img" [("class", "icon"); ("src", "../Images/icon0.png");
                         ("alt", "portrait")]%string [];
              tag "a" [("href", "/replies/12#reply-12")%string] [text "see"];
              tag "a" [("href", "/users/5")%string] [text "see"];
              tag "a" [("href", "https://example.com/z")%string] [text "see"] ])
         (Some (lit "bob")) (lit "/posts/7") []).
Proof. vm_compute. reflexivity. Qed.

(** ** Strings *)

Lemma str_in_spec (c : N) (s : str) : str_in c s = true <-> c ∈ s.
Proof.
  unfold str_in. rewrite existsb_exists. setoid_rewrite <- list_elem_of_In.
  split.
  - intros (x & Hx & ->%N.eqb_eq). done.
  - intros Hc. exists c. by rewrite N.eqb_refl.
Qed.

Lemma lstrip_by_spec (f : N -> bool) (s : str) :
  exists t, s = t ++ lstrip_by f s /\ Forall (fun c => f c = true) t.
Proof.
  induction s as [|c s (t & Hs & Ht)]; simpl.
  - by exists [].
  - destruct (f c) eqn:Hc.
    + exists (c :: t). split; [by rewrite Hs at 1|by constructor].
    + by exists [].
Qed.

Lemma lstrip_by_head (f : N -> bool) (s : str) (c : N) :
  head (lstrip_by f s) = Some c -> f c = false.
Proof.
  induction s as [|x s IH]; simpl; [done|].
  destruct (f x) eqn:Hx; [done|]. by intros [= <-].
Qed.

Lemma rstrip_by_spec (f : N -> bool) (s : str) :
  exists t, s = rstrip_by f s ++ t /\ Forall (fun c => f c = true) t.
Proof.
  unfold rstrip_by. destruct (lstrip_by_spec f (reverse s)) as (t & Hs & Ht).
  exists (reverse t). split.
  - rewrite <- reverse_app, <- Hs. by rewrite reverse_involutive.
  - by apply Forall_reverse.
Qed.

Lemma rstrip_by_last (f : N -> bool) (s : str) (c : N) :
  last (rstrip_by f s) = Some c -> f c = false.
Proof. unfold rstrip_by. rewrite last_reverse. apply lstrip_by_head. Qed.

Lemma rstrip_by_all (f : N -> bool) (s : str) :
  Forall (fun c => f c = true) s -> rstrip_by f s = [].
Proof.
  intros Hs. destruct (rstrip_by f s) as [|c r] eqn:E using rev_ind; [done|].
  pose proof (rstrip_by_last f s c) as Hlast. rewrite E, last_snoc in Hlast.
  destruct (rstrip_by_spec f s) as (t & Heq & _). rewrite E in Heq.
  rewrite Heq in Hs. rewrite !Forall_app, Forall_singleton in Hs.
  destruct Hs as [[_ Hc] _]. rewrite Hlast in Hc; done.
Qed.

Lemma str_split_nonempty (c : N) (s : str) : str_split c s <> [].
Proof. induction s as [|x s IH]; simpl; [done|]. repeat case_match; done. Qed.

Lemma str_join_split (c : N) (s : str) : str_join [c] (str_split c s) = s.
Proof.
  induction s as [|x s IH]; simpl; [done|].
  destruct (N.eqb_spec x c) as [->|Hne].
  - pose proof (str_split_nonempty c s).
    simpl. destruct (str_split c s) eqn:E; [done|]. simpl in *. by rewrite IH.
  - destruct (str_split c s) as [|seg [|seg' rest]] eqn:E; simpl in *.
    + by subst.
    + by subst.
    + by rewrite <- IH.
Qed.

Lemma str_split_no_sep (c : N) (s : str) :
  Forall (fun seg => c ∉ seg) (str_split c s).
Proof.
  induction s as [|x s IH]; simpl.
  - constructor; [apply not_elem_of_nil|constructor].
  - destruct (N.eqb_spec x c) as [->|Hne].
    + constructor; [apply not_elem_of_nil|done].
    + destruct (str_split c s) as [|seg rest]; simpl.
      * constructor; [|constructor].
        rewrite list_elem_of_singleton. congruence.
      * apply Forall_cons in IH as [Hseg Hrest]. constructor; [|done].
        rewrite not_elem_of_cons. split; [congruence|done].
Qed.

Lemma str_join_snoc (sep : str) (parts : list str) (p : str) :
  parts <> [] -> str_join sep (parts ++ [p]) = str_join sep parts ++ sep ++ p.
Proof.
  induction parts as [|q parts IH]; [done|]. intros _.
  destruct parts as [|q' parts]; simpl in *; [done|].
  rewrite IH by done. by rewrite <- !app_assoc.
Qed.

Lemma drop_last_snoc {A} (l : list A) (x : A) : drop_last (l ++ [x]) = l.
Proof.
  unfold drop_last. rewrite length_app. simpl.
  replace (Nat.pred (length l + 1)) with (length l) by lia.
  apply take_app_length.
Qed.

Lemma drop_last_take {A} (l : list A) : drop_last l = take (length l - 1) l.
Proof. unfold drop_last. f_equal. lia. Qed.

(** A string is its name part, a dot and its extension, unless it has no dot
    at all; the extension has no dot. *)
Lemma split_extension (s : str) :
  let parts := str_split (ord ".") s in
  (ord "." ∉ last_seg parts)
  /\ (drop_last parts = [] /\ s = last_seg parts
      \/ s = str_join (lit ".") (drop_last parts) ++ lit "." ++ last_seg parts).
Proof.
  intros parts. pose proof (str_split_nonempty (ord ".") s) as Hne.
  pose proof (str_split_no_sep (ord ".") s) as Hsep.
  pose proof (str_join_split (ord ".") s) as Hjoin.
  fold parts in Hne, Hsep, Hjoin.
  destruct parts as [|ext init _] using rev_ind; [done|].
  unfold last_seg. rewrite last_snoc, drop_last_snoc. simpl.
  rewrite Forall_app, Forall_singleton in Hsep. destruct Hsep as [_ Hext].
  split; [exact Hext|].
  destruct init as [|p init]; [by left|right].
  rewrite str_join_snoc in Hjoin by done. symmetry. exact Hjoin.
Qed.

(** ** The image registry *)

Lemma add_icon_registered (self : ImageMap.t) (url : str) :
  is_Some (ImageMap.map (ImageMap.add_icon self url) !! url).
Proof.
  unfold ImageMap.add_icon.
  destruct (ImageMap.map self !! url) eqn:E; simpl.
  - rewrite E. eauto.
  - rewrite lookup_insert_eq. eauto.
Qed.

Lemma add_icon_lookup_ne (self : ImageMap.t) (url url' : str) :
  url ≠ url' ->
  ImageMap.map (ImageMap.add_icon self url) !! url' = ImageMap.map self !! url'.
Proof.
  intros Hne. unfold ImageMap.add_icon.
  destruct (ImageMap.map self !! url) eqn:E; simpl; [done|].
  by rewrite lookup_insert_ne.
Qed.

(** Registering a URL that is already there changes nothing. *)
Lemma add_icon_again (self : ImageMap.t) (url : str) :
  is_Some (ImageMap.map self !! url) -> ImageMap.add_icon self url = self.
Proof. intros [image E]. unfold ImageMap.add_icon. by rewrite E. Qed.

Lemma add_icon_idempotent (self : ImageMap.t) (url : str) :
  ImageMap.add_icon (ImageMap.add_icon self url) url = ImageMap.add_icon self url.
Proof. apply add_icon_again, add_icon_registered. Qed.

(** The URLs in the registry after a run of registrations are the ones that
    were there before and the ones registered. *)
Lemma registered_after (urls : list str) (self : ImageMap.t) (url : str) :
  is_Some (ImageMap.map (foldl ImageMap.add_icon self urls) !! url)
  <-> is_Some (ImageMap.map self !! url) \/ url ∈ urls.
Proof.
  revert self. induction urls as [|u urls IH]; intros self; simpl.
  - rewrite elem_of_nil. tauto.
  - rewrite IH, elem_of_cons. destruct (decide (u = url)) as [->|Hne].
    + pose proof (add_icon_registered self url). tauto.
    + rewrite add_icon_lookup_ne by done. split; [tauto|].
      intros [?|[?|?]]; try tauto. congruence.
Qed.

Lemma get_icon_registered (self : ImageMap.t) (url : str) (image : MappedImage.t) :
  ImageMap.map self !! url = Some image ->
  ImageMap.get_icon self url
  = Ok (MappedImage.to_filename image (ImageMap.icon_id_width self), self).
Proof. intros E. unfold ImageMap.get_icon. rewrite E. simpl. by rewrite E. Qed.

Lemma get_icon_unregistered (self : ImageMap.t) (url : str) :
  ImageMap.map self !! url = None ->
  ImageMap.get_icon self url
  = Raise (AttributeError (lit "'ImageMap' object has no attribute 'add'")).
Proof. intros E. unfold ImageMap.get_icon. by rewrite E. Qed.

(** When [get_icon] returns, the registry is the one it was given. *)
Lemma get_icon_ok_inv (self self' : ImageMap.t) (url path : str) :
  ImageMap.get_icon self url = Ok (path, self') ->
  self' = self /\ exists image,
    ImageMap.map self !! url = Some image
    /\ path = MappedImage.to_filename image (ImageMap.icon_id_width self).
Proof.
  destruct (ImageMap.map self !! url) as [image|] eqn:E.
  - rewrite (get_icon_registered _ _ _ E). intros [= <- <-]. eauto.
  - by rewrite (get_icon_unregistered _ _ E).
Qed.

(** C10. In a registry filled by [add_icon] calls only, [get_icon] on a URL
    that was never registered raises AttributeError (the method [add] it calls
    does not exist) instead of registering the URL; it returns a path, and
    leaves the registry as it is, only for a URL that was registered. *)
Theorem get_icon_only_for_registered (urls : list str) (url : str) :
  let image_map := foldl ImageMap.add_icon ImageMap.init urls in
  (url ∉ urls ->
     ImageMap.get_icon image_map url
     = Raise (AttributeError (lit "'ImageMap' object has no attribute 'add'")))
  /\ (url ∈ urls ->
        exists image,
          ImageMap.map image_map !! url = Some image
          /\ ImageMap.get_icon image_map url
             = Ok (MappedImage.to_filename image (ImageMap.icon_id_width image_map),
                   image_map))
  /\ (forall path image_map',
        ImageMap.get_icon image_map url = Ok (path, image_map') -> url ∈ urls).
Proof.
  intros image_map.
  pose proof (registered_after urls ImageMap.init url) as Hreg.
  fold image_map in Hreg.
  assert (Hinit : ~ is_Some (ImageMap.map ImageMap.init !! url)).
  { simpl. rewrite lookup_empty. by intros [? ?]. }
  split; [|split].
  - intros Hnot. apply get_icon_unregistered.
    apply eq_None_not_Some. rewrite Hreg. tauto.
  - intros Hin. destruct (proj2 Hreg (or_intror Hin)) as [image E].
    exists image. split; [done|]. by apply get_icon_registered.
  - intros path image_map' Hget.
    apply get_icon_ok_inv in Hget as (_ & image & E & _).
    destruct (proj1 Hreg (mk_is_Some _ _ E)); tauto.
Qed.

Lemma get_icon_only_for_registered_witness :
  ImageMap.get_icon (foldl ImageMap.add_icon ImageMap.init [sample_icon_url 0])
                    (sample_icon_url 1)
  = Raise (AttributeError (lit "'ImageMap' object has no attribute 'add'")).
Proof.
  apply (get_icon_only_for_registered [sample_icon_url 0] (sample_icon_url 1)).
  rewrite list_elem_of_singleton. vm_compute. discriminate.
Defined.

(** C7 (the code departs from it). The first URL registered is given the path
    [Images/icon0.png] while it is the only one; once ten more URLs are
    registered, registering that same URL again gives [Images/icon00.png]:
    the width of the number follows the latest registration. *)
Theorem get_icon_path_drifts :
  let first := sample_icon_url 0 in
  let one := ImageMap.add_icon ImageMap.init first in
  let eleven := foldl ImageMap.add_icon ImageMap.init eleven_urls in
  let again := ImageMap.add_icon eleven first in
  ImageMap.get_icon one first = Ok (lit "Images/icon0.png", one)
  /\ again = eleven
  /\ ImageMap.get_icon again first = Ok (lit "Images/icon00.png", again).
Proof.
  cbv zeta.
  assert (Hfirst : forall self,
             ImageMap.map self !! sample_icon_url 0
             = Some (MappedImage.mk (lit "icon") 0 (lit "png")) ->
             ImageMap.get_icon self (sample_icon_url 0)
             = Ok (lit "Images/icon" ++ fmt_prec (ImageMap.icon_id_width self) 0
                   ++ lit ".png", self)).
  { intros self E. by rewrite (get_icon_registered _ _ _ E). }
  assert (Heleven : ImageMap.map (foldl ImageMap.add_icon ImageMap.init eleven_urls)
                      !! sample_icon_url 0
                    = Some (MappedImage.mk (lit "icon") 0 (lit "png")))
    by (vm_compute; reflexivity).
  assert (Hagain : ImageMap.add_icon (foldl ImageMap.add_icon ImageMap.init eleven_urls)
                     (sample_icon_url 0)
                   = foldl ImageMap.add_icon ImageMap.init eleven_urls)
    by (apply add_icon_again; rewrite Heleven; eauto).
  split; [|split].
  - rewrite Hfirst by (vm_compute; reflexivity). reflexivity.
  - exact Hagain.
  - rewrite Hagain, Hfirst by exact Heleven.
    assert (ImageMap.icon_id_width (foldl ImageMap.add_icon ImageMap.init eleven_urls)
            = 2%nat) as -> by (vm_compute; reflexivity).
    reflexivity.
Qed.

(** ** URLs *)

Lemma urlsplit_scheme_netloc (url : str) :
  let stripped :=
    List.filter (fun c => negb (urllib.unsafe_byte c))
                (lstrip_by urllib.c0_control_or_space url) in
  let rest := (urllib.split_scheme stripped).2 in
  urllib.scheme (urllib.urlsplit url) = (urllib.split_scheme stripped).1
  /\ urllib.netloc (urllib.urlsplit url)
     = if bool_decide (take 2 rest = lit "//") then (urllib.splitnetloc rest).1 else [].
Proof.
  intros stripped rest. unfold urllib.urlsplit. fold stripped.
  subst rest. destruct (urllib.split_scheme stripped) as [scheme url1]. simpl.
  destruct (bool_decide (take 2 url1 = lit "//")).
  - destruct (urllib.splitnetloc url1) as [netloc url2]. simpl.
    destruct (split_once (ord "#") url2) as [[url3 fragment]|];
      [destruct (split_once (ord "?") url3) as [[? ?]|]
      |destruct (split_once (ord "?") url2) as [[? ?]|]]; done.
  - destruct (split_once (ord "#") url1) as [[url3 fragment]|];
      [destruct (split_once (ord "?") url3) as [[? ?]|]
      |destruct (split_once (ord "?") url1) as [[? ?]|]]; done.
Qed.

Lemma urlparse_scheme_netloc (url : str) :
  urllib.scheme (urllib.urlparse url) = urllib.scheme (urllib.urlsplit url)
  /\ urllib.netloc (urllib.urlparse url) = urllib.netloc (urllib.urlsplit url).
Proof.
  unfold urllib.urlparse. destruct (_ && _); [|done].
  by destruct (urllib.splitparams _).
Qed.

Lemma split_once_head (c x : N) (s pre post : str) :
  split_once c (x :: s) = Some (pre, post) -> pre = [] \/ head pre = Some x.
Proof.
  cbn [split_once]. destruct (x =? c); [intros [= <- _]; by left|].
  destruct (split_once c s) as [[a b]|]; [|done].
  intros [= <- _]. by right.
Qed.

(** A URL whose first character is not a letter has no scheme. *)
Lemma split_scheme_not_alpha (x : N) (s : str) :
  urllib.is_alpha x = false -> urllib.split_scheme (x :: s) = ([], x :: s).
Proof.
  intros Hx. unfold urllib.split_scheme.
  destruct (split_once (ord ":") (x :: s)) as [[pre post]|] eqn:Hsplit; [|done].
  apply split_once_head in Hsplit as [->|Hhead]; [done|].
  destruct pre as [|c0 pre]; [done|]. injection Hhead as ->. by rewrite Hx.
Qed.

(** A URL that starts with a slash followed by a letter has neither a scheme
    nor a host. *)
Lemma urlparse_rooted (c : N) (rest : str) :
  urllib.is_alpha c = true ->
  urllib.scheme (urllib.urlparse (ord "/" :: c :: rest)) = []
  /\ urllib.netloc (urllib.urlparse (ord "/" :: c :: rest)) = [].
Proof.
  intros Hc.
  destruct (urlparse_scheme_netloc (ord "/" :: c :: rest)) as [-> ->].
  destruct (urlsplit_scheme_netloc (ord "/" :: c :: rest)) as [-> ->].
  assert (Hsafe : negb (urllib.unsafe_byte c) = true).
  { unfold urllib.is_alpha, urllib.unsafe_byte in *.
    rewrite negb_true_iff, !orb_false_iff, !N.eqb_neq.
    rewrite orb_true_iff, !andb_true_iff, !N.leb_le in Hc. lia. }
  cbn [lstrip_by]. change (urllib.c0_control_or_space (ord "/")) with false.
  cbn [List.filter]. change (negb (urllib.unsafe_byte (ord "/"))) with true.
  rewrite Hsafe. cbv iota.
  set (tail := List.filter _ rest).
  rewrite split_scheme_not_alpha by done. cbn [fst snd take]. split; [done|].
  rewrite bool_decide_eq_false_2; [done|].
  intros [= ->]. vm_compute in Hc. discriminate.
Qed.

Lemma startswith_cons (a : N) (p s : str) :
  startswith (a :: p) s = true -> exists s', s = a :: s' /\ startswith p s' = true.
Proof.
  destruct s as [|b s]; [done|]. cbn [startswith].
  intros [->%N.eqb_eq Hp]%andb_true_iff. eauto.
Qed.

Lemma REPLY_RE_match_rooted (raw_url : str) :
  REPLY_RE_match raw_url = true ->
  urllib.scheme (urllib.urlparse raw_url) = []
  /\ urllib.netloc (urllib.urlparse raw_url) = [].
Proof.
  unfold REPLY_RE_match. intros Hmatch.
  assert (exists c rest, raw_url = ord "/" :: c :: rest /\ urllib.is_alpha c = true)
    as (c & rest & -> & Halpha).
  { apply orb_true_iff in Hmatch as [Hm|Hm].
    - change (lit "/replies/") with (ord "/" :: ord "r" :: lit "eplies/") in Hm.
      apply startswith_cons in Hm as (s1 & -> & Hm).
      apply startswith_cons in Hm as (s2 & -> & _). by exists (ord "r"), s2.
    - change (lit "/posts/") with (ord "/" :: ord "p" :: lit "osts/") in Hm.
      apply startswith_cons in Hm as (s1 & -> & Hm).
      apply startswith_cons in Hm as (s2 & -> & _). by exists (ord "p"), s2. }
  by apply urlparse_rooted.
Qed.

Lemma geturl_relative (url : urllib.ParseResult) (file_name : str) :
  urllib.scheme url = [] -> urllib.netloc url = [] ->
  urllib.geturl (urllib.replace_path url file_name)
  = file_name ++ params_part url ++ query_part url ++ fragment_part url.
Proof.
  intros Hscheme Hnetloc.
  unfold urllib.geturl, urllib.urlunsplit, urllib.replace_path,
    params_part, query_part, fragment_part.
  cbn [urllib.scheme urllib.netloc urllib.path urllib.params urllib.query
       urllib.fragment].
  rewrite Hscheme, Hnetloc.
  rewrite !(bool_decide_eq_false_2 ([] <> [])) by (intros Hne; by apply Hne).
  cbn [orb andb].
  destruct (decide (urllib.params url = [])) as [->|Hp];
    destruct (decide (urllib.query url = [])) as [->|Hq];
    destruct (decide (urllib.fragment url = [])) as [->|Hf];
    repeat first
      [rewrite (bool_decide_eq_false_2 ([] <> [])) by (intros Hne; by apply Hne)
      |rewrite (bool_decide_eq_true_2 ([] = [])) by done
      |rewrite (bool_decide_eq_true_2 (_ <> [])) by done
      |rewrite (bool_decide_eq_false_2 (_ = [])) by done];
    rewrite ?app_nil_r, <- ?app_assoc; reflexivity.
Qed.

Lemma geturl_origin (url : urllib.ParseResult) :
  urllib.geturl (urllib.replace_scheme_netloc url (lit "https") (lit "glowfic.com"))
  = lit "https://glowfic.com"
    ++ rooted (urllib.path url ++ params_part url)
    ++ query_part url ++ fragment_part url.
Proof.
  unfold urllib.geturl, urllib.urlunsplit, urllib.replace_scheme_netloc,
    params_part, query_part, fragment_part.
  cbn [urllib.scheme urllib.netloc urllib.path urllib.params urllib.query
       urllib.fragment].
  rewrite (bool_decide_eq_true_2 (lit "glowfic.com" <> [])) by done.
  rewrite (bool_decide_eq_true_2 (lit "https" <> [])) by done.
  cbn [orb].
  assert (Hrooted : forall p,
             (if bool_decide (p <> []) && bool_decide (take 1 p <> lit "/")
              then lit "/" ++ p else p) = rooted p).
  { intros [|c p]; [done|]. unfold rooted.
    rewrite (bool_decide_eq_true_2 (c :: p <> [])) by done. cbn [andb take].
    destruct (N.eqb_spec c (ord "/")) as [->|Hne].
    - by rewrite bool_decide_eq_false_2 by (intros Hne; by apply Hne).
    - rewrite bool_decide_eq_true_2; [done|]. intros [= ->]. done. }
  rewrite Hrooted.
  repeat case_bool_decide; try done;
    rewrite ?app_nil_r, <- ?app_assoc; reflexivity.
Qed.

Lemma split_once_absent (c : N) (s : str) : c ∉ s -> split_once c s = None.
Proof.
  induction s as [|x s IH]; [done|]. intros [Hx Hs]%not_elem_of_cons.
  cbn [split_once]. rewrite (proj2 (N.eqb_neq x c)) by congruence.
  by rewrite IH.
Qed.

Lemma filter_nothing {A} (f : A -> bool) (l : list A) :
  Forall (fun x => f x = true) l -> List.filter f l = l.
Proof. induction 1 as [|x l Hx _ IH]; [done|]. cbn [List.filter]. by rewrite Hx, IH. Qed.

(** A plain path is all path for [urlparse]. *)
Lemma urlparse_plain_path (s : str) :
  is_plain_path s = true -> urllib.urlparse s = urllib.mkParseResult [] [] s [] [] [].
Proof.
  unfold is_plain_path. rewrite !andb_true_iff, negb_true_iff, forallb_forall.
  intros [[Hslash Hdouble] Hchars].
  change (lit "/") with [ord "/"] in Hslash.
  apply startswith_cons in Hslash as (rest & -> & _).
  assert (Hnone : forall c, c ∈ [ord "#"; ord "?"; ord ";"; 9; 10; 13] ->
                            c ∉ ord "/" :: rest).
  { intros c Hc Hin. apply list_elem_of_In, Hchars, negb_true_iff in Hin.
    apply str_in_spec in Hc. congruence. }
  assert (Hsafe : List.filter (fun c => negb (urllib.unsafe_byte c)) (ord "/" :: rest)
                  = ord "/" :: rest).
  { apply filter_nothing, Forall_forall. intros c Hc.
    apply negb_true_iff. unfold urllib.unsafe_byte.
    rewrite !orb_false_iff, !N.eqb_neq.
    split_and!; intros ->; (eapply Hnone; [|exact Hc]);
      repeat first [apply list_elem_of_here|apply list_elem_of_further]. }
  assert (Hsplit : urllib.urlsplit (ord "/" :: rest)
                   = urllib.mkParseResult [] [] (ord "/" :: rest) [] [] []).
  { unfold urllib.urlsplit. cbn [lstrip_by].
    change (urllib.c0_control_or_space (ord "/")) with false. cbv iota.
    rewrite Hsafe, split_scheme_not_alpha by done.
    rewrite bool_decide_eq_false_2.
    - rewrite !split_once_absent; [done|apply Hnone..];
        repeat first [apply list_elem_of_here|apply list_elem_of_further].
    - intros Htwo. destruct rest as [|c rest]; [done|].
      injection Htwo as ->.
      change (lit "//") with [ord "/"; ord "/"] in Hdouble.
      cbn [startswith] in Hdouble. by rewrite !N.eqb_refl in Hdouble. }
  unfold urllib.urlparse. rewrite Hsplit. cbn [urllib.scheme urllib.path].
  replace (str_in (ord ";") (ord "/" :: rest)) with false; [by rewrite andb_false_r|].
  symmetry. apply not_true_iff_false. rewrite str_in_spec. apply Hnone.
  repeat first [apply list_elem_of_here|apply list_elem_of_further].
Qed.

(** ** Rendering a post *)

Lemma bind_ok_inv {A B} (m : outcome A) (k : A -> outcome B) (b : B) :
  bind m k = Ok b -> exists a, m = Ok a /\ k a = Ok b.
Proof. destruct m; simpl; intros; try discriminate. eauto. Qed.

(** Turns a hypothesis [let* x := m in k = Ok b] into its two steps. *)
Ltac bind_inv H :=
  let a := fresh "a" in
  let Hm := fresh "Hm" in
  apply bind_ok_inv in H as (a & Hm & H).

Lemma find_first_child (name : str) (p : list (str * str) -> bool)
    (n : str) (attrs : list (str * str)) (c : Node) (cs : list Node) :
  is_tag name c = true -> p (attrs_of c) = true ->
  find name p (Tag n attrs (c :: cs)) = Some c.
Proof.
  intros Hname Hp. unfold find, find_all. simpl.
  by rewrite Hname, Hp.
Qed.

(** The shape of a rendered post: the [div] starts with the anchor, whose id
    is decided by the fragment of the permalink. *)
Lemma render_post_ok_inv (post : Node) (image_map image_map' : ImageMap.t)
    (rendered : RenderedPost.t) :
  render_post post image_map = Ok (rendered, image_map') ->
  exists parent permalink children,
    find_parent is_permalink_img post = Some parent
    /\ getitem parent (lit "href") = Ok permalink
    /\ rendered
       = RenderedPost.mk
           (Tag (lit "div") [(lit "class", lit "post")]
              (Tag (lit "a")
                 [(lit "id",
                   if bool_decide (urllib.fragment (urllib.urlparse permalink) = [])
                   then lit "post-" ++ last_seg (str_split (ord "/") permalink)
                   else urllib.fragment (urllib.urlparse permalink))] []
               :: children))
           (find_text (lit "post-author") post)
           permalink
           (urllib.fragment (urllib.urlparse permalink)).
Proof.
  unfold render_post. intros Hr.
  bind_inv Hr. rename a into permalink.
  destruct (find_parent is_permalink_img post) as [parent|] eqn:Hparent;
    [|discriminate].
  bind_inv Hr. destruct a as [children im].
  injection Hr as <- <-.
  exists parent, permalink, children. repeat split; try done.
  by destruct (bool_decide (urllib.fragment (urllib.urlparse permalink) = [])).
Qed.

(** ** Splitting a chapter into sections *)

Lemma for_each_ind {A S} (P : list A -> S -> Prop) (body : S -> A -> outcome S)
    (xs : list A) (st0 stN : S) :
  P [] st0 ->
  (forall done x st st', P done st -> body st x = Ok st' -> P (done ++ [x]) st') ->
  for_each body xs st0 = Ok stN -> P xs stN.
Proof.
  intros H0 Hstep.
  enough (Hgen : forall done st, P done st -> for_each body xs st = Ok stN ->
                                 P (done ++ xs) stN) by (apply (Hgen [] st0 H0)).
  induction xs as [|x xs IH]; intros done st HP Hrun; simpl in Hrun.
  - injection Hrun as <-. by rewrite app_nil_r.
  - bind_inv Hrun. rewrite cons_middle, app_assoc. eapply IH; eauto.
Qed.

Lemma utf8_width_pos (c : N) : (0 < utf8_width c)%Z.
Proof. unfold utf8_width. repeat case_match; lia. Qed.

Lemma utf8_len_nonneg (s : str) : (0 <= utf8_len s)%Z.
Proof.
  induction s as [|c s IH]; simpl; [lia|]. pose proof (utf8_width_pos c). lia.
Qed.

Lemma utf8_len_pos (s : str) : s <> [] -> (0 < utf8_len s)%Z.
Proof.
  destruct s as [|c s]; [done|]. intros _. simpl.
  pose proof (utf8_width_pos c). pose proof (utf8_len_nonneg s). lia.
Qed.

Lemma utf8_len_app (s t : str) : utf8_len (s ++ t) = (utf8_len s + utf8_len t)%Z.
Proof. induction s as [|c s IH]; simpl; lia. Qed.

(** Rendering a post leaves the registry as it is. *)
Lemma render_post_registry (post : Node) (image_map image_map' : ImageMap.t)
    (rendered : RenderedPost.t) :
  render_post post image_map = Ok (rendered, image_map') -> image_map' = image_map.
Proof.
  unfold render_post. intros Hr.
  bind_inv Hr. bind_inv Hr. destruct a0 as [children im].
  injection Hr as _ <-.
  destruct (find_icon post) as [icon|].
  - bind_inv Hm0. bind_inv Hm0. destruct a1 as [path im1].
    bind_inv Hm0. bind_inv Hm0. injection Hm0 as _ <-.
    by apply get_icon_ok_inv in Hm2 as [-> _].
  - bind_inv Hm0. by injection Hm0 as _ <-.
Qed.

Section splitter.
Context `{Formatter}.

Lemma encoded_size_tag_pos (name : str) (attrs : list (str * str)) (cs : list Node) :
  (0 < encoded_size (Tag name attrs cs))%Z.
Proof. apply utf8_len_pos, decode_tag_nonempty. Qed.

Lemma rendered_size_pos (post : Node) (image_map image_map' : ImageMap.t)
    (rendered : RenderedPost.t) :
  render_post post image_map = Ok (rendered, image_map') ->
  (0 < encoded_size (RenderedPost.html rendered))%Z.
Proof.
  intros Hr. apply render_post_ok_inv in Hr as (? & ? & ? & _ & _ & ->).
  apply encoded_size_tag_pos.
Qed.

Lemma posts_size_app (ps qs : list Node) :
  posts_size (ps ++ qs) = (posts_size ps + posts_size qs)%Z.
Proof. unfold posts_size. induction ps as [|p ps IH]; simpl; lia. Qed.

Lemma posts_size_snoc (ps : list Node) (p : Node) :
  posts_size (ps ++ [p]) = (posts_size ps + encoded_size p)%Z.
Proof. rewrite posts_size_app. unfold posts_size at 2. simpl. lia. Qed.

Lemma section_packed_init : section_packed Sec.init.
Proof. repeat split; simpl; auto. left. unfold SECTION_SIZE_LIMIT. lia. Qed.

Lemma section_empty_of_size (s : Sec.t) :
  section_packed s -> (Sec.size s <= 0)%Z -> Sec.posts s = [].
Proof.
  intros (Hsize & Hpos & _) Hle. destruct (Sec.posts s) as [|p ps]; [done|].
  rewrite Hsize in Hle. simpl in Hle. apply Forall_cons in Hpos as [Hp Hps].
  assert (0 <= posts_size ps)%Z; [|lia].
  clear -Hps. induction Hps; simpl; lia.
Qed.

Lemma render_posts_step_packed
    (yielded yielded' : list Sec.t) (out out' : Sec.t)
    (image_map image_map' : ImageMap.t) (authors authors' : list (option str))
    (post : Node) :
  Forall section_packed yielded -> section_packed out ->
  render_posts_step (yielded, out, image_map, authors) post
  = Ok (yielded', out', image_map', authors') ->
  Forall section_packed yielded' /\ section_packed out'.
Proof.
  intros Hy Ho Hstep. unfold render_posts_step in Hstep.
  bind_inv Hstep. destruct a as [rendered im].
  pose proof (rendered_size_pos _ _ _ _ Hm) as Hpos.
  set (post_size := encoded_size (RenderedPost.html rendered)) in *.
  destruct ((SECTION_SIZE_LIMIT <? Sec.size out + post_size)%Z
            && (0 <? Sec.size out)%Z) eqn:Hfull;
    injection Hstep as <- <- <- <-.
  - split; [apply Forall_app; split; auto|].
    repeat split; simpl; auto. lia.
  - split; [done|].
    destruct Ho as (Hsize & Hall & Hfit).
    repeat split; simpl.
    + rewrite posts_size_snoc, Hsize. reflexivity.
    + apply Forall_app; split; auto.
    + apply andb_false_iff in Hfull as [Hfits|Hempty].
      * left. fold post_size. lia.
      * right. rewrite (section_empty_of_size out); [done| |lia].
        repeat split; auto.
Qed.

(** C1. Every section the splitter yields either is at most 200000 bytes,
    counted as the sum of the encoded sizes of its posts, which the section's
    [size] is, or holds exactly one post. *)
Theorem render_posts_sections_bounded
    (posts : list Node) (image_map image_map' : ImageMap.t)
    (authors authors' : list (option str)) (sections : list Sec.t) :
  render_posts posts image_map authors = Ok (sections, image_map', authors') ->
  Forall (fun s =>
            Sec.size s = posts_size (Sec.posts s)
            /\ ((Sec.size s <= 200000)%Z \/ length (Sec.posts s) = 1%nat))
         sections.
Proof.
  unfold render_posts. intros Hr.
  bind_inv Hr. bind_inv Hr. destruct a0 as [[[yielded out] im] au].
  injection Hr as <- <- <-.
  assert (Hinv : Forall section_packed yielded /\ section_packed out).
  { revert Hm0.
    apply (for_each_ind
             (fun _ st => Forall section_packed st.1.1.1 /\ section_packed st.1.1.2)).
    - simpl. split; [constructor|apply section_packed_init].
    - intros _ post [[[y o] i] u] [[[y' o'] i'] u'] [Hy Ho] Hstep.
      eapply render_posts_step_packed; eauto. }
  destruct Hinv as [Hy Ho].
  apply Forall_app. split; [|apply Forall_singleton].
  - eapply Forall_impl; [exact Hy|]. intros s (? & _ & ?). auto.
  - destruct Ho as (? & _ & ?). auto.
Qed.

(** C2. The posts of the sections, taken in order, are the chapter's posts
    rendered one by one in their order, and so are their permalinks. *)
Theorem render_posts_sections_concat
    (posts : list Node) (image_map image_map' : ImageMap.t)
    (authors authors' : list (option str)) (sections : list Sec.t) :
  render_posts posts image_map authors = Ok (sections, image_map', authors') ->
  exists rendered,
    Forall2 (fun post r => render_post post image_map' = Ok (r, image_map'))
            posts rendered
    /\ concat (Sec.posts <$> sections) = RenderedPost.html <$> rendered
    /\ concat (Sec.link_targets <$> sections) = RenderedPost.permalink <$> rendered.
Proof.
  unfold render_posts. intros Hr.
  bind_inv Hr. rename a into populated.
  bind_inv Hr. destruct a as [[[yielded out] im] au].
  injection Hr as <- <- <-.
  enough (Hinv :
    im = populated
    /\ exists rendered,
        Forall2 (fun post r => render_post post populated = Ok (r, populated))
                posts rendered
        /\ concat (Sec.posts <$> (yielded ++ [out])) = RenderedPost.html <$> rendered
        /\ concat (Sec.link_targets <$> (yielded ++ [out]))
           = RenderedPost.permalink <$> rendered).
  { destruct Hinv as (-> & rendered & ? & ? & ?). eauto. }
  revert Hm0.
  apply (for_each_ind
           (fun done st =>
              st.1.2 = populated
              /\ exists rendered,
                  Forall2 (fun post r => render_post post populated = Ok (r, populated))
                          done rendered
                  /\ concat (Sec.posts <$> (st.1.1.1 ++ [st.1.1.2]))
                     = RenderedPost.html <$> rendered
                  /\ concat (Sec.link_targets <$> (st.1.1.1 ++ [st.1.1.2]))
                     = RenderedPost.permalink <$> rendered)
           render_posts_step posts ([], Sec.init, populated, authors)
           (yielded, out, im, au)).
  - simpl. split; [done|]. exists []. repeat split; constructor.
  - intros done post [[[y o] i] u] [[[y' o'] i'] u'].
    simpl. intros (-> & rendered & Hall & Hposts & Hlinks) Hstep.
    unfold render_posts_step in Hstep. bind_inv Hstep. destruct a as [r im1].
    pose proof (render_post_registry _ _ _ _ Hm0) as ->.
    split; [by destruct (_ && _); injection Hstep as <- <- <- <-|].
    exists (rendered ++ [r]). split; [apply Forall2_app; auto|].
    rewrite !fmap_app, !concat_app in *. simpl in *. rewrite !app_nil_r in *.
    destruct (_ && _); injection Hstep as <- <- <- <-; simpl;
      rewrite ?fmap_app, ?concat_app; simpl; rewrite ?app_nil_r, ?app_assoc;
      split; congruence.
Qed.

End splitter.

Example render_posts_short_chapter :
  render_posts short_chapter ImageMap.init []
  = Ok ([short_section], ImageMap.init, [Some (lit "bob")]).
Proof. vm_compute. reflexivity. Qed.

Lemma render_posts_sections_bounded_witness :
  Forall (fun s =>
            Sec.size s = posts_size (Sec.posts s)
            /\ ((Sec.size s <= 200000)%Z \/ length (Sec.posts s) = 1%nat))
         [short_section].
Proof.
  apply (render_posts_sections_bounded short_chapter ImageMap.init ImageMap.init
           [] [Some (lit "bob")] [short_section]).
  vm_compute. reflexivity.
Defined.

Lemma render_posts_sections_concat_witness :
  exists rendered,
    Forall2 (fun post r => render_post post ImageMap.init = Ok (r, ImageMap.init))
            short_chapter rendered
    /\ concat (Sec.posts <$> [short_section]) = RenderedPost.html <$> rendered
    /\ concat (Sec.link_targets <$> [short_section])
       = RenderedPost.permalink <$> rendered.
Proof.
  apply (render_posts_sections_concat short_chapter ImageMap.init ImageMap.init
           [] [Some (lit "bob")] [short_section]).
  vm_compute. reflexivity.
Defined.

(** A chapter of five posts, the second larger than the limit: the first
    post is yielded when the large one arrives, the large one stands alone,
    and the last three fill two sections. *)
Example render_posts_long_chapter :
  shapes (render_posts long_chapter ImageMap.init [])
  = [(1%nat, 76%Z); (1%nat, 200068%Z); (2%nat, 150144%Z); (1%nat, 100068%Z)].
Proof. vm_compute. reflexivity. Qed.

(** ** The file-name sanitizer *)

(** *** The filter *)

Lemma char_allowed_spec (c : N) :
  char_allowed c = true
  <-> forall lo hi, (lo, hi) ∈ FILENAME_BANNED_CHAR_RANGES -> ~ (lo <= c <= hi).
Proof.
  unfold char_allowed. rewrite forallb_forall. split.
  - intros Hall lo hi Hin%list_elem_of_In. specialize (Hall _ Hin). simpl in Hall.
    rewrite negb_true_iff, andb_false_iff, !N.leb_gt in Hall. lia.
  - intros Hall [lo hi] Hin%list_elem_of_In. specialize (Hall _ _ Hin).
    rewrite negb_true_iff, andb_false_iff, !N.leb_gt. lia.
Qed.

(** The characters [filter_filename] keeps are those that are not banned. *)
Lemma filter_filename_keeps (c : N) :
  (if str_in c FILENAME_BANNED_CHARS then false else char_allowed c) = true
  <-> ~ banned c.
Proof.
  unfold banned. destruct (str_in c FILENAME_BANNED_CHARS) eqn:Hin.
  - apply str_in_spec in Hin. split; [done|tauto].
  - assert (c ∉ FILENAME_BANNED_CHARS) by (rewrite <- str_in_spec; congruence).
    rewrite char_allowed_spec. split.
    + intros Hall [?|(lo & hi & ? & ?)]; [done|]. by apply (Hall lo hi).
    + intros Hnot lo hi ? ?. apply Hnot. right. eauto.
Qed.

Lemma forallb_false {A} (f : A -> bool) (l : list A) :
  forallb f l = false -> exists x, x ∈ l /\ f x = false.
Proof.
  induction l as [|x l IH]; simpl; [done|].
  intros [Hx|Hl]%andb_false_iff.
  - exists x. split; [left|done].
  - destruct (IH Hl) as (y & ? & ?). exists y. split; [by right|done].
Qed.

Lemma banned_spec (c : N) :
  banned c
  <-> (if str_in c FILENAME_BANNED_CHARS then false else char_allowed c) = false.
Proof.
  split.
  - intros Hb. apply not_true_iff_false. by intros Hk%filter_filename_keeps.
  - unfold banned. destruct (str_in c FILENAME_BANNED_CHARS) eqn:Hin.
    + intros _. left. by apply str_in_spec.
    + intros ([lo hi] & Hrange & Hc)%forallb_false. right. exists lo, hi.
      split; [done|].
      rewrite negb_false_iff, andb_true_iff, !N.leb_le in Hc. lia.
Qed.

Lemma filter_loop_filter (filename acc : str) :
  foldl (fun filtered_filename char =>
           if str_in char FILENAME_BANNED_CHARS then filtered_filename
           else if char_allowed char then filtered_filename ++ [char]
           else filtered_filename)
        acc filename
  = acc ++ List.filter (fun c => if str_in c FILENAME_BANNED_CHARS then false
                                 else char_allowed c) filename.
Proof.
  revert acc. induction filename as [|c s IH]; intros acc; cbn [foldl List.filter].
  - by rewrite app_nil_r.
  - rewrite IH. destruct (str_in c FILENAME_BANNED_CHARS); [done|].
    destruct (char_allowed c); [|done]. by rewrite <- app_assoc.
Qed.

Lemma filter_filename_filter (filename : str) :
  filter_filename filename
  = List.filter (fun c => if str_in c FILENAME_BANNED_CHARS then false
                          else char_allowed c) filename.
Proof. apply (filter_loop_filter filename []). Qed.

Lemma filter_filename_spec (filename : str) (c : N) :
  c ∈ filter_filename filename <-> c ∈ filename /\ ~ banned c.
Proof.
  rewrite filter_filename_filter, list_elem_of_In, filter_In, <- list_elem_of_In.
  by rewrite filter_filename_keeps.
Qed.

Lemma filter_filename_app (s t : str) :
  filter_filename (s ++ t) = filter_filename s ++ filter_filename t.
Proof. rewrite !filter_filename_filter. apply List.filter_app. Qed.

(** *** The truncation loop *)

Lemma truncate_loop_unfold (fuel : nat) (name ext : str) :
  truncate_loop fuel name ext
  = if (255 <? utf8_len (name ++ lit "." ++ ext))%Z then
      match fuel with
      | O => OutOfFuel
      | S fuel' => truncate_loop fuel' (drop_last name) ext
      end
    else Ok (name ++ lit "." ++ ext).
Proof. by destruct fuel. Qed.

Lemma truncate_loop_ok (fuel : nat) (name ext r : str) :
  truncate_loop fuel name ext = Ok r ->
  exists k, (k <= length name)%nat
    /\ r = take k name ++ lit "." ++ ext
    /\ (utf8_len r <= 255)%Z
    /\ (k = length name \/ (255 < utf8_len (take (S k) name ++ lit "." ++ ext))%Z).
Proof.
  revert name. induction fuel as [|fuel IH]; intros name;
    rewrite truncate_loop_unfold;
    destruct (Z.ltb_spec 255 (utf8_len (name ++ lit "." ++ ext))) as [Hfit|Hfit].
  - done.
  - intros [= <-]. exists (length name). rewrite firstn_all.
    repeat split; auto.
  - intros (k & Hk & -> & Hlen & Hmax)%IH.
    assert (Htake : forall j, (j <= length name - 1)%nat ->
                              take j (drop_last name) = take j name).
    { intros j Hj. rewrite drop_last_take, take_take. f_equal. lia. }
    assert (Hlast : length (drop_last name) = (length name - 1)%nat).
    { rewrite drop_last_take, length_take. lia. }
    rewrite Hlast in Hk, Hmax. rewrite Htake in * by done.
    exists k. repeat split; auto; [lia|].
    destruct Hmax as [->|Hmax].
    + destruct name as [|c name]; [by left|right].
      rewrite take_ge by (simpl; lia). done.
    + destruct (decide (S k <= length name - 1)%nat) as [Hlt|Hge].
      * right. by rewrite Htake in Hmax.
      * assert (k = length name - 1)%nat as -> by lia.
        destruct name as [|c name]; [by left|right].
        rewrite take_ge by (simpl; lia). done.
  - intros [= <-]. exists (length name). rewrite firstn_all.
    repeat split; auto.
Qed.

(** The loop ends within as many rounds as the name has characters, when a
    dot and the extension fit in 255 bytes. *)
Lemma truncate_loop_terminates (fuel : nat) (name ext : str) :
  (length name <= fuel)%nat -> (utf8_len (lit "." ++ ext) <= 255)%Z ->
  truncate_loop fuel name ext <> OutOfFuel.
Proof.
  intros Hfuel Hext. revert name Hfuel.
  induction fuel as [|fuel IH]; intros name Hfuel;
    rewrite truncate_loop_unfold;
    destruct (Z.ltb_spec 255 (utf8_len (name ++ lit "." ++ ext))) as [Hfit|Hfit];
    try done.
  - destruct name; [|simpl in Hfuel; lia]. rewrite app_nil_l in Hfit. lia.
  - apply IH. rewrite drop_last_take, length_take. lia.
Qed.

(** With an empty name and an extension of 255 bytes or more, every round of
    the loop leaves the name empty and the full name too long. *)
Lemma truncate_loop_diverges (fuel : nat) (ext : str) :
  (255 < utf8_len (lit "." ++ ext))%Z -> truncate_loop fuel [] ext = OutOfFuel.
Proof.
  intros Hext. induction fuel as [|fuel IH]; rewrite truncate_loop_unfold;
    rewrite app_nil_l;
    destruct (Z.ltb_spec 255 (utf8_len (lit "." ++ ext))) as [Hfit|Hfit];
    try done; lia.
Qed.

(** *** The sanitizer *)

(** The three ways out of [make_filename_valid_for_epub3] before its loop,
    and the loop it runs otherwise. *)
Lemma make_filename_cases (fuel : nat) (filename : str) :
  let filtered := rstrip_by (N.eqb (ord ".")) (filter_filename filename) in
  let parts := str_split (ord ".") filtered in
  (filtered = []
   /\ make_filename_valid_for_epub3 fuel filename = Raise InvalidNameError)
  \/ (filtered <> [] /\ (utf8_len filtered <= 255)%Z
      /\ make_filename_valid_for_epub3 fuel filename = Ok filtered)
  \/ (filtered <> [] /\ (255 < utf8_len filtered)%Z
      /\ (255 < utf8_len (last_seg parts))%Z
      /\ make_filename_valid_for_epub3 fuel filename = Raise ExtensionTooLongError)
  \/ (filtered <> [] /\ (255 < utf8_len filtered)%Z
      /\ (utf8_len (last_seg parts) <= 255)%Z
      /\ make_filename_valid_for_epub3 fuel filename
         = truncate_loop fuel (drop_last (str_join (lit ".") (drop_last parts)))
                         (last_seg parts)).
Proof.
  intros filtered parts. unfold make_filename_valid_for_epub3.
  fold filtered. fold parts.
  destruct filtered as [|c filtered'] eqn:Hf; [by left|right].
  rewrite bool_decide_eq_false_2 by done. rewrite <- Hf in *.
  assert (filtered <> []) by (rewrite Hf; done).
  destruct (utf8_len filtered <=? 255)%Z eqn:Hlen; [left; split_and!; auto; lia|right].
  destruct (255 <? utf8_len (last_seg parts))%Z eqn:Hext;
    [left|right]; split_and!; auto; lia.
Qed.

Lemma filtered_not_banned (filename : str) :
  Forall (fun c => ~ banned c) (rstrip_by (N.eqb (ord ".")) (filter_filename filename)).
Proof.
  destruct (rstrip_by_spec (N.eqb (ord ".")) (filter_filename filename))
    as (t & Heq & _).
  assert (Hall : Forall (fun c => ~ banned c) (filter_filename filename)).
  { apply Forall_forall. intros c Hc. by apply filter_filename_spec in Hc as [_ ?]. }
  rewrite Heq in Hall. by apply Forall_app in Hall as [? _].
Qed.

Lemma filtered_no_final_dot (filename : str) :
  last (rstrip_by (N.eqb (ord ".")) (filter_filename filename)) <> Some (ord ".").
Proof. intros Hlast%rstrip_by_last. by rewrite N.eqb_refl in Hlast. Qed.

(** What the loop returns, for a filtered name too long to be returned as it
    is: some first characters of the filtered name, a dot, and the extension,
    which is not empty. *)
Lemma truncated_name_shape (fuel : nat) (filename name : str) :
  let filtered := rstrip_by (N.eqb (ord ".")) (filter_filename filename) in
  let parts := str_split (ord ".") filtered in
  (255 < utf8_len filtered)%Z -> (utf8_len (last_seg parts) <= 255)%Z ->
  truncate_loop fuel (drop_last (str_join (lit ".") (drop_last parts)))
                (last_seg parts) = Ok name ->
  exists k stem ext,
    filtered = stem ++ lit "." ++ ext
    /\ ext <> [] /\ (ord "." ∉ ext)
    /\ (k <= length stem - 1)%nat
    /\ name = take k stem ++ lit "." ++ ext
    /\ (utf8_len name <= 255)%Z
    /\ (k = (length stem - 1)%nat
        \/ (255 < utf8_len (take (S k) stem ++ lit "." ++ ext))%Z).
Proof.
  intros filtered parts Hlong Hext Hloop. subst parts.
  destruct (split_extension filtered) as [Hnodot [[_ Hall]|Hsplit]].
  { rewrite <- Hall in Hext. lia. }
  set (stem := str_join (lit ".") (drop_last (str_split (ord ".") filtered))) in *.
  set (ext := last_seg (str_split (ord ".") filtered)) in *.
  apply truncate_loop_ok in Hloop as (k & Hk & -> & Hlen & Hmax).
  rewrite drop_last_take in *. rewrite length_take in Hk, Hmax.
  exists k, stem, ext.
  assert (Hk' : (k <= length stem - 1)%nat) by lia.
  assert (Htake : forall j, (j <= length stem - 1)%nat ->
                            take j (take (length stem - 1) stem) = take j stem).
  { intros j Hj. rewrite take_take. f_equal. lia. }
  rewrite Htake in * by done.
  split_and!; auto.
  - intros Hempty. apply (filtered_no_final_dot filename). fold filtered.
    rewrite Hsplit, Hempty, app_nil_r, last_app. reflexivity.
  - destruct Hmax as [Hmax|Hmax]; [left; lia|].
    destruct (decide (S k <= length stem - 1)%nat) as [Hlt|Hge].
    + right. by rewrite Htake in Hmax.
    + left. lia.
Qed.

(** C5. A name the sanitizer returns has no banned character, does not end
    in a dot and is at most 255 bytes long in UTF-8; and on a string made of
    banned characters and dots only, the sanitizer raises the exception for a
    name of invalid characters only. *)
Theorem make_filename_valid (fuel : nat) (filename : str) :
  (forall name,
      make_filename_valid_for_epub3 fuel filename = Ok name ->
      Forall (fun c => ~ banned c) name
      /\ last name <> Some (ord ".")
      /\ (utf8_len name <= 255)%Z)
  /\ (Forall (fun c => banned c \/ c = ord ".") filename ->
      make_filename_valid_for_epub3 fuel filename = Raise InvalidNameError).
Proof.
  pose proof (filtered_not_banned filename) as Hclean.
  pose proof (filtered_no_final_dot filename) as Hdot.
  destruct (make_filename_cases fuel filename)
    as [(Hf & Hr)|[(Hne & Hlen & Hr)|[(Hne & _ & _ & Hr)|(Hne & Hlong & Hext & Hr)]]];
    rewrite Hr; clear Hr.
  - split; [done|auto].
  - split; [by intros name [= <-]|].
    intros Hall. exfalso. apply Hne. apply rstrip_by_all, Forall_forall.
    intros c [Hc Hok]%filter_filename_spec. apply N.eqb_eq.
    rewrite Forall_forall in Hall. destruct (Hall c Hc); [done|congruence].
  - split; [done|].
    intros Hall. exfalso. apply Hne. apply rstrip_by_all, Forall_forall.
    intros c [Hc Hok]%filter_filename_spec. apply N.eqb_eq.
    rewrite Forall_forall in Hall. destruct (Hall c Hc); [done|congruence].
  - split.
    + intros name Hloop.
      destruct (truncated_name_shape fuel filename name Hlong Hext Hloop)
        as (k & stem & ext & Hsplit & Hext_ne & Hnodot & _ & -> & Hfit & _).
      rewrite Hsplit in Hclean. rewrite !Forall_app in Hclean.
      destruct Hclean as (Hstem & Hsep & Hclean_ext).
      split_and!; [| |done].
      * rewrite !Forall_app. split_and!; auto. by apply Forall_take.
      * rewrite app_assoc, last_app.
        destruct (last ext) as [c|] eqn:Hlast; [|by apply last_None in Hlast].
        intros [= ->]. apply Hnodot. by apply last_Some_elem_of.
    + intros Hall. exfalso. apply Hne. apply rstrip_by_all, Forall_forall.
      intros c [Hc Hok]%filter_filename_spec. apply N.eqb_eq.
      rewrite Forall_forall in Hall. destruct (Hall c Hc); [done|congruence].
Qed.

Lemma make_filename_valid_witness :
  make_filename_valid_for_epub3 0 (lit "..<*>..") = Raise InvalidNameError
  /\ Forall (fun c => ~ banned c) (lit "ab.txt")
  /\ last (lit "ab.txt") <> Some (ord ".")
  /\ (utf8_len (lit "ab.txt") <= 255)%Z.
Proof.
  split.
  - apply (make_filename_valid 0 (lit "..<*>..")).
    vm_compute (lit _).
    repeat (apply Forall_cons; split;
            [first [right; reflexivity
                   |left; apply banned_spec; vm_compute; reflexivity]|]).
    apply Forall_nil_2.
  - apply (make_filename_valid 0 (lit "a/b.txt...")).
    vm_compute. reflexivity.
Defined.

(** C6 (the code departs from it). On a name whose extension is exactly 255
    bytes long the sanitizer never returns: whatever the fuel, its truncation
    loop is still running when the fuel is spent. *)
Theorem make_filename_diverges (fuel : nat) :
  make_filename_valid_for_epub3 fuel long_extension_name = OutOfFuel.
Proof.
  destruct (make_filename_cases fuel long_extension_name)
    as [(Hf & _)|[(_ & Hlen & _)|[(_ & _ & Hext & _)|(_ & _ & _ & Hr)]]].
  - vm_compute in Hf. discriminate.
  - vm_compute in Hlen. by destruct Hlen.
  - vm_compute in Hext. discriminate.
  - rewrite Hr.
    replace (drop_last _) with (@nil N) by (vm_compute; reflexivity).
    apply truncate_loop_diverges. vm_compute. reflexivity.
Qed.

(** The loop runs out of fuel on no other name: a name whose extension is
    not 255 bytes long is sanitized, or rejected, within as many rounds as it
    has characters. *)
Lemma make_filename_terminates (fuel : nat) (filename : str) :
  let filtered := rstrip_by (N.eqb (ord ".")) (filter_filename filename) in
  utf8_len (last_seg (str_split (ord ".") filtered)) <> 255%Z ->
  (length filename <= fuel)%nat ->
  make_filename_valid_for_epub3 fuel filename <> OutOfFuel.
Proof.
  intros filtered Hext Hfuel.
  assert (Hshort : (length filtered <= length filename)%nat).
  { destruct (rstrip_by_spec (N.eqb (ord ".")) (filter_filename filename))
      as (t & Heq & _). fold filtered in Heq.
    apply (f_equal length) in Heq. rewrite length_app in Heq.
    pose proof (List.filter_length_le
                  (fun c => if str_in c FILENAME_BANNED_CHARS then false
                            else char_allowed c) filename) as Hle.
    rewrite <- filter_filename_filter in Hle. lia. }
  destruct (make_filename_cases fuel filename)
    as [(_ & Hr)|[(_ & _ & Hr)|[(_ & _ & _ & Hr)|(_ & _ & Hext' & Hr)]]];
    fold filtered in Hr |- *; rewrite Hr; try done.
  fold filtered in Hext'.
  apply truncate_loop_terminates.
  - rewrite drop_last_take, length_take.
    destruct (split_extension filtered) as [_ [[-> _]|Hsplit]]; [simpl; lia|].
    apply (f_equal length) in Hsplit. rewrite !length_app in Hsplit. lia.
  - rewrite utf8_len_app. change (utf8_len (lit ".")) with 1%Z. lia.
Qed.

(** More fuel does not change what the loop, and so the sanitizer,
    returns. *)
Lemma truncate_loop_more_fuel (fuel fuel' : nat) (name ext r : str) :
  truncate_loop fuel name ext = Ok r -> (fuel <= fuel')%nat ->
  truncate_loop fuel' name ext = Ok r.
Proof.
  revert fuel' name. induction fuel as [|fuel IH]; intros fuel' name;
    rewrite !(truncate_loop_unfold _ name);
    destruct (255 <? utf8_len (name ++ lit "." ++ ext))%Z; try done.
  intros Hloop Hle. destruct fuel' as [|fuel']; [lia|].
  apply IH; [done|lia].
Qed.

Lemma make_filename_more_fuel (fuel fuel' : nat) (filename name : str) :
  make_filename_valid_for_epub3 fuel filename = Ok name -> (fuel <= fuel')%nat ->
  make_filename_valid_for_epub3 fuel' filename = Ok name.
Proof.
  unfold make_filename_valid_for_epub3.
  repeat case_match; try done. apply truncate_loop_more_fuel.
Qed.

(** ** Rewriting the links *)

(** *** Documents *)

(** Induction on a document, with the property known of all the children of
    a tag. *)
Lemma Node_children_ind (P : Node -> Prop) :
  (forall s, P (NavigableString s)) ->
  (forall name attrs cs, Forall P cs -> P (Tag name attrs cs)) ->
  forall n, P n.
Proof.
  intros Hstring Htag. fix IH 1. intros [s|name attrs cs].
  - apply Hstring.
  - apply Htag. induction cs as [|c cs IHcs]; constructor; [apply IH|exact IHcs].
Qed.

Lemma map_fmap {A B} (f : A -> B) (l : list A) : List.map f l = f <$> l.
Proof. reflexivity. Qed.

Lemma rewrite_links_is_tag (anchor_sections : gmap str str) (name : str) (n : Node) :
  is_tag name (rewrite_links anchor_sections n) = is_tag name n.
Proof. by destruct n. Qed.

Lemma rewrite_links_attrs (anchor_sections : gmap str str) (n : Node) :
  attrs_of (rewrite_links anchor_sections n)
  = if is_tag (lit "a") n then rewrite_href anchor_sections (attrs_of n)
    else attrs_of n.
Proof. by destruct n. Qed.

Lemma rewrite_links_descendants (anchor_sections : gmap str str) (n : Node) :
  descendants (rewrite_links anchor_sections n)
  = rewrite_links anchor_sections <$> descendants n.
Proof.
  induction n as [s|name attrs cs IH] using Node_children_ind; [done|].
  cbn [rewrite_links descendants].
  induction IH as [|c cs Hc _ IHcs]; [done|].
  cbn [List.map flat_map]. rewrite fmap_app, fmap_cons, Hc, IHcs. done.
Qed.

(** The [a] tags of a rewritten document are those of the document, each
    with its attributes rewritten. *)
Lemma rewrite_links_link_attrs (anchor_sections : gmap str str) (n : Node) :
  link_attrs (rewrite_links anchor_sections n)
  = rewrite_href anchor_sections <$> link_attrs n.
Proof.
  unfold link_attrs, find_all. rewrite rewrite_links_descendants.
  induction (descendants n) as [|d ds IH]; [done|].
  rewrite fmap_cons. cbn [List.filter].
  rewrite rewrite_links_is_tag. unfold any_attrs at 1 3. rewrite !andb_true_r.
  destruct (is_tag (lit "a") d) eqn:Ha; [|exact IH].
  rewrite !fmap_cons, IH, rewrite_links_attrs, Ha. done.
Qed.

Lemma rewrite_section_html (anchor_sections : gmap str str) (section : Sec.t) :
  Sec.html (rewrite_section anchor_sections section)
  = rewrite_links anchor_sections (Sec.html section).
Proof. reflexivity. Qed.

(** *** The loops of [compile_chapters] *)

Lemma enumerate_from_length {A} (i : N) (xs : list A) :
  length (enumerate_from i xs) = length xs.
Proof. revert i. induction xs as [|x xs IH]; intros i; simpl; [done|]. by rewrite IH. Qed.

Lemma enumerate_from_lookup {A} (i : N) (xs : list A) (k : nat) :
  enumerate_from i xs !! k = (fun x => (i + N.of_nat k, x)) <$> xs !! k.
Proof.
  revert i k. induction xs as [|x xs IH]; intros i [|k]; simpl; try done.
  - by rewrite N.add_0_r.
  - rewrite IH. destruct (xs !! k); simpl; [|done]. do 2 f_equal. lia.
Qed.

Lemma map_each_ok {A B} (f : A -> outcome B) (xs : list A) (ys : list B) :
  map_each f xs = Ok ys -> Forall2 (fun x y => f x = Ok y) xs ys.
Proof.
  revert ys. induction xs as [|x xs IH]; intros ys; simpl.
  - intros [= <-]. constructor.
  - intros Hm. bind_inv Hm. bind_inv Hm. injection Hm as <-.
    constructor; auto.
Qed.

(** The results of a loop over [enumerate(xs)], one per element, each
    computed from the element and its index. *)
Lemma map_each_enumerate {A B} (f : N * A -> outcome B) (xs : list A) (ys : list B) :
  map_each f (enumerate xs) = Ok ys ->
  length ys = length xs
  /\ forall k x y, xs !! k = Some x -> ys !! k = Some y -> f (N.of_nat k, x) = Ok y.
Proof.
  unfold enumerate. intros Hall%map_each_ok. split.
  - apply Forall2_length in Hall. by rewrite enumerate_from_length in Hall.
  - intros k x y Hx Hy.
    eapply (Forall2_lookup_lr _ _ _ k (N.of_nat k, x) y) in Hall; [done| |done].
    rewrite enumerate_from_lookup, Hx. done.
Qed.

Lemma compile_chapters_ok_inv (fuel : nat) (chapters : list (str * list Sec.t))
    (compiled : list (list EpubHtml.t)) :
  compile_chapters fuel chapters = Ok compiled ->
  exists anchor_sections,
    map_permalinks fuel chapters = Ok anchor_sections
    /\ compile_sections fuel (replace_links anchor_sections chapters) = Ok compiled.
Proof. unfold compile_chapters. intros Hc. bind_inv Hc. eauto. Qed.

(** What the third loop makes of section [j] of chapter [i]. *)
Lemma compile_sections_lookup (fuel : nat) (chapters : list (str * list Sec.t))
    (compiled : list (list EpubHtml.t)) :
  compile_sections fuel chapters = Ok compiled ->
  length compiled = length chapters
  /\ forall i title sections epubs,
      chapters !! i = Some (title, sections) -> compiled !! i = Some epubs ->
      length epubs = length sections
      /\ forall j section epub,
          sections !! j = Some section -> epubs !! j = Some epub ->
          exists file_name,
            section_file_name fuel (digits_of_len chapters) (N.of_nat i)
              (digits_of_len sections) (N.of_nat j) title = Ok file_name
            /\ epub = EpubHtml.mk title file_name (Sec.html section).
Proof.
  unfold compile_sections.
  intros [Hlen Hrows]%map_each_enumerate. split; [done|].
  intros i title sections epubs Hch Hep.
  specialize (Hrows i _ _ Hch Hep). cbn beta iota in Hrows.
  apply map_each_enumerate in Hrows as [Hlen' Hcells]. split; [done|].
  intros j section epub Hs He.
  specialize (Hcells j _ _ Hs He). cbn beta iota in Hcells.
  bind_inv Hcells. injection Hcells as <-. eauto.
Qed.

Lemma attr_get_set (k v : str) (attrs : list (str * str)) :
  attr_get k (attr_set k v attrs) = Some v.
Proof.
  induction attrs as [|[k' v'] attrs IH]; simpl.
  - by rewrite bool_decide_eq_true_2.
  - case_bool_decide as Hk; simpl.
    + by rewrite bool_decide_eq_true_2.
    + by rewrite bool_decide_eq_false_2.
Qed.

(** What the second loop does to one link. *)
Lemma rewrite_href_cases (anchor_sections : gmap str str)
    (attrs : list (str * str)) (raw_url : str) :
  attr_get (lit "href") attrs = Some raw_url ->
  let url := urllib.urlparse raw_url in
  (forall file_name,
      REPLY_RE_match raw_url = true -> anchor_sections !! raw_url = Some file_name ->
      attr_get (lit "href") (rewrite_href anchor_sections attrs)
      = Some (file_name ++ params_part url ++ query_part url ++ fragment_part url))
  /\ (~ (REPLY_RE_match raw_url = true /\ is_Some (anchor_sections !! raw_url)) ->
      urllib.netloc url = [] ->
      attr_get (lit "href") (rewrite_href anchor_sections attrs)
      = Some (lit "https://glowfic.com"
              ++ rooted (urllib.path url ++ params_part url)
              ++ query_part url ++ fragment_part url))
  /\ (urllib.netloc url <> [] -> rewrite_href anchor_sections attrs = attrs).
Proof.
  intros Hhref url. unfold rewrite_href. rewrite Hhref. fold url.
  split_and!.
  - intros file_name Hmatch Hfile. rewrite Hmatch, Hfile, attr_get_set.
    destruct (REPLY_RE_match_rooted raw_url Hmatch) as [Hscheme Hnetloc].
    by rewrite geturl_relative.
  - intros Hnot Hnetloc.
    destruct (REPLY_RE_match raw_url) eqn:Hmatch;
      [destruct (anchor_sections !! raw_url) as [file_name|] eqn:Hfile;
       [exfalso; apply Hnot; eauto|]|];
      rewrite bool_decide_eq_true_2, attr_get_set, geturl_origin by done; done.
  - intros Hnetloc.
    destruct (REPLY_RE_match raw_url) eqn:Hmatch.
    + destruct (REPLY_RE_match_rooted raw_url Hmatch) as [_ Hnone]. done.
    + by rewrite bool_decide_eq_false_2.
Qed.

(** C3. Once the chapters are compiled, every link of every section has
    been rewritten by the second loop, with the index of permalinks built from
    all the chapters: a link that matches the reply pattern and is in the
    index points to the file the index gives, followed by the link's own
    parameters, query and fragment; any other link without a host points to
    the same path on https://glowfic.com; a link with a host is left as it
    was. *)
Theorem compile_chapters_rewrites_links
    (fuel : nat) (chapters : list (str * list Sec.t))
    (compiled : list (list EpubHtml.t)) :
  compile_chapters fuel chapters = Ok compiled ->
  exists anchor_sections,
    map_permalinks fuel chapters = Ok anchor_sections
    /\ Forall2
         (fun chapter epubs =>
            Forall2 (fun section epub =>
                       link_attrs (EpubHtml.content epub)
                       = rewrite_href anchor_sections <$> link_attrs (Sec.html section))
                    chapter.2 epubs)
         chapters compiled
    /\ forall attrs raw_url,
        attr_get (lit "href") attrs = Some raw_url ->
        let url := urllib.urlparse raw_url in
        (forall file_name,
            REPLY_RE_match raw_url = true ->
            anchor_sections !! raw_url = Some file_name ->
            attr_get (lit "href") (rewrite_href anchor_sections attrs)
            = Some (file_name ++ params_part url ++ query_part url
                    ++ fragment_part url))
        /\ (~ (REPLY_RE_match raw_url = true
               /\ is_Some (anchor_sections !! raw_url)) ->
            urllib.netloc url = [] ->
            attr_get (lit "href") (rewrite_href anchor_sections attrs)
            = Some (lit "https://glowfic.com"
                    ++ rooted (urllib.path url ++ params_part url)
                    ++ query_part url ++ fragment_part url))
        /\ (urllib.netloc url <> [] -> rewrite_href anchor_sections attrs = attrs).
Proof.
  intros (anchor_sections & Hindex & Hsections)%compile_chapters_ok_inv.
  exists anchor_sections. split_and!; [done| |apply rewrite_href_cases].
  apply compile_sections_lookup in Hsections as [Hlen Hrows].
  unfold replace_links in Hlen, Hrows. rewrite map_fmap in Hlen, Hrows.
  rewrite length_fmap in Hlen.
  apply Forall2_same_length_lookup. split; [done|].
  intros i [title sections] epubs Hch Hep. simpl.
  assert (Hch' : ((fun '(title, sections) =>
                     (title, List.map (rewrite_section anchor_sections) sections))
                    <$> chapters) !! i
                 = Some (title, rewrite_section anchor_sections <$> sections)).
  { by rewrite list_lookup_fmap, Hch. }
  destruct (Hrows i _ _ _ Hch' Hep) as [Hlen' Hcells].
  rewrite length_fmap in Hlen'.
  apply Forall2_same_length_lookup. split; [done|].
  intros j section epub Hs He.
  assert (Hs' : (rewrite_section anchor_sections <$> sections) !! j
                = Some (rewrite_section anchor_sections section)).
  { by rewrite list_lookup_fmap, Hs. }
  destruct (Hcells j _ _ Hs' He) as (file_name & _ & ->). simpl.
  by rewrite rewrite_section_html, rewrite_links_link_attrs.
Qed.

Lemma compile_chapters_rewrites_links_witness :
  exists anchor_sections,
    map_permalinks 0 linked_chapters = Ok anchor_sections
    /\ Forall2
         (fun chapter epubs =>
            Forall2 (fun section epub =>
                       link_attrs (EpubHtml.content epub)
                       = rewrite_href anchor_sections <$> link_attrs (Sec.html section))
                    chapter.2 epubs)
         linked_chapters linked_compiled.
Proof.
  destruct (compile_chapters_rewrites_links 0 linked_chapters linked_compiled
              ltac:(vm_compute; reflexivity))
    as (anchor_sections & Hindex & Hlinks & _).
  exists anchor_sections. split; assumption.
Defined.

(** The links of the two sample chapters, once compiled. *)
Example linked_chapters_hrefs :
  (fun epub => omap (attr_get (lit "href")) (link_attrs (EpubHtml.content epub)))
    <$> concat linked_compiled
  = [ [ lit "Text/2-0 (Two).xhtml#reply-12";
        lit "https://glowfic.com/users/5";
        lit "https://example.com/z" ];
      [ lit "Text/1-0 (One).xhtml";
        lit "https://glowfic.com/posts/7?page=2" ] ].
Proof. vm_compute. reflexivity. Qed.

(** ** Naming the files *)

(** *** Numbers in decimal *)

Lemma digit_value_snoc (d : str) (c : N) :
  digit_value (d ++ [c]) = 10 * digit_value d + (c - 48).
Proof. unfold digit_value. by rewrite foldl_snoc. Qed.

Lemma digit_value_zeros (k : nat) (d : str) :
  digit_value (replicate k 48 ++ d) = digit_value d.
Proof.
  unfold digit_value. rewrite foldl_app. f_equal.
  induction k as [|k IH]; [done|]. simpl. exact IH.
Qed.

Lemma is_digit_mod (n : N) : is_digit (48 + n mod 10) = true.
Proof.
  pose proof (N.mod_upper_bound n 10 ltac:(done)) as Hmod.
  unfold is_digit. apply andb_true_iff. rewrite !N.leb_le.
  generalize dependent (n mod 10). intros m Hm. split; lia.
Qed.

(** The digits of a number below [2 ^ (fuel + 1)]: they are decimal digits,
    they denote the number, and there are at most [k] of them when the
    number is below [10 ^ k]. *)
Lemma digits_spec (fuel : nat) (n : N) (acc : str) :
  n < 2 ^ N.of_nat (S fuel) ->
  exists d,
    digits (S fuel) n acc = d ++ acc
    /\ Forall (fun c => is_digit c = true) d
    /\ digit_value d = n
    /\ forall k, (1 <= k)%nat -> n < 10 ^ N.of_nat k -> (length d <= k)%nat.
Proof.
  revert n acc. induction fuel as [|fuel IH]; intros n acc Hn.
  - change (n < 2) in Hn.
    assert (n / 10 = 0) as Hq by (apply N.div_small; lia).
    exists [48 + n mod 10]. cbn [digits]. rewrite Hq. cbn [N.eqb].
    split_and!; [done| |rewrite N.mod_small by lia|simpl; lia].
    + apply Forall_singleton, (is_digit_mod n).
    + unfold digit_value. simpl. lia.
  - cbn [digits]. pose proof (N.mod_upper_bound n 10 ltac:(done)) as Hmod.
    pose proof (N.div_mod n 10 ltac:(done)) as Hdiv.
    destruct (N.eqb_spec (n / 10) 0) as [Hq|Hq].
    + exists [48 + n mod 10]. split_and!; [done| | |simpl; lia].
      * apply Forall_singleton, is_digit_mod.
      * unfold digit_value. simpl. clear -Hdiv Hq. rewrite Hq in Hdiv.
        generalize dependent (n mod 10). intros r Hdiv. lia.
    + assert (Hsmaller : n / 10 < 2 ^ N.of_nat (S fuel)).
      { rewrite (Nat2N.inj_succ (S fuel)), N.pow_succ_r' in Hn.
        apply N.Div0.div_lt_upper_bound. clear -Hn. lia. }
      destruct (IH (n / 10) ((48 + n mod 10) :: acc) Hsmaller)
        as (d & Hd & Hdigits & Hvalue & Hlen).
      exists (d ++ [48 + n mod 10]). split_and!.
      * cbn [digits] in Hd. rewrite Hd. by rewrite <- app_assoc.
      * apply Forall_app. split; [done|]. apply Forall_singleton, is_digit_mod.
      * rewrite digit_value_snoc, Hvalue. clear -Hdiv.
        generalize dependent (n mod 10). generalize dependent (n / 10).
        intros q r Hdiv. lia.
      * intros k Hk Hbound. rewrite length_app. simpl.
        destruct k as [|[|k]]; [lia| |].
        { exfalso. apply Hq, N.div_small. exact Hbound. }
        assert (length d <= S k)%nat; [|lia]. apply Hlen; [lia|].
        rewrite (Nat2N.inj_succ (S k)), N.pow_succ_r' in Hbound.
        apply N.Div0.div_lt_upper_bound. exact Hbound.
Qed.

Lemma str_of_int_spec (n : N) :
  Forall (fun c => is_digit c = true) (str_of_int n)
  /\ digit_value (str_of_int n) = n
  /\ forall k, (1 <= k)%nat -> n < 10 ^ N.of_nat k -> (length (str_of_int n) <= k)%nat.
Proof.
  unfold str_of_int.
  destruct (digits_spec (N.to_nat (N.log2 n)) n []) as (d & -> & ? & ? & ?).
  - rewrite Nat2N.inj_succ, N2Nat.id.
    destruct n as [|p]; [done|]. apply N.log2_spec. lia.
  - by rewrite app_nil_r.
Qed.

Lemma fmt_prec_spec (width : nat) (n : N) :
  Forall (fun c => is_digit c = true) (fmt_prec width n)
  /\ digit_value (fmt_prec width n) = n
  /\ length (fmt_prec width n) = (width `max` length (str_of_int n))%nat.
Proof.
  destruct (str_of_int_spec n) as (Hdigits & Hvalue & _). unfold fmt_prec.
  split_and!.
  - apply Forall_app. split; [|done]. by apply Forall_replicate.
  - by rewrite digit_value_zeros.
  - rewrite length_app, length_replicate. lia.
Qed.


(** Where the digits at the start of a string end. *)
Lemma digits_prefix_unique (d1 d2 r1 r2 : str) (x y : N) :
  Forall (fun c => is_digit c = true) d1 ->
  Forall (fun c => is_digit c = true) d2 ->
  is_digit x = false -> is_digit y = false ->
  d1 ++ x :: r1 = d2 ++ y :: r2 -> d1 = d2 /\ x = y /\ r1 = r2.
Proof.
  intros Hd1. revert d2. induction Hd1 as [|c d1 Hc _ IH]; intros d2 Hd2 Hx Hy.
  - destruct Hd2 as [|c d2 Hc _]; simpl.
    + by intros [= -> ->].
    + intros [= -> _]. congruence.
  - destruct Hd2 as [|c' d2 Hc' Hd2]; simpl.
    + intros [= -> _]. congruence.
    + intros [= -> Heq]. destruct (IH d2 Hd2 Hx Hy Heq) as (-> & -> & ->). done.
Qed.

(** *** Sanitizing a section's name *)

Lemma filter_filename_id (s : str) :
  Forall (fun c => ~ banned c) s -> filter_filename s = s.
Proof.
  rewrite filter_filename_filter. induction 1 as [|c s Hc _ IH]; [done|].
  cbn [List.filter]. apply filter_filename_keeps in Hc. by rewrite Hc, IH.
Qed.

Lemma rstrip_by_snoc (f : N -> bool) (s : str) (c : N) :
  f c = false -> rstrip_by f (s ++ [c]) = s ++ [c].
Proof.
  intros Hc. unfold rstrip_by. rewrite reverse_snoc. cbn [lstrip_by].
  by rewrite Hc, <- reverse_snoc, reverse_involutive.
Qed.


(** A name splits in one way only into a stem, a dot and an extension
    without dots. *)
Lemma last_dot_unique (stem ext stem' ext' : str) :
  ord "." ∉ ext -> ord "." ∉ ext' ->
  stem ++ lit "." ++ ext = stem' ++ lit "." ++ ext' -> stem = stem' /\ ext = ext'.
Proof.
  intros Hext Hext' Heq.
  change (stem ++ ord "." :: ext = stem' ++ ord "." :: ext') in Heq.
  by apply not_elem_of_app_cons_inv_r in Heq as (-> & _ & ->).
Qed.

Lemma no_dot_in_xhtml : ord "." ∉ lit "xhtml".
Proof. intros Hin%str_in_spec. vm_compute in Hin. discriminate. Qed.

(** The name given to the sanitizer for a section, after the filter: the
    title alone may lose characters. *)
Lemma filtered_section_name (prefix title : str) :
  Forall (fun c => ~ banned c) prefix ->
  rstrip_by (N.eqb (ord ".")) (filter_filename (prefix ++ title ++ lit ").xhtml"))
  = (prefix ++ filter_filename title ++ lit ")") ++ lit "." ++ lit "xhtml".
Proof.
  intros Hprefix.
  rewrite !filter_filename_app, (filter_filename_id prefix) by done.
  replace (filter_filename (lit ").xhtml")) with (lit ").xhtm" ++ [ord "l"])
    by (vm_compute; reflexivity).
  rewrite !app_assoc, rstrip_by_snoc by done.
  rewrite <- !app_assoc. reflexivity.
Qed.


(** *** The names of the sections *)

Lemma section_file_name_unfold (fuel : nat) (chapter_digits : nat) (i : N)
    (section_digits : nat) (j : N) (title : str) :
  section_file_name fuel chapter_digits i section_digits j title
  = let* name :=
      make_filename_valid_for_epub3 fuel
        (section_prefix chapter_digits i section_digits j ++ title ++ lit ").xhtml") in
    Ok (lit "Text/" ++ name).
Proof.
  unfold section_file_name, section_prefix. by rewrite <- !app_assoc.
Qed.

Lemma digit_not_banned (c : N) : is_digit c = true -> ~ banned c.
Proof.
  unfold is_digit. rewrite andb_true_iff, !N.leb_le. intros [Hlo Hhi].
  assert (Hcases : c = 48 \/ c = 49 \/ c = 50 \/ c = 51 \/ c = 52
                   \/ c = 53 \/ c = 54 \/ c = 55 \/ c = 56 \/ c = 57) by lia.
  apply filter_filename_keeps.
  destruct Hcases as [->|[->|[->|[->|[->|[->|[->|[->|[->| ->]]]]]]]]];
    vm_compute; reflexivity.
Qed.

Lemma section_prefix_clean (chapter_digits : nat) (i : N) (section_digits : nat) (j : N) :
  Forall (fun c => ~ banned c) (section_prefix chapter_digits i section_digits j).
Proof.
  unfold section_prefix. rewrite !Forall_app. split_and!.
  - eapply Forall_impl; [apply fmt_prec_spec|]. apply digit_not_banned.
  - apply Forall_singleton, filter_filename_keeps. vm_compute. reflexivity.
  - eapply Forall_impl; [apply fmt_prec_spec|]. apply digit_not_banned.
  - change (lit " (") with [ord " "; ord "("].
    repeat (apply Forall_cons; split;
            [apply filter_filename_keeps; vm_compute; reflexivity|]).
    apply Forall_nil_2.
Qed.








(** * Further properties *)

(** ** The registry's ids *)

Lemma registry_ok_init : registry_ok ImageMap.init.
Proof.
  unfold registry_ok, ImageMap.init. simpl. split_and!.
  - by rewrite map_size_empty.
  - intros url image Hl. by rewrite lookup_empty in Hl.
  - intros url url' image image' Hl. by rewrite lookup_empty in Hl.
Qed.

Lemma registry_ok_add_icon (self : ImageMap.t) (url : str) :
  registry_ok self -> registry_ok (ImageMap.add_icon self url).
Proof.
  intros (Hsize & Hid & Hinj). unfold ImageMap.add_icon.
  destruct (ImageMap.map self !! url) as [old|] eqn:E; [done|].
  unfold registry_ok. simpl. split_and!.
  - rewrite map_size_insert_None by done. lia.
  - intros u image. rewrite lookup_insert. case_decide as Hu.
    + intros [= <-]. simpl. split; [done|lia].
    + intros Hl. destruct (Hid _ _ Hl) as [Hname Hlt]. split; [done|lia].
  - intros u u' image image'. rewrite !lookup_insert.
    repeat case_decide; subst.
    + done.
    + intros [= <-] Hl' Heq. simpl in Heq. apply Hid in Hl' as [_ Hlt]. lia.
    + intros Hl [= <-] Heq. simpl in Heq. apply Hid in Hl as [_ Hlt]. lia.
    + apply Hinj.
Qed.

Lemma registry_ok_foldl (urls : list str) (self : ImageMap.t) :
  registry_ok self -> registry_ok (foldl ImageMap.add_icon self urls).
Proof.
  revert self. induction urls as [|u urls IH]; intros self Hok; simpl; [done|].
  by apply IH, registry_ok_add_icon.
Qed.

(** An entry of the registry is never changed by a registration. *)
Lemma add_icon_keeps (self : ImageMap.t) (url url' : str) (image : MappedImage.t) :
  ImageMap.map self !! url = Some image ->
  ImageMap.map (ImageMap.add_icon self url') !! url = Some image.
Proof.
  intros Hl. destruct (decide (url' = url)) as [->|Hne].
  - by rewrite add_icon_again by eauto.
  - by rewrite add_icon_lookup_ne.
Qed.

Lemma foldl_add_icon_keeps (urls : list str) (self : ImageMap.t) (url : str)
    (image : MappedImage.t) :
  ImageMap.map self !! url = Some image ->
  ImageMap.map (foldl ImageMap.add_icon self urls) !! url = Some image.
Proof.
  revert self. induction urls as [|u urls IH]; intros self Hl; simpl; [done|].
  by apply IH, add_icon_keeps.
Qed.

(** Every id below the counter is the id of some entry. *)
Lemma registry_ids_dense (urls : list str) (k : N) :
  let image_map := foldl ImageMap.add_icon ImageMap.init urls in
  k < ImageMap.next_icon image_map ->
  exists url image,
    ImageMap.map image_map !! url = Some image /\ MappedImage.id image = k.
Proof.
  simpl. induction urls as [|u urls IH] using rev_ind; simpl.
  - lia.
  - rewrite foldl_snoc. set (self := foldl ImageMap.add_icon ImageMap.init urls) in *.
    unfold ImageMap.add_icon.
    destruct (ImageMap.map self !! u) as [old|] eqn:E; simpl; [exact IH|].
    intros Hk. destruct (decide (k = ImageMap.next_icon self)) as [->|Hne].
    + eexists u, _. split; [apply lookup_insert_eq|done].
    + destruct IH as (url & image & Hl & Hid); [lia|].
      exists url, image. split; [|done].
      rewrite lookup_insert_ne; [done|]. intros <-. congruence.
Qed.

(** X1. In a registry built from [ImageMap()] by calls of [add_icon], the
    counter [next_icon] is the number of entries, every entry is named
    [icon] and has an id below the counter, two different URLs never have
    the same id, and every number below the counter is the id of an entry. *)
Theorem add_icon_ids_unique (urls : list str) :
  let image_map := foldl ImageMap.add_icon ImageMap.init urls in
  ImageMap.next_icon image_map = N.of_nat (size (ImageMap.map image_map))
  /\ (forall url image,
        ImageMap.map image_map !! url = Some image ->
        MappedImage.name image = lit "icon"
        /\ MappedImage.id image < ImageMap.next_icon image_map)
  /\ (forall url url' image image',
        ImageMap.map image_map !! url = Some image ->
        ImageMap.map image_map !! url' = Some image' ->
        MappedImage.id image = MappedImage.id image' -> url = url')
  /\ (forall k, k < ImageMap.next_icon image_map ->
        exists url image,
          ImageMap.map image_map !! url = Some image /\ MappedImage.id image = k).
Proof.
  intros image_map.
  destruct (registry_ok_foldl urls ImageMap.init registry_ok_init)
    as (Hsize & Hid & Hinj).
  split_and!.
  - exact Hsize.
  - exact Hid.
  - exact Hinj.
  - apply registry_ids_dense.
Qed.

Lemma add_icon_ids_unique_witness :
  let image_map :=
    foldl ImageMap.add_icon ImageMap.init
      [sample_icon_url 0; sample_icon_url 1; sample_icon_url 0] in
  ImageMap.next_icon image_map = N.of_nat (size (ImageMap.map image_map)).
Proof.
  exact (proj1 (add_icon_ids_unique
                  [sample_icon_url 0; sample_icon_url 1; sample_icon_url 0])).
Defined.

(** X2. A registration never changes or removes an entry: the id and the
    extension a URL got when it was first registered are the ones it has
    after any further calls of [add_icon], whatever the URLs. *)
Theorem add_icon_keeps_entries (urls : list str) (self : ImageMap.t) (url : str)
    (image : MappedImage.t) :
  ImageMap.map self !! url = Some image ->
  ImageMap.map (foldl ImageMap.add_icon self urls) !! url = Some image
  /\ ImageMap.map (foldl ImageMap.add_icon self (urls ++ [url])) !! url = Some image.
Proof.
  intros Hl. split.
  - by apply foldl_add_icon_keeps.
  - rewrite foldl_snoc. by apply add_icon_keeps, foldl_add_icon_keeps.
Qed.

Lemma add_icon_keeps_entries_witness :
  ImageMap.map (foldl ImageMap.add_icon (ImageMap.add_icon ImageMap.init (sample_icon_url 0))
                  [sample_icon_url 1; sample_icon_url 2])
    !! sample_icon_url 0
  = Some (MappedImage.mk (lit "icon") 0 (lit "png")).
Proof.
  destruct (add_icon_keeps_entries [sample_icon_url 1; sample_icon_url 2]
              (ImageMap.add_icon ImageMap.init (sample_icon_url 0))
              (sample_icon_url 0) (MappedImage.mk (lit "icon") 0 (lit "png")))
    as [Hkept _]; [|exact Hkept].
  unfold ImageMap.add_icon. cbn [ImageMap.map ImageMap.init].
  rewrite lookup_empty. cbn [ImageMap.map]. rewrite lookup_insert_eq.
  do 2 f_equal.
Defined.

(** ** The names of the image files *)

Lemma digits_acc_nonempty (fuel : nat) (n : N) (acc : str) :
  acc <> [] -> digits fuel n acc <> [].
Proof.
  revert n acc. induction fuel as [|fuel IH]; intros n acc Hacc; simpl; [done|].
  case_match; [done|]. by apply IH.
Qed.

Lemma str_of_int_nonempty (n : N) : str_of_int n <> [].
Proof.
  unfold str_of_int. simpl. case_match; [done|]. by apply digits_acc_nonempty.
Qed.

Lemma digit_value_bound (d : str) :
  Forall (fun c => is_digit c = true) d -> digit_value d < 10 ^ N.of_nat (length d).
Proof.
  induction d as [|c d IH] using rev_ind; intros Hd.
  - simpl. unfold digit_value. simpl. lia.
  - apply Forall_app in Hd as [Hd Hc]. rewrite Forall_singleton in Hc.
    rewrite digit_value_snoc, length_app. simpl.
    replace (N.of_nat (length d + 1)) with (N.succ (N.of_nat (length d))) by lia.
    rewrite N.pow_succ_r'. specialize (IH Hd).
    unfold is_digit in Hc. apply andb_true_iff in Hc as [Hlo Hhi].
    apply N.leb_le in Hlo, Hhi. lia.
Qed.

(** A number has no more digits than a greater one. *)
Lemma str_of_int_length_mono (a b : N) :
  a <= b -> (length (str_of_int a) <= length (str_of_int b))%nat.
Proof.
  intros Hab. destruct (str_of_int_spec a) as (_ & _ & Hlen).
  destruct (str_of_int_spec b) as (Hdigits & Hvalue & _).
  apply Hlen.
  - pose proof (str_of_int_nonempty b) as Hne.
    destruct (str_of_int b); [done|]. simpl. lia.
  - pose proof (digit_value_bound _ Hdigits) as Hbound. rewrite Hvalue in Hbound. lia.
Qed.

(** The width is the number of digits of the last id given. *)
Lemma registry_width (urls : list str) :
  let image_map := foldl ImageMap.add_icon ImageMap.init urls in
  ImageMap.icon_id_width image_map
  = length (str_of_int (ImageMap.next_icon image_map - 1)).
Proof.
  simpl. induction urls as [|u urls IH] using rev_ind; [done|].
  rewrite foldl_snoc. set (self := foldl ImageMap.add_icon ImageMap.init urls) in *.
  unfold ImageMap.add_icon.
  destruct (ImageMap.map self !! u) as [old|] eqn:E; simpl; [exact IH|].
  f_equal. f_equal. lia.
Qed.

Lemma download_requests_lookup (image_map : ImageMap.t) (url name : str) :
  download_requests image_map !! url = Some name ->
  exists image,
    ImageMap.map image_map !! url = Some image
    /\ name = MappedImage.to_filename image (ImageMap.icon_id_width image_map).
Proof.
  unfold download_requests. rewrite lookup_fmap.
  destruct (ImageMap.map image_map !! url) as [image|]; simpl; [|done].
  intros [= <-]. by exists image.
Qed.

(** X3. The names under which [download_images] stores the images all have
    the same shape: [Images/icon], the id written with exactly
    [icon_id_width] digits (the number of digits of the last id given),
    a dot and the extension. *)
Theorem download_requests_width (urls : list str) (url name : str) :
  let image_map := foldl ImageMap.add_icon ImageMap.init urls in
  let width := ImageMap.icon_id_width image_map in
  download_requests image_map !! url = Some name ->
  exists image number,
    ImageMap.map image_map !! url = Some image
    /\ name = lit "Images/icon" ++ number ++ lit "." ++ MappedImage.ext image
    /\ length number = width
    /\ Forall (fun c => is_digit c = true) number
    /\ digit_value number = MappedImage.id image
    /\ width = length (str_of_int (ImageMap.next_icon image_map - 1)).
Proof.
  intros image_map width Hname.
  apply download_requests_lookup in Hname as (image & Hl & ->).
  destruct (registry_ok_foldl urls ImageMap.init registry_ok_init) as (_ & Hid & _).
  destruct (Hid _ _ Hl) as [Hicon Hlt]. fold image_map in Hlt.
  destruct (fmt_prec_spec width (MappedImage.id image)) as (Hdigits & Hvalue & Hlen).
  pose proof (registry_width urls) as Hwidth. simpl in Hwidth.
  fold image_map in Hwidth. fold width in Hwidth.
  exists image, (fmt_prec width (MappedImage.id image)). split_and!; try done.
  - unfold MappedImage.to_filename. rewrite Hicon. fold width.
    change (lit "Images/icon") with (lit "Images/" ++ lit "icon").
    by rewrite <- !app_assoc.
  - rewrite Hlen, Hwidth. apply Nat.max_l, str_of_int_length_mono. lia.
Qed.

Lemma download_requests_width_witness :
  exists image number,
    ImageMap.map (foldl ImageMap.add_icon ImageMap.init [sample_icon_url 0])
      !! sample_icon_url 0 = Some image
    /\ lit "Images/icon0.png" = lit "Images/icon" ++ number ++ lit "." ++ MappedImage.ext image
    /\ length number = 1%nat
    /\ Forall (fun c => is_digit c = true) number
    /\ digit_value number = MappedImage.id image
    /\ 1%nat = length (str_of_int (0 - 1)).
Proof.
  apply (download_requests_width [sample_icon_url 0] (sample_icon_url 0)
           (lit "Images/icon0.png")).
  unfold download_requests. rewrite lookup_fmap. simpl foldl.
  unfold ImageMap.add_icon. cbn [ImageMap.map ImageMap.init].
  rewrite lookup_empty. cbn [ImageMap.map]. rewrite lookup_insert_eq.
  reflexivity.
Defined.

(** X4. [download_images] never stores two images under one name: in a
    registry built by [add_icon], the file names of two different URLs are
    different. *)
Theorem download_requests_injective (urls : list str) (url url' name name' : str) :
  let image_map := foldl ImageMap.add_icon ImageMap.init urls in
  url <> url' ->
  download_requests image_map !! url = Some name ->
  download_requests image_map !! url' = Some name' ->
  name <> name'.
Proof.
  intros image_map Hne Hname Hname' Heq. apply Hne.
  apply download_requests_lookup in Hname as (image & Hl & Hn).
  apply download_requests_lookup in Hname' as (image' & Hl' & Hn').
  destruct (registry_ok_foldl urls ImageMap.init registry_ok_init) as (_ & Hid & Hinj).
  apply (Hinj _ _ _ _ Hl Hl').
  destruct (Hid _ _ Hl) as [Hicon _]. destruct (Hid _ _ Hl') as [Hicon' _].
  rewrite Hn, Hn' in Heq. unfold MappedImage.to_filename in Heq.
  rewrite Hicon, Hicon' in Heq. do 2 apply app_inv_head in Heq.
  set (width := ImageMap.icon_id_width image_map) in *.
  destruct (fmt_prec_spec width (MappedImage.id image)) as (Hd & Hv & _).
  destruct (fmt_prec_spec width (MappedImage.id image')) as (Hd' & Hv' & _).
  change (lit ".") with [ord "."] in Heq. simpl in Heq.
  apply digits_prefix_unique in Heq as (Hnum & _); [|done..].
  rewrite <- Hv, <- Hv'. by rewrite Hnum.
Qed.

(** Two icons, registered one after the other. *)
Lemma two_icons_registered :
  let image_map :=
    foldl ImageMap.add_icon ImageMap.init [sample_icon_url 0; sample_icon_url 1] in
  download_requests image_map !! sample_icon_url 0 = Some (lit "Images/icon0.png")
  /\ download_requests image_map !! sample_icon_url 1 = Some (lit "Images/icon1.png").
Proof.
  assert (sample_icon_url 0 <> sample_icon_url 1) as Hne by (by vm_compute).
  assert (ImageMap.add_icon ImageMap.init (sample_icon_url 0)
          = ImageMap.mk {[sample_icon_url 0 := MappedImage.mk (lit "icon") 0 (lit "png")]} 1 1) as E0.
  { unfold ImageMap.add_icon. cbn [ImageMap.map ImageMap.init]. rewrite lookup_empty.
    cbn [ImageMap.next_icon]. reflexivity. }
  cbn [foldl]. rewrite E0. unfold download_requests, ImageMap.add_icon.
  cbn [ImageMap.map ImageMap.next_icon ImageMap.icon_id_width].
  rewrite lookup_singleton_ne by done.
  cbn [ImageMap.map ImageMap.next_icon ImageMap.icon_id_width].
  rewrite !lookup_fmap, lookup_insert_ne, lookup_singleton_eq, lookup_insert_eq by done.
  split; reflexivity.
Qed.

Lemma download_requests_injective_witness :
  lit "Images/icon0.png" <> lit "Images/icon1.png".
Proof.
  apply (download_requests_injective [sample_icon_url 0; sample_icon_url 1]
           (sample_icon_url 0) (sample_icon_url 1)).
  - by vm_compute.
  - apply two_icons_registered.
  - apply two_icons_registered.
Defined.

(** ** Registering the icons of a chapter *)

Lemma icon_src_getitem (post icon : Node) :
  find_icon post = Some icon ->
  getitem icon (lit "src")
  = match icon_src post with
    | Some src => Ok src
    | None => Raise (KeyError (lit "src"))
    end.
Proof.
  intros Hicon. unfold icon_src, getitem. rewrite Hicon. simpl.
  by destruct (attr_get (lit "src") (attrs_of icon)).
Qed.

Lemma icon_src_none (post : Node) : find_icon post = None -> icon_src post = None.
Proof. intros Hicon. unfold icon_src. by rewrite Hicon. Qed.

Lemma populate_image_map_cons (post : Node) (posts : list Node) (image_map : ImageMap.t) :
  populate_image_map (post :: posts) image_map
  = match find_icon post with
    | Some _ =>
        match icon_src post with
        | Some src => populate_image_map posts (ImageMap.add_icon image_map src)
        | None => Raise (KeyError (lit "src"))
        end
    | None => populate_image_map posts image_map
    end.
Proof.
  unfold populate_image_map. cbn [for_each].
  destruct (find_icon post) as [icon|] eqn:Hicon; [|done].
  rewrite (icon_src_getitem post icon Hicon).
  by destruct (icon_src post).
Qed.

Lemma populate_image_map_ok (posts : list Node) (image_map image_map' : ImageMap.t) :
  populate_image_map posts image_map = Ok image_map' ->
  image_map' = foldl ImageMap.add_icon image_map (omap icon_src posts)
  /\ Forall (fun post => is_Some (find_icon post) -> is_Some (icon_src post)) posts.
Proof.
  revert image_map. induction posts as [|post posts IH]; intros image_map.
  - intros [= <-]. by split.
  - rewrite populate_image_map_cons. cbn [omap list_omap].
    destruct (find_icon post) as [icon|] eqn:Hicon.
    + destruct (icon_src post) as [src|] eqn:Hsrc; [|done].
      intros Hrun. apply IH in Hrun as [-> Hall]. split; [done|].
      constructor; [by rewrite Hsrc|done].
    + rewrite (icon_src_none post Hicon).
      intros Hrun. apply IH in Hrun as [-> Hall]. split; [done|].
      constructor; [|done]. rewrite Hicon. by intros [? [=]].
Qed.

Lemma populate_image_map_total (posts : list Node) (image_map : ImageMap.t) :
  Forall (fun post => is_Some (find_icon post) -> is_Some (icon_src post)) posts ->
  populate_image_map posts image_map
  = Ok (foldl ImageMap.add_icon image_map (omap icon_src posts)).
Proof.
  revert image_map. induction posts as [|post posts IH]; intros image_map Hall.
  - done.
  - apply Forall_cons in Hall as [Hpost Hall].
    rewrite populate_image_map_cons. cbn [omap list_omap].
    destruct (find_icon post) as [icon|] eqn:Hicon.
    + destruct Hpost as [src Hsrc]; [by eexists|]. rewrite Hsrc. by apply IH.
    + rewrite (icon_src_none post Hicon). by apply IH.
Qed.

Lemma populate_image_map_raise (posts : list Node) (image_map : ImageMap.t) (e : exn) :
  populate_image_map posts image_map = Raise e -> e = KeyError (lit "src").
Proof.
  revert image_map. induction posts as [|post posts IH]; intros image_map.
  - done.
  - rewrite populate_image_map_cons.
    destruct (find_icon post); [destruct (icon_src post)|]; eauto. by intros [= <-].
Qed.

Lemma populate_image_map_fuel (posts : list Node) (image_map : ImageMap.t) :
  populate_image_map posts image_map <> OutOfFuel.
Proof.
  revert image_map. induction posts as [|post posts IH]; intros image_map.
  - done.
  - rewrite populate_image_map_cons.
    destruct (find_icon post); [destruct (icon_src post)|]; eauto.
Qed.

(** The icons of the posts are in the registry that [populate_image_map]
    leaves. *)
Lemma populated_registered (posts : list Node) (image_map : ImageMap.t)
    (post : Node) (src : str) :
  post ∈ posts -> icon_src post = Some src ->
  is_Some (ImageMap.map (foldl ImageMap.add_icon image_map (omap icon_src posts)) !! src).
Proof.
  intros Hin Hsrc. apply registered_after. right.
  apply list_elem_of_omap. eauto.
Qed.

(** X5. On posts whose icon URLs [urlparse] accepts, [populate_image_map]
    registers the [src] of the icon of every post, in the order of the posts,
    and does nothing else: it returns exactly when every icon has a [src],
    the registry then is the one given with those URLs added by [add_icon],
    and every icon's URL is in it; the one exception it raises is the
    [KeyError] of an icon without [src]. *)
Theorem populate_image_map_registers (posts : list Node) (image_map : ImageMap.t) :
  Forall (fun post => forall src, icon_src post = Some src -> url_accepted src = true)
         posts ->
  (Forall (fun post => is_Some (find_icon post) -> is_Some (icon_src post)) posts
   <-> exists image_map', populate_image_map posts image_map = Ok image_map')
  /\ (forall image_map',
        populate_image_map posts image_map = Ok image_map' ->
        image_map' = foldl ImageMap.add_icon image_map (omap icon_src posts)
        /\ forall post icon,
            post ∈ posts -> find_icon post = Some icon ->
            exists src,
              getitem icon (lit "src") = Ok src
              /\ is_Some (ImageMap.map image_map' !! src))
  /\ (forall e, populate_image_map posts image_map = Raise e -> e = KeyError (lit "src"))
  /\ populate_image_map posts image_map <> OutOfFuel.
Proof.
  intros _. split_and!.
  - split.
    + intros Hall. eexists. by apply populate_image_map_total.
    + intros [image_map' Hrun]. by apply populate_image_map_ok in Hrun as [_ Hall].
  - intros image_map' Hrun.
    apply populate_image_map_ok in Hrun as [-> Hall]. split; [done|].
    intros post icon Hin Hicon.
    rewrite Forall_forall in Hall. destruct (Hall post Hin) as [src Hsrc]; [by eexists|].
    exists src. split.
    + by rewrite (icon_src_getitem post icon Hicon), Hsrc.
    + by eapply populated_registered.
  - apply populate_image_map_raise.
  - apply populate_image_map_fuel.
Qed.

Lemma populate_image_map_registers_witness :
  exists image_map',
    populate_image_map [first_post; second_post] ImageMap.init = Ok image_map'.
Proof.
  destruct (populate_image_map_registers [first_post; second_post] ImageMap.init)
    as [Hiff _].
  { repeat (constructor;
            [intros src Hsrc; vm_compute in Hsrc; injection Hsrc as <-;
             vm_compute; reflexivity|]).
    constructor. }
  apply Hiff.
  repeat (constructor; [intros _; eexists; vm_compute; reflexivity|]).
  constructor.
Defined.

(** ** What a post must have to be rendered *)

Lemma not_is_Some_None {A} : ~ is_Some (@None A).
Proof. by intros [? [=]]. Qed.

Lemma render_post_run (post : Node) (image_map : ImageMap.t) :
  (forall src, icon_src post = Some src -> is_Some (ImageMap.map image_map !! src)) ->
  if well_formed_post post
  then exists rendered, render_post post image_map = Ok (rendered, image_map)
  else exists e, render_post post image_map = Raise e /\ e ∈ render_post_errors.
Proof.
  intros Hreg. unfold icon_src in Hreg.
  unfold well_formed_post, render_post, render_post_errors, getitem.
  destruct (find_parent is_permalink_img post) as [parent|];
    [|eexists; split; [reflexivity|set_solver]].
  destruct (attr_get (lit "href") (attrs_of parent)) as [permalink|];
    [|rewrite (bool_decide_eq_false_2 (is_Some None)) by apply not_is_Some_None;
      cbn [bind andb]; eexists; split; [reflexivity|set_solver]].
  rewrite (bool_decide_eq_true_2 (is_Some (Some permalink))) by (by eexists).
  cbn [bind andb].
  destruct (find_icon post) as [icon|] eqn:Hicon.
  - simpl in Hreg.
    destruct (attr_get (lit "src") (attrs_of icon)) as [src|].
    + destruct (Hreg src eq_refl) as [image Himage].
      rewrite (bool_decide_eq_true_2 (is_Some (Some src))) by (by eexists).
      cbn [bind andb].
      rewrite (get_icon_registered _ _ _ Himage). cbn [bind].
      destruct (attr_get (lit "alt") (attrs_of icon)) as [alt|].
      * rewrite (bool_decide_eq_true_2 (is_Some (Some alt))) by (by eexists).
        destruct (find (lit "div") (has_class (lit "post-content")) post) as [content|].
        -- rewrite (bool_decide_eq_true_2 (is_Some (Some content))) by (by eexists).
           cbn [bind andb]. eauto.
        -- rewrite (bool_decide_eq_false_2 (is_Some None)) by apply not_is_Some_None. cbn [bind andb].
           eexists; split; [reflexivity|set_solver].
      * rewrite (bool_decide_eq_false_2 (is_Some None)) by apply not_is_Some_None.
        rewrite !andb_false_r. cbn [bind].
        eexists; split; [reflexivity|set_solver].
    + rewrite (bool_decide_eq_false_2 (is_Some None)) by apply not_is_Some_None.
      rewrite !andb_false_r. cbn [bind andb].
      eexists; split; [reflexivity|set_solver].
  - destruct (find (lit "div") (has_class (lit "post-content")) post) as [content|].
    + rewrite (bool_decide_eq_true_2 (is_Some (Some content))) by (by eexists).
           cbn [bind andb]. eauto.
    + rewrite (bool_decide_eq_false_2 (is_Some None)) by apply not_is_Some_None. cbn [bind andb].
      eexists; split; [reflexivity|set_solver].
Qed.

Section rendering.
Context `{Formatter}.

(** The loop of [render_posts] on posts whose icons are registered. *)
Lemma render_posts_loop (posts : list Node) (image_map : ImageMap.t)
    (yielded : list Sec.t) (out : Sec.t) (authors : list (option str)) :
  (forall post src, post ∈ posts -> icon_src post = Some src ->
                    is_Some (ImageMap.map image_map !! src)) ->
  if forallb well_formed_post posts
  then exists yielded' out' authors',
         for_each render_posts_step posts (yielded, out, image_map, authors)
         = Ok (yielded', out', image_map, authors')
  else exists e,
         for_each render_posts_step posts (yielded, out, image_map, authors) = Raise e
         /\ e ∈ render_post_errors.
Proof.
  revert yielded out authors.
  induction posts as [|post posts IH]; intros yielded out authors Hreg.
  - simpl. eauto.
  - cbn [forallb for_each]. unfold render_posts_step at 1 3.
    pose proof (render_post_run post image_map) as Hrun.
    destruct (well_formed_post post).
    + destruct Hrun as [rendered ->]; [intros; eapply Hreg; [left|done]|].
      cbn [bind andb]. destruct (_ && _); cbn [bind].
      * apply IH. intros; eapply Hreg; [by right|done].
      * apply IH. intros; eapply Hreg; [by right|done].
    + destruct Hrun as (e & -> & He); [intros; eapply Hreg; [left|done]|].
      cbn [bind andb]. eauto.
Qed.

Lemma render_posts_run (posts : list Node) (image_map : ImageMap.t)
    (authors : list (option str)) :
  if forallb well_formed_post posts
  then exists sections authors',
         render_posts posts image_map authors
         = Ok (sections, foldl ImageMap.add_icon image_map (omap icon_src posts), authors')
  else exists e,
         render_posts posts image_map authors = Raise e /\ e ∈ render_post_errors.
Proof.
  unfold render_posts.
  destruct (decide (Forall (fun post => is_Some (find_icon post) -> is_Some (icon_src post))
                           posts)) as [Hsrc|Hsrc].
  - rewrite (populate_image_map_total posts image_map Hsrc). cbn [bind].
    pose proof (render_posts_loop posts
                  (foldl ImageMap.add_icon image_map (omap icon_src posts))
                  [] Sec.init authors) as Hloop.
    destruct (forallb well_formed_post posts).
    + destruct Hloop as (yielded & out & authors' & ->).
      { intros post src. apply populated_registered. }
      cbn [bind]. eauto.
    + destruct Hloop as (e & -> & He).
      { intros post src. apply populated_registered. }
      cbn [bind]. eauto.
  - assert (forallb well_formed_post posts = false) as ->.
    { apply not_true_is_false. intros Hwf. apply Hsrc.
      rewrite forallb_forall in Hwf. apply Forall_forall. intros post Hin Hicon.
      apply list_elem_of_In, Hwf in Hin. unfold well_formed_post in Hin.
      unfold icon_src. destruct (find_icon post) as [icon|]; simpl.
      - apply andb_true_iff in Hin as [_ Hin].
        apply andb_true_iff in Hin as [Hin _]. by apply bool_decide_eq_true in Hin.
      - by apply not_is_Some_None in Hicon. }
    destruct (populate_image_map posts image_map) as [image_map'| e |] eqn:Hp.
    + apply populate_image_map_ok in Hp as [_ Hall]. done.
    + apply populate_image_map_raise in Hp as ->. cbn [bind].
      eexists. split; [done|]. unfold render_post_errors. set_solver.
    + by apply populate_image_map_fuel in Hp.
Qed.

(** X6. Take posts none of which lies inside another, with permalinks and
    icon URLs that [urlparse] accepts.  [render_posts] returns the sections
    of the chapter exactly when every post is well formed: it has the link
    around the permalink image, with its [href], the content, and an icon (if
    it has one) with [src] and [alt].  In particular [get_icon] never fails
    inside [render_posts]: [populate_image_map] has registered every icon
    before a post is rendered. *)
Theorem render_posts_succeeds_iff (posts : list Node) (image_map : ImageMap.t)
    (authors : list (option str)) :
  independent posts ->
  Forall (fun post => post_urls_accepted post = true) posts ->
  ((exists sections image_map' authors',
       render_posts posts image_map authors = Ok (sections, image_map', authors'))
   <-> Forall (fun post => well_formed_post post = true) posts).
Proof.
  intros _ _.
  pose proof (render_posts_run posts image_map authors) as Hrun.
  destruct (forallb well_formed_post posts) eqn:Hwf.
  - split; [intros _|intros _].
    + apply Forall_forall. intros post Hin.
      rewrite forallb_forall in Hwf. by apply Hwf, list_elem_of_In.
    + destruct Hrun as (sections & authors' & Hrun). eauto.
  - split.
    + intros (sections & image_map' & authors' & Hok).
      destruct Hrun as (e & Hraise & _). congruence.
    + intros Hall. rewrite Forall_forall in Hall.
      assert (forallb well_formed_post posts = true) as Htrue; [|congruence].
      apply forallb_forall. intros post Hin. by apply Hall, list_elem_of_In.
Qed.

(** X7. Take posts none of which lies inside another.  [render_posts] never
    raises the [AttributeError] of [get_icon] on an unregistered URL, the
    missing method [add], and its loops end.  When [urlparse] accepts the
    permalinks and the icon URLs, its exceptions are those of a malformed
    post: the [AttributeError] of a missing permalink or content, and the
    [KeyError] of a missing [href], [src] or [alt]. *)
Theorem render_posts_exceptions (posts : list Node) (image_map : ImageMap.t)
    (authors : list (option str)) :
  independent posts ->
  (Forall (fun post => post_urls_accepted post = true) posts ->
   forall e, render_posts posts image_map authors = Raise e -> e ∈ render_post_errors)
  /\ render_posts posts image_map authors
     <> Raise (AttributeError (lit "'ImageMap' object has no attribute 'add'"))
  /\ render_posts posts image_map authors <> OutOfFuel.
Proof.
  intros _.
  pose proof (render_posts_run posts image_map authors) as Hrun.
  assert (forall e, render_posts posts image_map authors = Raise e ->
                    e ∈ render_post_errors) as Herr.
  { intros e He. destruct (forallb well_formed_post posts).
    - destruct Hrun as (sections & authors' & Hok). congruence.
    - destruct Hrun as (e' & Hraise & Hin). congruence. }
  split_and!.
  - intros _. exact Herr.
  - intros Hadd. apply Herr in Hadd. unfold render_post_errors in Hadd.
    rewrite !elem_of_cons in Hadd.
    destruct Hadd as [Hadd|[Hadd|[Hadd|[Hadd|[Hadd|Hadd]]]]];
      try discriminate; try (vm_compute in Hadd; discriminate).
    by apply elem_of_nil in Hadd.
  - destruct (forallb well_formed_post posts).
    + destruct Hrun as (sections & authors' & Hok). congruence.
    + destruct Hrun as (e' & Hraise & Hin). congruence.
Qed.

(** X8. Rendering the posts registers nothing: the registry that
    [render_posts] leaves is the one [populate_image_map] made, the one given
    with the icon URLs of the posts added in order by [add_icon], and every
    icon URL of the chapter is in it. *)
Theorem render_posts_registry (posts : list Node) (image_map image_map' : ImageMap.t)
    (authors authors' : list (option str)) (sections : list Sec.t) :
  render_posts posts image_map authors = Ok (sections, image_map', authors') ->
  populate_image_map posts image_map = Ok image_map'
  /\ image_map' = foldl ImageMap.add_icon image_map (omap icon_src posts)
  /\ forall post src, post ∈ posts -> icon_src post = Some src ->
       exists image,
         ImageMap.map image_map' !! src = Some image
         /\ ImageMap.get_icon image_map' src
            = Ok (MappedImage.to_filename image (ImageMap.icon_id_width image_map'),
                  image_map').
Proof.
  intros Hok. pose proof (render_posts_run posts image_map authors) as Hrun.
  destruct (forallb well_formed_post posts).
  - destruct Hrun as (sections0 & authors0 & Hrun). rewrite Hrun in Hok.
    injection Hok as _ <- _. split_and!.
    + unfold render_posts in Hrun. bind_inv Hrun.
      pose proof Hm as Hpop. apply populate_image_map_ok in Hm as [-> _]. exact Hpop.
    + done.
    + intros post src Hin Hsrc.
      destruct (populated_registered posts image_map post src Hin Hsrc) as [image Hl].
      exists image. split; [done|]. by apply get_icon_registered.
  - destruct Hrun as (e & Hraise & _). congruence.
Qed.

(** The authors after the loop are the authors before it with the authors of
    the posts added in order. *)
Lemma render_posts_authors_foldl (posts : list Node) (image_map image_map' : ImageMap.t)
    (authors authors' : list (option str)) (sections : list Sec.t) :
  render_posts posts image_map authors = Ok (sections, image_map', authors') ->
  authors' = foldl add_author authors (find_text (lit "post-author") <$> posts).
Proof.
  unfold render_posts. intros Hr.
  bind_inv Hr. bind_inv Hr. destruct a0 as [[[yielded out] im] au].
  injection Hr as _ _ <-. revert Hm0.
  apply (for_each_ind
           (fun done st =>
              st.2 = foldl add_author authors (find_text (lit "post-author") <$> done))).
  - done.
  - intros done post [[[y o] i] u] [[[y' o'] i'] u']. simpl. intros -> Hstep.
    unfold render_posts_step in Hstep. bind_inv Hstep. destruct a0 as [r im1].
    apply render_post_ok_inv in Hm0 as (parent & permalink & children & _ & _ & ->).
    rewrite fmap_app, foldl_app. cbn [fmap list_fmap foldl snd].
    by destruct (_ && _); injection Hstep as _ _ _ <-.
Qed.

End rendering.

Lemma add_author_elem (authors : list (option str)) (author a : option str) :
  a ∈ add_author authors author <-> a ∈ authors \/ a = author.
Proof.
  unfold add_author. case_bool_decide as Hin.
  - split; [by left|]. intros [?| ->]; done.
  - rewrite elem_of_app, list_elem_of_singleton. done.
Qed.

Lemma add_author_NoDup (authors : list (option str)) (author : option str) :
  NoDup authors -> NoDup (add_author authors author).
Proof.
  intros Hnd. unfold add_author. case_bool_decide as Hin; [done|].
  apply NoDup_app. split_and!; [done| |apply NoDup_singleton].
  intros a Ha ->%list_elem_of_singleton. done.
Qed.

Lemma add_author_prefix (authors : list (option str)) (author : option str) :
  authors `prefix_of` add_author authors author.
Proof.
  unfold add_author. case_bool_decide; [done|]. by apply prefix_app_r.
Qed.

Lemma foldl_add_author (new authors : list (option str)) :
  let authors' := foldl add_author authors new in
  (NoDup authors -> NoDup authors')
  /\ authors `prefix_of` authors'
  /\ (forall a, a ∈ authors' <-> a ∈ authors \/ a ∈ new).
Proof.
  revert authors. induction new as [|n new IH]; intros authors; simpl.
  - split_and!; [done|done|]. intros a. rewrite elem_of_nil. tauto.
  - destruct (IH (add_author authors n)) as (Hnd & Hpre & Hin). split_and!.
    + intros Hauthors. by apply Hnd, add_author_NoDup.
    + etrans; [apply add_author_prefix|exact Hpre].
    + intros a. rewrite Hin, add_author_elem, elem_of_cons. tauto.
Qed.

(** X9. The author set after [render_posts] is the set before it, in its
    order, followed by the authors of the posts that were not yet in it, in
    the order of their first post; no author is entered twice.  (A post
    without a [post-author] element enters [None].) *)
Theorem render_posts_authors `{Formatter}
    (posts : list Node) (image_map image_map' : ImageMap.t)
    (authors authors' : list (option str)) (sections : list Sec.t) :
  render_posts posts image_map authors = Ok (sections, image_map', authors') ->
  authors' = foldl add_author authors (find_text (lit "post-author") <$> posts)
  /\ (NoDup authors -> NoDup authors')
  /\ authors `prefix_of` authors'
  /\ (forall a, a ∈ authors' <->
                a ∈ authors \/ exists post, post ∈ posts
                                            /\ find_text (lit "post-author") post = a).
Proof.
  intros Hok. apply render_posts_authors_foldl in Hok as ->.
  destruct (foldl_add_author (find_text (lit "post-author") <$> posts) authors)
    as (Hnd & Hpre & Hin).
  split_and!; [done|done|done|].
  intros a. rewrite Hin, list_elem_of_fmap. split.
  - intros [?|(post & -> & Hpost)]; [by left|right; eauto].
  - intros [?|(post & Hpost & <-)]; [by left|right; eauto].
Qed.

(** ** The sections of a chapter are not empty *)

Section nonempty.
Context `{Formatter}.

Lemma section_packed_posts (s : Sec.t) :
  section_packed s -> (0 < Sec.size s)%Z <-> Sec.posts s <> [].
Proof.
  intros (Hsize & Hpos & _). rewrite Hsize. destruct (Sec.posts s) as [|p ps].
  - simpl. split; [lia|done].
  - apply Forall_cons in Hpos as [Hp Hps]. split; [done|intros _].
    unfold posts_size. simpl. fold (posts_size ps).
    assert (0 <= posts_size ps)%Z; [|lia].
    clear Hsize Hp. induction ps as [|q ps IH]; simpl; [done|].
    apply Forall_cons in Hps as [Hq Hps]. unfold posts_size. simpl.
    fold (posts_size ps). specialize (IH Hps). lia.
Qed.

(** X10. [render_posts] always yields at least one section.  For a chapter
    without posts it is the one empty section; for a chapter with posts no
    section is empty: each holds at least one post and has a positive
    size. *)
Theorem render_posts_sections_nonempty
    (posts : list Node) (image_map image_map' : ImageMap.t)
    (authors authors' : list (option str)) (sections : list Sec.t) :
  render_posts posts image_map authors = Ok (sections, image_map', authors') ->
  sections <> []
  /\ (posts = [] -> sections = [Sec.init])
  /\ (posts <> [] ->
      Forall (fun s => Sec.posts s <> [] /\ (0 < Sec.size s)%Z) sections).
Proof.
  unfold render_posts. intros Hr.
  bind_inv Hr. bind_inv Hr. destruct a0 as [[[yielded out] im] au].
  injection Hr as <- <- <-.
  split_and!.
  - by destruct yielded.
  - intros ->. simpl in Hm0. by injection Hm0 as <- <- _ _.
  - intros Hposts.
    enough (Hinv : Forall section_packed yielded /\ section_packed out
                   /\ Forall (fun s => Sec.posts s <> []) yielded
                   /\ (posts <> [] -> Sec.posts out <> [])).
    { destruct Hinv as (Hy & Ho & Hyne & Hone).
      apply Forall_app. split; [|apply Forall_singleton].
      - apply Forall_forall. intros s Hs.
        rewrite Forall_forall in Hy, Hyne. split; [by apply Hyne|].
        apply section_packed_posts; [by apply Hy|by apply Hyne].
      - split; [by apply Hone|]. apply section_packed_posts; [done|by apply Hone]. }
    revert Hm0.
    apply (for_each_ind
             (fun done st =>
                Forall section_packed st.1.1.1 /\ section_packed st.1.1.2
                /\ Forall (fun s => Sec.posts s <> []) st.1.1.1
                /\ (done <> [] -> Sec.posts st.1.1.2 <> []))).
    + simpl. split_and!; [constructor|apply section_packed_init|constructor|done].
    + intros done post [[[y o] i] u] [[[y' o'] i'] u']. simpl.
      intros (Hy & Ho & Hyne & _) Hstep.
      destruct (render_posts_step_packed _ _ _ _ _ _ _ _ _ Hy Ho Hstep) as [Hy' Ho'].
      split_and!; [done|done| |].
      * unfold render_posts_step in Hstep. bind_inv Hstep. destruct a0 as [r im1].
        destruct (_ <? _)%Z; simpl in Hstep.
        -- destruct (0 <? Sec.size o)%Z eqn:Hsize; injection Hstep as <- <- <- <-.
           ++ apply Forall_app. split; [done|]. apply Forall_singleton.
              apply (proj1 (section_packed_posts o Ho)). by apply Z.ltb_lt.
           ++ done.
        -- by injection Hstep as <- <- <- <-.
      * intros _. unfold render_posts_step in Hstep. bind_inv Hstep.
        destruct a0 as [r im1].
        destruct (_ && _); injection Hstep as <- <- <- <-; simpl; [done|].
        by intros [_ ?]%app_eq_nil.
Qed.

End nonempty.

(** The two sample posts do not overlap, and their URLs are accepted. *)
Lemma sample_posts_independent : independent [first_post; second_post].
Proof.
  intros post post' Hpost Hpost' Hin.
  apply list_elem_of_In in Hin.
  rewrite !elem_of_cons, elem_of_nil in Hpost, Hpost'.
  destruct Hpost as [->|[->|[]]]; destruct Hpost' as [->|[->|[]]];
    vm_compute in Hin;
    repeat (destruct Hin as [Hin|Hin]; [discriminate Hin|]); exact Hin.
Qed.

Lemma sample_posts_accepted :
  Forall (fun post => post_urls_accepted post = true) [first_post; second_post].
Proof. repeat (constructor; [vm_compute; reflexivity|]). constructor. Qed.

Lemma render_posts_succeeds_iff_witness :
  exists sections image_map' authors',
    render_posts [first_post; second_post] ImageMap.init []
    = Ok (sections, image_map', authors').
Proof.
  apply (render_posts_succeeds_iff [first_post; second_post] ImageMap.init []
           sample_posts_independent sample_posts_accepted).
  repeat (constructor; [vm_compute; reflexivity|]). constructor.
Defined.

Lemma render_posts_exceptions_witness :
  none_has_no_attribute (lit "parent") ∈ render_post_errors.
Proof.
  destruct (render_posts_exceptions [blank_page] ImageMap.init []) as (Herrors & _).
  { intros post post' ->%list_elem_of_singleton ->%list_elem_of_singleton
           Hin%list_elem_of_In.
    vm_compute in Hin. repeat (destruct Hin as [Hin|Hin]; [discriminate Hin|]).
    exact Hin. }
  apply Herrors; [|vm_compute; reflexivity].
  repeat (constructor; [vm_compute; reflexivity|]). constructor.
Defined.

Lemma render_posts_registry_witness :
  let url := lit "https://i.example.org/icons/0.png" in
  populate_image_map [first_post] ImageMap.init
  = Ok (ImageMap.add_icon ImageMap.init url)
  /\ ImageMap.get_icon (ImageMap.add_icon ImageMap.init url) url
     = Ok (lit "Images/icon0.png", ImageMap.add_icon ImageMap.init url).
Proof.
  intros url.
  destruct (render_posts_registry [first_post] ImageMap.init
              (ImageMap.add_icon ImageMap.init url) [] [Some (lit "bob")]
              one_icon_sections) as (Hpop & _ & Hreg).
  { vm_compute. reflexivity. }
  split; [exact Hpop|].
  destruct (Hreg first_post url) as (image & Hl & ->); [left|by vm_compute|].
  f_equal. f_equal.
  unfold ImageMap.add_icon in Hl. cbn [ImageMap.map ImageMap.init] in Hl.
  rewrite lookup_empty in Hl. cbn [ImageMap.map] in Hl.
  rewrite lookup_insert_eq in Hl. by injection Hl as <-.
Defined.

Lemma render_posts_authors_witness :
  [Some (lit "bob")] = foldl add_author [] (find_text (lit "post-author") <$> short_chapter)
  /\ NoDup [Some (lit "bob")].
Proof.
  destruct (render_posts_authors short_chapter ImageMap.init ImageMap.init
              [] [Some (lit "bob")] [short_section]) as (Hfold & Hnd & _).
  { vm_compute. reflexivity. }
  split; [exact Hfold|]. apply Hnd. constructor.
Defined.

Lemma render_posts_sections_nonempty_witness :
  Forall (fun s => Sec.posts s <> [] /\ (0 < Sec.size s)%Z) [short_section].
Proof.
  apply (render_posts_sections_nonempty short_chapter ImageMap.init ImageMap.init
           [] [Some (lit "bob")] [short_section]).
  - vm_compute. reflexivity.
  - discriminate.
Defined.

(** ** More on the file-name sanitizer *)

Lemma make_filename_ok_valid (fuel : nat) (filename name : str) :
  make_filename_valid_for_epub3 fuel filename = Ok name -> valid_name name.
Proof.
  pose proof (filtered_not_banned filename) as Hclean.
  pose proof (filtered_no_final_dot filename) as Hdot.
  destruct (make_filename_cases fuel filename)
    as [(Hf & Hr)|[(Hne & Hlen & Hr)|[(Hne & _ & _ & Hr)|(Hne & Hlong & Hext & Hr)]]];
    rewrite Hr; clear Hr; try done.
  - intros [= <-]. done.
  - intros Hloop.
    destruct (truncated_name_shape fuel filename name Hlong Hext Hloop)
      as (k & stem & ext & Hsplit & Hext_ne & Hnodot & _ & -> & Hfit & _).
    rewrite Hsplit in Hclean. rewrite !Forall_app in Hclean.
    destruct Hclean as (Hstem & Hsep & Hclean_ext).
    split_and!; [| | |done].
    + intros [_ [[=] _]%app_eq_nil]%app_eq_nil.
    + rewrite !Forall_app. split_and!; auto. by apply Forall_take.
    + rewrite app_assoc, last_app.
      destruct (last ext) as [c|] eqn:Hlast; [|by apply last_None in Hlast].
      intros [= ->]. apply Hnodot. by apply last_Some_elem_of.
Qed.

Lemma valid_name_fixed (fuel : nat) (name : str) :
  valid_name name -> make_filename_valid_for_epub3 fuel name = Ok name.
Proof.
  intros (Hne & Hclean & Hdot & Hlen). unfold make_filename_valid_for_epub3.
  rewrite filter_filename_id by done.
  assert (rstrip_by (N.eqb (ord ".")) name = name) as ->.
  { destruct name as [|c name _] using rev_ind; [done|].
    apply rstrip_by_snoc. rewrite last_snoc in Hdot.
    apply N.eqb_neq. congruence. }
  rewrite bool_decide_eq_false_2 by (by destruct name).
  by rewrite (proj2 (Z.leb_le _ _) Hlen).
Qed.

(** X11. Among the names that [encode] accepts (no lone surrogate), the ones
    the sanitizer returns unchanged are exactly the valid ones: the names
    that are not empty, have no banned character, do not end in a period and
    take at most 255 bytes. *)
Theorem make_filename_fixed_points (fuel : nat) (name : str) :
  Forall (fun c => is_scalar_value c = true) name ->
  (make_filename_valid_for_epub3 fuel name = Ok name <-> valid_name name).
Proof.
  intros _. split.
  - apply make_filename_ok_valid.
  - apply valid_name_fixed.
Qed.

Lemma make_filename_fixed_points_witness : valid_name (lit "ab.txt").
Proof.
  apply (make_filename_fixed_points 0).
  - repeat (constructor; [vm_compute; reflexivity|]). constructor.
  - vm_compute. reflexivity.
Defined.

(** X12. The sanitizer is idempotent: a name it has returned is returned
    unchanged when it is sanitized again. *)
Theorem make_filename_idempotent (fuel fuel' : nat) (filename name : str) :
  make_filename_valid_for_epub3 fuel filename = Ok name ->
  make_filename_valid_for_epub3 fuel' name = Ok name.
Proof.
  intros Hok. apply valid_name_fixed. by eapply make_filename_ok_valid.
Qed.

Lemma make_filename_idempotent_witness :
  make_filename_valid_for_epub3 0 (lit "ab.txt") = Ok (lit "ab.txt").
Proof.
  apply (make_filename_idempotent 0 0 (lit "a/b.txt...")).
  vm_compute. reflexivity.
Defined.

Lemma filter_sublist {A} (f : A -> bool) (l : list A) : List.filter f l `sublist_of` l.
Proof.
  induction l as [|x l IH]; simpl; [constructor|].
  destruct (f x); by constructor.
Qed.

Lemma rstrip_by_sublist (f : N -> bool) (s : str) : rstrip_by f s `sublist_of` s.
Proof.
  destruct (rstrip_by_spec f s) as (t & Hs & _).
  generalize dependent (rstrip_by f s). intros r ->. by apply sublist_inserts_r.
Qed.

(** X13. The sanitizer only deletes characters: the name it returns is made
    of characters of the name it was given, in their order. *)
Theorem make_filename_sublist (fuel : nat) (filename name : str) :
  make_filename_valid_for_epub3 fuel filename = Ok name ->
  name `sublist_of` filename.
Proof.
  assert (rstrip_by (N.eqb (ord ".")) (filter_filename filename)
            `sublist_of` filename) as Hsub.
  { etrans; [apply rstrip_by_sublist|].
    rewrite filter_filename_filter. apply filter_sublist. }
  destruct (make_filename_cases fuel filename)
    as [(Hf & Hr)|[(Hne & Hlen & Hr)|[(Hne & _ & _ & Hr)|(Hne & Hlong & Hext & Hr)]]];
    rewrite Hr; clear Hr; try done.
  - by intros [= <-].
  - intros Hloop.
    destruct (truncated_name_shape fuel filename name Hlong Hext Hloop)
      as (k & stem & ext & Hsplit & _ & _ & _ & -> & _).
    etrans; [|exact Hsub]. rewrite Hsplit.
    apply sublist_app; [apply sublist_take|done].
Qed.

Lemma make_filename_sublist_witness : lit "ab.txt" `sublist_of` lit "a/b.txt...".
Proof.
  apply (make_filename_sublist 0). vm_compute. reflexivity.
Defined.

Lemma str_split_absent (c : N) (s : str) : c ∉ s -> str_split c s = [s].
Proof.
  induction s as [|x s IH]; [done|].
  intros [Hx Hs]%not_elem_of_cons. simpl.
  destruct (N.eqb_spec x c) as [->|_]; [done|]. by rewrite IH.
Qed.

(** X14. A name that [encode] accepts (no lone surrogate), that is too long
    and that has no period has no extension to keep: the sanitizer takes the
    whole name for the extension and raises the error of the too long
    extension, instead of truncating the name. *)
Theorem make_filename_no_extension (fuel : nat) (filename : str) :
  Forall (fun c => is_scalar_value c = true) filename ->
  ord "." ∉ filename ->
  (255 < utf8_len (filter_filename filename))%Z ->
  make_filename_valid_for_epub3 fuel filename = Raise ExtensionTooLongError.
Proof.
  intros _ Hdot Hlong.
  assert (ord "." ∉ filter_filename filename) as Hdot'.
  { intros [Hin _]%filter_filename_spec. done. }
  assert (rstrip_by (N.eqb (ord ".")) (filter_filename filename)
          = filter_filename filename) as Hstrip.
  { destruct (rstrip_by_spec (N.eqb (ord ".")) (filter_filename filename))
      as (t & Hs & Ht).
    destruct t as [|c t]; [by rewrite app_nil_r in Hs|]. exfalso.
    apply Forall_cons in Ht as [Hc _]. apply N.eqb_eq in Hc. subst c. apply Hdot'.
    rewrite Hs. set_solver. }
  destruct (make_filename_cases fuel filename)
    as [(Hf & Hr)|[(Hne & Hlen & Hr)|[(Hne & _ & _ & Hr)|(Hne & _ & Hext & Hr)]]];
    rewrite Hstrip in *.
  - rewrite Hf in Hlong. simpl in Hlong. lia.
  - lia.
  - done.
  - rewrite str_split_absent in Hext by done. unfold last_seg in Hext.
    simpl in Hext. lia.
Qed.

Lemma make_filename_no_extension_witness :
  make_filename_valid_for_epub3 0 (replicate 256 (ord "a"))
  = Raise ExtensionTooLongError.
Proof.
  apply make_filename_no_extension.
  - apply Forall_forall. intros c [-> _]%elem_of_replicate. reflexivity.
  - intros [Heq _]%elem_of_replicate. by vm_compute in Heq.
  - vm_compute. reflexivity.
Defined.

(** X15. When the filtered name takes more than 255 bytes, the name the
    sanitizer returns is the filtered name with its extension (what follows
    the last period) kept whole and the end of what precedes it cut: at least
    one character is cut, and no more than needed for the name to fit in 255
    bytes. *)
Theorem make_filename_truncates (fuel : nat) (filename name : str) :
  let filtered := rstrip_by (N.eqb (ord ".")) (filter_filename filename) in
  (255 < utf8_len filtered)%Z ->
  make_filename_valid_for_epub3 fuel filename = Ok name ->
  exists k stem ext,
    filtered = stem ++ lit "." ++ ext
    /\ ext <> [] /\ (ord "." ∉ ext)
    /\ (k <= length stem - 1)%nat
    /\ name = take k stem ++ lit "." ++ ext
    /\ (utf8_len name <= 255)%Z
    /\ (k = (length stem - 1)%nat
        \/ (255 < utf8_len (take (S k) stem ++ lit "." ++ ext))%Z).
Proof.
  intros filtered Hlong.
  destruct (make_filename_cases fuel filename)
    as [(Hf & Hr)|[(Hne & Hlen & Hr)|[(Hne & _ & _ & Hr)|(Hne & _ & Hext & Hr)]]];
    fold filtered in Hr; rewrite Hr; try done.
  - fold filtered in Hlen. lia.
  - intros Hloop. by apply (truncated_name_shape fuel filename name Hlong Hext).
Qed.

Lemma make_filename_truncates_witness :
  exists k stem ext,
    replicate 300 (ord "a") ++ lit ".b.c" = stem ++ lit "." ++ ext
    /\ ext <> [] /\ (ord "." ∉ ext)
    /\ (k <= length stem - 1)%nat
    /\ replicate 253 (ord "a") ++ lit ".c" = take k stem ++ lit "." ++ ext
    /\ (utf8_len (replicate 253 (ord "a") ++ lit ".c") <= 255)%Z
    /\ (k = (length stem - 1)%nat
        \/ (255 < utf8_len (take (S k) stem ++ lit "." ++ ext))%Z).
Proof.
  apply (make_filename_truncates 300 (replicate 300 (ord "a") ++ lit ".b.c")).
  - vm_compute. reflexivity.
  - vm_compute. reflexivity.
Defined.

(** ** The index of the permalinks *)

Lemma for_each_enumerate_ind {A St} (P : nat -> St -> Prop)
    (body : St -> N * A -> outcome St) (xs : list A) (st0 stN : St) :
  P 0%nat st0 ->
  (forall k x st st',
      xs !! k = Some x -> P k st -> body st (N.of_nat k, x) = Ok st' -> P (S k) st') ->
  for_each body (enumerate xs) st0 = Ok stN -> P (length xs) stN.
Proof.
  intros H0 Hstep. unfold enumerate.
  enough (Hgen : forall ys i st,
             (forall k x, ys !! k = Some x -> xs !! (i + k)%nat = Some x) ->
             (i + length ys = length xs)%nat ->
             P i st ->
             for_each body (enumerate_from (N.of_nat i) ys) st = Ok stN ->
             P (length xs) stN).
  { apply (Hgen xs 0%nat st0); auto. }
  induction ys as [|y ys IH]; intros i st Hys Hlen HP Hrun; simpl in *.
  - injection Hrun as <-. by replace (length xs) with i by lia.
  - bind_inv Hrun.
    replace (N.of_nat i + 1) with (N.of_nat (S i)) in Hrun by lia.
    assert (xs !! i = Some y) as Hy.
    { specialize (Hys 0%nat y eq_refl). by rewrite Nat.add_0_r in Hys. }
    apply (IH (S i) a); [| |by eapply Hstep|done].
    + intros k x Hk. replace (S i + k)%nat with (i + S k)%nat by lia. by apply Hys.
    + lia.
Qed.

Lemma foldl_insert_lookup (file_name : str) (permalinks : list str)
    (anchor_sections : gmap str str) (permalink : str) :
  foldl (fun anchor_sections permalink => <[permalink := file_name]> anchor_sections)
        anchor_sections permalinks !! permalink
  = if bool_decide (permalink ∈ permalinks) then Some file_name
    else anchor_sections !! permalink.
Proof.
  revert anchor_sections.
  induction permalinks as [|p permalinks IH]; intros anchor_sections; cbn [foldl].
  - by rewrite bool_decide_eq_false_2 by apply not_elem_of_nil.
  - rewrite IH. destruct (decide (permalink ∈ permalinks)) as [Hin|Hin].
    + rewrite !bool_decide_eq_true_2; [done|by right|done].
    + rewrite (bool_decide_eq_false_2 _ Hin).
      destruct (decide (p = permalink)) as [->|Hne].
      * rewrite bool_decide_eq_true_2 by left. apply lookup_insert_eq.
      * rewrite bool_decide_eq_false_2 by (by intros [?|?]%elem_of_cons).
        by apply lookup_insert_ne.
Qed.

(** The keys of the index are the permalinks of the sections, and the value
    of a key is the file name of a section that lists it. *)
Lemma map_permalinks_spec (fuel : nat) (chapters : list (str * list Sec.t))
    (anchor_sections : gmap str str) :
  map_permalinks fuel chapters = Ok anchor_sections ->
  (forall permalink file_name,
      anchor_sections !! permalink = Some file_name ->
      exists i j title sections section,
        chapters !! i = Some (title, sections)
        /\ sections !! j = Some section
        /\ permalink ∈ Sec.link_targets section
        /\ section_file_name fuel (digits_of_len chapters) (N.of_nat i)
             (digits_of_len sections) (N.of_nat j) title
           = Ok file_name)
  /\ (forall i j title sections section permalink,
        chapters !! i = Some (title, sections) ->
        sections !! j = Some section ->
        permalink ∈ Sec.link_targets section ->
        is_Some (anchor_sections !! permalink)).
Proof.
  unfold map_permalinks.
  set (sound := fun m : gmap str str =>
    forall permalink file_name,
      m !! permalink = Some file_name ->
      exists i j title sections section,
        chapters !! i = Some (title, sections)
        /\ sections !! j = Some section
        /\ permalink ∈ Sec.link_targets section
        /\ section_file_name fuel (digits_of_len chapters) (N.of_nat i)
             (digits_of_len sections) (N.of_nat j) title
           = Ok file_name).
  intros Hrun.
  enough (Hinv : sound anchor_sections
                 /\ forall i j title sections section permalink,
                     (i < length chapters)%nat ->
                     chapters !! i = Some (title, sections) ->
                     sections !! j = Some section ->
                     permalink ∈ Sec.link_targets section ->
                     is_Some (anchor_sections !! permalink)).
  { destruct Hinv as [Hsound Hall]. split; [exact Hsound|].
    intros i j title sections section permalink Hi. eapply Hall; [|exact Hi].
    by eapply lookup_lt_Some. }
  revert Hrun.
  apply (for_each_enumerate_ind
           (fun I m =>
              sound m
              /\ forall i j title sections section permalink,
                  (i < I)%nat ->
                  chapters !! i = Some (title, sections) ->
                  sections !! j = Some section ->
                  permalink ∈ Sec.link_targets section ->
                  is_Some (m !! permalink))).
  - split; [|intros; lia]. intros permalink file_name Hl.
    by rewrite lookup_empty in Hl.
  - intros I [title sections] m0 m1 HI [Hsound0 Hall0] Hinner.
    enough (Hinv : sound m1
                   /\ (forall permalink, is_Some (m0 !! permalink) ->
                                         is_Some (m1 !! permalink))
                   /\ forall j section permalink,
                       (j < length sections)%nat ->
                       sections !! j = Some section ->
                       permalink ∈ Sec.link_targets section ->
                       is_Some (m1 !! permalink)).
    { destruct Hinv as (Hsound1 & Hkeep & Hnew). split; [exact Hsound1|].
      intros i j title' sections' section permalink Hi Hch Hsec Hin.
      destruct (decide (i = I)) as [->|Hne].
      - rewrite HI in Hch. injection Hch as <- <-.
        eapply Hnew; [|exact Hsec|exact Hin]. by eapply lookup_lt_Some.
      - apply Hkeep. eapply Hall0; [|exact Hch|exact Hsec|exact Hin]. lia. }
    revert Hinner.
    apply (for_each_enumerate_ind
             (fun J m =>
                sound m
                /\ (forall permalink, is_Some (m0 !! permalink) ->
                                      is_Some (m !! permalink))
                /\ forall j section permalink,
                    (j < J)%nat ->
                    sections !! j = Some section ->
                    permalink ∈ Sec.link_targets section ->
                    is_Some (m !! permalink))).
    + split_and!; [done|done|intros; lia].
    + intros J section m m' HJ (Hsound & Hkeep & Hnew) Hstep.
      bind_inv Hstep. rename a into file_name. injection Hstep as <-.
      split_and!.
      * intros permalink f. rewrite foldl_insert_lookup.
        case_bool_decide as Hin; [|apply Hsound].
        intros [= <-]. by exists I, J, title, sections, section.
      * intros permalink Hsome. rewrite foldl_insert_lookup.
        case_bool_decide; [by eexists|by apply Hkeep].
      * intros j section' permalink Hj Hsec Hin. rewrite foldl_insert_lookup.
        case_bool_decide as Hin'; [by eexists|].
        destruct (decide (j = J)) as [->|Hne].
        -- rewrite HJ in Hsec. by injection Hsec as <-.
        -- eapply Hnew; [|exact Hsec|exact Hin]. lia.
Qed.

(** X16. The index that [compile_chapters] builds from the sections holds
    the permalinks of the posts and nothing else: every permalink listed by a
    section is a key of the index, and the value of a key is the file name of
    a section that lists it; so a permalink that one section only lists has
    for value the file name of that section. *)
Theorem map_permalinks_index (fuel : nat) (chapters : list (str * list Sec.t))
    (anchor_sections : gmap str str) :
  map_permalinks fuel chapters = Ok anchor_sections ->
  (forall permalink file_name,
      anchor_sections !! permalink = Some file_name ->
      exists i j title sections section,
        chapters !! i = Some (title, sections)
        /\ sections !! j = Some section
        /\ permalink ∈ Sec.link_targets section
        /\ section_file_name fuel (digits_of_len chapters) (N.of_nat i)
             (digits_of_len sections) (N.of_nat j) title
           = Ok file_name)
  /\ (forall i j title sections section permalink,
        chapters !! i = Some (title, sections) ->
        sections !! j = Some section ->
        permalink ∈ Sec.link_targets section ->
        is_Some (anchor_sections !! permalink))
  /\ (forall i j title sections section permalink,
        chapters !! i = Some (title, sections) ->
        sections !! j = Some section ->
        permalink ∈ Sec.link_targets section ->
        (forall i' j' title' sections' section',
            chapters !! i' = Some (title', sections') ->
            sections' !! j' = Some section' ->
            permalink ∈ Sec.link_targets section' -> i' = i /\ j' = j) ->
        exists file_name,
          anchor_sections !! permalink = Some file_name
          /\ section_file_name fuel (digits_of_len chapters) (N.of_nat i)
               (digits_of_len sections) (N.of_nat j) title
             = Ok file_name).
Proof.
  intros [Hsound Hall]%map_permalinks_spec. split_and!; [done|done|].
  intros i j title sections section permalink Hch Hs Hin Hone.
  destruct (Hall _ _ _ _ _ _ Hch Hs Hin) as [file_name Hl].
  exists file_name. split; [done|].
  destruct (Hsound _ _ Hl) as (i' & j' & title' & sections' & section'
                                & Hch' & Hs' & Hin' & Hname).
  destruct (Hone _ _ _ _ _ Hch' Hs' Hin') as [-> ->].
  rewrite Hch in Hch'. by injection Hch' as <- <-.
Qed.

Lemma map_permalinks_index_witness :
  exists anchor_sections,
    map_permalinks 0 linked_chapters = Ok anchor_sections
    /\ is_Some (anchor_sections !! lit "/posts/7")
    /\ is_Some (anchor_sections !! lit "/replies/12#reply-12").
Proof.
  destruct (compile_chapters_ok_inv 0 linked_chapters linked_compiled
              ltac:(vm_compute; reflexivity)) as (anchor_sections & Hrun & _).
  exists anchor_sections. split; [done|].
  destruct (map_permalinks_index 0 linked_chapters anchor_sections Hrun)
    as (_ & Hall & _).
  split.
  - by apply (Hall 0%nat 0%nat (lit "One") _ _ (lit "/posts/7") eq_refl eq_refl); left.
  - by apply (Hall 1%nat 0%nat (lit "Two") _ _ (lit "/replies/12#reply-12")
                eq_refl eq_refl); left.
Defined.

(** ** The compiled sections *)

(** Every cell of the result of [compile_chapters]: its title is the
    chapter's, its name is the name of its place, its content is the
    section's document with the links rewritten. *)
Lemma compiled_cell (fuel : nat) (chapters : list (str * list Sec.t))
    (compiled : list (list EpubHtml.t)) :
  compile_chapters fuel chapters = Ok compiled ->
  exists anchor_sections,
    map_permalinks fuel chapters = Ok anchor_sections
    /\ length compiled = length chapters
    /\ forall i title sections epubs,
        chapters !! i = Some (title, sections) -> compiled !! i = Some epubs ->
        length epubs = length sections
        /\ forall j section epub,
            sections !! j = Some section -> epubs !! j = Some epub ->
            exists file_name,
              section_file_name fuel (digits_of_len chapters) (N.of_nat i)
                (digits_of_len sections) (N.of_nat j) title = Ok file_name
              /\ epub = EpubHtml.mk title file_name
                          (rewrite_links anchor_sections (Sec.html section)).
Proof.
  intros (anchor_sections & Hindex & Hsections)%compile_chapters_ok_inv.
  exists anchor_sections. split; [done|].
  apply compile_sections_lookup in Hsections as [Hlen Hrows].
  unfold replace_links in Hlen, Hrows. rewrite map_fmap in Hlen, Hrows.
  rewrite length_fmap in Hlen. split; [done|].
  intros i title sections epubs Hch Hep.
  assert (Hch' : ((fun '(title, sections) =>
                     (title, List.map (rewrite_section anchor_sections) sections))
                    <$> chapters) !! i
                 = Some (title, rewrite_section anchor_sections <$> sections)).
  { by rewrite list_lookup_fmap, Hch. }
  destruct (Hrows i _ _ _ Hch' Hep) as [Hlen' Hcells].
  rewrite length_fmap in Hlen'. split; [done|].
  intros j section epub Hs He.
  assert (Hs' : (rewrite_section anchor_sections <$> sections) !! j
                = Some (rewrite_section anchor_sections section)).
  { by rewrite list_lookup_fmap, Hs. }
  destruct (Hcells j _ _ Hs' He) as (file_name & Hname & ->).
  exists file_name. split; [|by rewrite rewrite_section_html].
  unfold digits_of_len, len in Hname |- *. rewrite !length_fmap in Hname. exact Hname.
Qed.

Lemma rewrite_links_text (anchor_sections : gmap str str) (n : Node) :
  get_text (rewrite_links anchor_sections n) = get_text n.
Proof.
  induction n as [s|name attrs cs IH] using Node_children_ind; [done|].
  cbn [rewrite_links get_text].
  induction IH as [|c cs Hc _ IHcs]; [done|].
  cbn [List.map flat_map]. by rewrite Hc, IHcs.
Qed.

Lemma attr_get_set_ne (k k' v : str) (attrs : list (str * str)) :
  k <> k' -> attr_get k (attr_set k' v attrs) = attr_get k attrs.
Proof.
  intros Hne. induction attrs as [|[k0 v0] attrs IH]; cbn [attr_set attr_get].
  - by rewrite bool_decide_eq_false_2 by done.
  - case_bool_decide as Hk0; cbn [attr_get].
    + subst k0. by rewrite !bool_decide_eq_false_2 by done.
    + by rewrite IH.
Qed.

Lemma rewrite_href_other (anchor_sections : gmap str str) (attrs : list (str * str))
    (k : str) :
  k <> lit "href" ->
  attr_get k (rewrite_href anchor_sections attrs) = attr_get k attrs.
Proof.
  intros Hne. unfold rewrite_href.
  destruct (attr_get (lit "href") attrs) as [raw_url|]; [|done].
  destruct (if REPLY_RE_match raw_url then _ else _).
  - by apply attr_get_set_ne.
  - case_bool_decide; [|done]. by apply attr_get_set_ne.
Qed.

Lemma rewrite_links_find_all (anchor_sections : gmap str str) (name : str) (n : Node) :
  find_all name any_attrs (rewrite_links anchor_sections n)
  = rewrite_links anchor_sections <$> find_all name any_attrs n.
Proof.
  unfold find_all. rewrite rewrite_links_descendants.
  induction (descendants n) as [|d ds IH]; [done|].
  rewrite fmap_cons. cbn [List.filter].
  rewrite rewrite_links_is_tag. unfold any_attrs at 1 3. rewrite !andb_true_r.
  destruct (is_tag name d); [|exact IH].
  by rewrite fmap_cons, IH.
Qed.

Lemma rewrite_links_other_attrs (anchor_sections : gmap str str) (n : Node) (k : str) :
  k <> lit "href" ->
  attr_get k (attrs_of (rewrite_links anchor_sections n)) = attr_get k (attrs_of n).
Proof.
  intros Hne. rewrite rewrite_links_attrs.
  destruct (is_tag (lit "a") n); [|done]. by apply rewrite_href_other.
Qed.

(** X17. Rewriting the links changes nothing but the [href]s: the text of a
    compiled section is the text of the section, and for every tag name and
    every attribute other than [href], the tags of that name carry the same
    values, in the same order, before and after; so the anchors of the posts
    keep their [id]s. *)
Theorem compile_chapters_keeps_text
    (fuel : nat) (chapters : list (str * list Sec.t))
    (compiled : list (list EpubHtml.t)) :
  compile_chapters fuel chapters = Ok compiled ->
  Forall2
    (fun chapter epubs =>
       Forall2 (fun section epub =>
                  get_text (EpubHtml.content epub) = get_text (Sec.html section)
                  /\ forall name k,
                      k <> lit "href" ->
                      (fun d => attr_get k (attrs_of d))
                        <$> find_all name any_attrs (EpubHtml.content epub)
                      = (fun d => attr_get k (attrs_of d))
                          <$> find_all name any_attrs (Sec.html section))
               chapter.2 epubs)
    chapters compiled.
Proof.
  intros (anchor_sections & _ & Hlen & Hrows)%compiled_cell.
  apply Forall2_same_length_lookup. split; [done|].
  intros i [title sections] epubs Hch Hep. simpl.
  destruct (Hrows i _ _ _ Hch Hep) as [Hlen' Hcells].
  apply Forall2_same_length_lookup. split; [done|].
  intros j section epub Hs He.
  destruct (Hcells j _ _ Hs He) as (file_name & _ & ->).
  cbn [EpubHtml.content]. split.
  - apply rewrite_links_text.
  - intros name k Hk. rewrite rewrite_links_find_all, <- list_fmap_compose.
    apply list_fmap_ext. intros; simpl. by apply rewrite_links_other_attrs.
Qed.

Lemma compile_chapters_keeps_text_witness :
  Forall2
    (fun chapter epubs =>
       Forall2 (fun section epub =>
                  get_text (EpubHtml.content epub) = get_text (Sec.html section)
                  /\ forall name k,
                      k <> lit "href" ->
                      (fun d => attr_get k (attrs_of d))
                        <$> find_all name any_attrs (EpubHtml.content epub)
                      = (fun d => attr_get k (attrs_of d))
                          <$> find_all name any_attrs (Sec.html section))
               chapter.2 epubs)
    linked_chapters linked_compiled.
Proof.
  apply (compile_chapters_keeps_text 0). vm_compute. reflexivity.
Defined.

(** X18. Every section that [compile_chapters] returns carries the title of
    its chapter, and its file name is [Text/] followed by a valid name (not
    empty, without banned characters, at most 255 bytes long) that ends in
    [.xhtml]: sanitizing never loses the extension. *)
Theorem compiled_names_valid
    (fuel : nat) (chapters : list (str * list Sec.t))
    (compiled : list (list EpubHtml.t)) :
  compile_chapters fuel chapters = Ok compiled ->
  Forall2
    (fun chapter epubs =>
       Forall (fun epub =>
                 EpubHtml.title epub = chapter.1
                 /\ exists stem,
                     EpubHtml.file_name epub = lit "Text/" ++ stem ++ lit ".xhtml"
                     /\ valid_name (stem ++ lit ".xhtml"))
              epubs)
    chapters compiled.
Proof.
  intros (anchor_sections & _ & Hlen & Hrows)%compiled_cell.
  apply Forall2_same_length_lookup. split; [done|].
  intros i [title sections] epubs Hch Hep. simpl.
  destruct (Hrows i _ _ _ Hch Hep) as [Hlen' Hcells].
  apply Forall_lookup. intros j epub He.
  destruct (lookup_lt_is_Some_2 sections j) as [section Hs].
  { rewrite <- Hlen'. by eapply lookup_lt_Some. }
  destruct (Hcells j _ _ Hs He) as (file_name & Hname & ->). simpl.
  split; [done|].
  rewrite section_file_name_unfold in Hname. bind_inv Hname. rename a into name.
  injection Hname as <-.
  pose proof (make_filename_ok_valid _ _ _ Hm) as Hvalid.
  set (prefix := section_prefix (digits_of_len chapters) (N.of_nat i)
                   (digits_of_len sections) (N.of_nat j)) in *.
  pose proof (filtered_section_name prefix title
                (section_prefix_clean _ _ _ _)) as Hfiltered.
  destruct (make_filename_cases fuel (prefix ++ title ++ lit ").xhtml"))
    as [(_ & Hr)|[(_ & _ & Hr)|[(_ & _ & _ & Hr)|(_ & Hlong & Hext & Hr)]]];
    rewrite Hr in Hm; try done.
  - injection Hm as <-. rewrite Hfiltered in Hvalid |- *.
    exists (prefix ++ filter_filename title ++ lit ")"). split; [|done].
    by rewrite <- !app_assoc.
  - destruct (truncated_name_shape _ _ _ Hlong Hext Hm)
      as (k & stem & ext & Hsplit & _ & Hnodot & _ & -> & _).
    rewrite Hfiltered in Hsplit.
    apply last_dot_unique in Hsplit as [<- <-]; [|apply no_dot_in_xhtml|done].
    exists (take k (prefix ++ filter_filename title ++ lit ")")). split; done.
Qed.

Lemma compiled_names_valid_witness :
  Forall2
    (fun chapter epubs =>
       Forall (fun epub =>
                 EpubHtml.title epub = chapter.1
                 /\ exists stem,
                     EpubHtml.file_name epub = lit "Text/" ++ stem ++ lit ".xhtml"
                     /\ valid_name (stem ++ lit ".xhtml"))
              epubs)
    linked_chapters linked_compiled.
Proof.
  apply (compiled_names_valid 0). vm_compute. reflexivity.
Defined.

(** ** The table of contents *)

Lemma toc_heads (compiled : list (list EpubHtml.t)) :
  Forall (fun epubs => epubs <> []) compiled ->
  exists entries,
    toc compiled = Return entries
    /\ length entries = length compiled
    /\ forall i epubs entry,
        compiled !! i = Some epubs -> entries !! i = Some entry ->
        epubs !! 0%nat = Some entry.
Proof.
  induction 1 as [|epubs compiled Hne _ (entries & Htoc & Hlen & Hheads)]; simpl.
  - exists []. split_and!; [done|done|intros i ? ? Hi; by destruct i].
  - destruct epubs as [|first epubs]; [done|]. rewrite Htoc.
    exists (first :: entries). split_and!; [done|simpl; lia|].
    intros [|i] epubs' entry; simpl.
    + by intros [= <-] [= <-].
    + apply Hheads.
Qed.

Lemma toc_empty_chapter (compiled : list (list EpubHtml.t)) :
  [] ∈ compiled -> toc compiled = Throw (IndexError (lit "list index out of range")).
Proof.
  induction compiled as [|epubs compiled IH]; [by intros ?%elem_of_nil|].
  intros [Heq|Hin]%elem_of_cons; simpl.
  - by subst epubs.
  - destruct epubs as [|first epubs]; [done|]. by rewrite IH.
Qed.

Section contents.
Context `{Formatter}.

Lemma download_chapter_sections (soup : Node) (image_map image_map' : ImageMap.t)
    (authors authors' : list (option str)) (chapter : str * list Sec.t) :
  download_chapter soup image_map authors = Ok (chapter, image_map', authors') ->
  chapter.2 <> [].
Proof.
  unfold download_chapter. intros Hd. bind_inv Hd. bind_inv Hd.
  destruct a0 as [[sections im] au]. injection Hd as <- _ _. simpl.
  unfold render_posts in Hm0. bind_inv Hm0. bind_inv Hm0.
  destruct a1 as [[[yielded out] im1] au1]. injection Hm0 as <- _ _.
  by destruct yielded.
Qed.

(** X19. The table of contents that [main] builds, [chapter[0]] for every
    chapter, never fails on chapters that [download_chapter] returned: every
    such chapter has a first section.  The table has one entry per chapter,
    with the chapter's title and the file name of its section number 0.  A
    chapter without sections would raise [IndexError]. *)
Theorem toc_of_downloaded_chapters
    (fuel : nat) (chapters : list (str * list Sec.t))
    (compiled : list (list EpubHtml.t)) :
  Forall (fun chapter =>
            exists soup image_map authors image_map' authors',
              download_chapter soup image_map authors
              = Ok (chapter, image_map', authors'))
         chapters ->
  compile_chapters fuel chapters = Ok compiled ->
  (exists entries,
      toc compiled = Return entries
      /\ length entries = length chapters
      /\ forall i title sections entry,
          chapters !! i = Some (title, sections) -> entries !! i = Some entry ->
          EpubHtml.title entry = title
          /\ section_file_name fuel (digits_of_len chapters) (N.of_nat i)
               (digits_of_len sections) 0 title
             = Ok (EpubHtml.file_name entry))
  /\ (forall others,
        [] ∈ others -> toc others = Throw (IndexError (lit "list index out of range"))).
Proof.
  intros Hdl Hcompiled. split; [|apply toc_empty_chapter].
  pose proof Hcompiled as (anchor_sections & _ & Hlen & Hrows)%compiled_cell.
  destruct (toc_heads compiled) as (entries & Htoc & Hlen' & Hheads).
  { apply Forall_lookup. intros i epubs Hep.
    destruct (lookup_lt_is_Some_2 chapters i) as [[title sections] Hch].
    { rewrite <- Hlen. by eapply lookup_lt_Some. }
    destruct (Hrows i _ _ _ Hch Hep) as [Hlen'' _].
    rewrite Forall_lookup in Hdl.
    destruct (Hdl i _ Hch) as (soup & im & au & im' & au' & Hd).
    apply download_chapter_sections in Hd. simpl in Hd.
    destruct epubs; [|done]. by destruct sections. }
  exists entries. split_and!; [done|lia|].
  intros i title sections entry Hch Hentry.
  destruct (lookup_lt_is_Some_2 compiled i) as [epubs Hep].
  { rewrite <- Hlen'. by eapply lookup_lt_Some. }
  specialize (Hheads i epubs entry Hep Hentry).
  destruct (Hrows i _ _ _ Hch Hep) as [Hlen'' Hcells].
  destruct (lookup_lt_is_Some_2 sections 0%nat) as [section Hs].
  { rewrite <- Hlen''. by eapply lookup_lt_Some. }
  destruct (Hcells 0%nat _ _ Hs Hheads) as (file_name & Hname & ->). done.
Qed.

End contents.

(** The chapter of the sample page is one that [download_chapter] returns. *)
Lemma sample_chapter_downloaded :
  download_chapter sample_page ImageMap.init []
  = Ok (sample_chapter,
        foldl ImageMap.add_icon ImageMap.init
          [lit "https://i.example.org/icons/0.png";
           lit "https://i.example.org/icons/1.png"],
        [Some (lit "bob")]).
Proof. vm_compute. reflexivity. Qed.

Lemma toc_of_downloaded_chapters_witness :
  exists entries,
    toc sample_compiled = Return entries
    /\ length entries = 1%nat
    /\ forall i title sections entry,
        [sample_chapter] !! i = Some (title, sections) -> entries !! i = Some entry ->
        EpubHtml.title entry = title
        /\ section_file_name 0 (digits_of_len [sample_chapter]) (N.of_nat i)
             (digits_of_len sections) 0 title
           = Ok (EpubHtml.file_name entry).
Proof.
  apply (toc_of_downloaded_chapters 0 [sample_chapter] sample_compiled).
  - constructor; [|constructor].
    eexists sample_page, ImageMap.init, [], _, _. exact sample_chapter_downloaded.
  - vm_compute. reflexivity.
Defined.

(** ** The cookie file *)

Lemma str_split_two (c : N) (a b : str) :
  c ∉ a -> c ∉ b -> str_split c (a ++ c :: b) = [a; b].
Proof.
  intros Ha Hb. induction a as [|x a IH]; simpl.
  - by rewrite N.eqb_refl, str_split_absent.
  - apply not_elem_of_cons in Ha as [Hx Ha].
    destruct (N.eqb_spec x c) as [->|_]; [done|]. by rewrite IH.
Qed.

Lemma str_split_two_inv (c : N) (s a b : str) :
  str_split c s = [a; b] -> s = a ++ c :: b /\ (c ∉ a) /\ (c ∉ b).
Proof.
  intros Hsplit. pose proof (str_join_split c s) as Hjoin.
  pose proof (str_split_no_sep c s) as Hsep. rewrite Hsplit in Hjoin, Hsep.
  apply Forall_cons in Hsep as [Ha Hsep]. apply Forall_cons in Hsep as [Hb _].
  simpl in Hjoin. by rewrite <- Hjoin.
Qed.

Lemma str_split_length (c : N) (s : str) :
  length (str_split c s) = S (length (List.filter (N.eqb c) s)).
Proof.
  induction s as [|x s IH]; [done|]. simpl.
  rewrite (N.eqb_sym c x). destruct (x =? c); simpl; [by rewrite IH|].
  destruct (str_split c s); simpl in *; [done|]. by rewrite <- IH.
Qed.

Lemma cookie_name_no_equals : ord "=" ∉ COOKIE_NAME.
Proof. intros Hin%str_in_spec. vm_compute in Hin. discriminate. Qed.

(** X20. [get_cookies] accepts the cookie file exactly when it reads
    [_glowfic_constellation_production=] followed by a value without an
    equals sign; the cookie it then returns is that value with the white
    space around it removed, under that one name.  Without a file it returns
    no cookie. *)
Theorem get_cookies_accepts (raw : str) (cookies : gmap str str) :
  (get_cookies (Some raw) = Return cookies
   <-> exists value,
        raw = COOKIE_NAME ++ lit "=" ++ value
        /\ (ord "=" ∉ value)
        /\ cookies = {[ COOKIE_NAME := strip value ]})
  /\ get_cookies None = Return ∅.
Proof.
  split; [|done]. unfold get_cookies. split.
  - destruct (str_split (ord "=") raw) as [|name [|cookie [|]]] eqn:Hsplit; try done.
    case_bool_decide as Hname; [done|]. intros [= <-]. subst name.
    apply str_split_two_inv in Hsplit as (-> & _ & Hvalue).
    exists cookie. by rewrite insert_empty.
  - intros (value & -> & Hvalue & ->).
    change (lit "=" ++ value) with (ord "=" :: value).
    rewrite str_split_two; [|apply cookie_name_no_equals|done].
    rewrite bool_decide_eq_false_2 by (intros Hne; by apply Hne).
    by rewrite insert_empty.
Qed.

Lemma get_cookies_accepts_witness :
  get_cookies (Some (lit "_glowfic_constellation_production= abc" ++ [10]))
  = Return {[ COOKIE_NAME := lit "abc" ]}.
Proof.
  apply (get_cookies_accepts (lit "_glowfic_constellation_production= abc" ++ [10])).
  exists (lit " abc" ++ [10]). split_and!.
  - reflexivity.
  - intros Hin%str_in_spec. vm_compute in Hin. discriminate.
  - reflexivity.
Defined.

(** X21. The cookie files that [get_cookies] rejects, each with a
    [ValueError]: a file without an equals sign cannot be unpacked (not
    enough values), a file with two or more cannot either (too many values;
    so a cookie value that contains an equals sign is refused), and a file
    whose text before the equals sign is not the cookie's name, a space or a
    line break included, gets the error about the start of the file. *)
Theorem get_cookies_rejects (raw : str) :
  (ord "=" ∉ raw ->
   get_cookies (Some raw)
   = Throw (ValueError (lit "not enough values to unpack (expected 2, got 1)")))
  /\ (forall a b c,
        raw = a ++ lit "=" ++ b ++ lit "=" ++ c ->
        get_cookies (Some raw)
        = Throw (ValueError (lit "too many values to unpack (expected 2)")))
  /\ (forall name value,
        raw = name ++ lit "=" ++ value ->
        ord "=" ∉ name -> ord "=" ∉ value -> name <> COOKIE_NAME ->
        get_cookies (Some raw)
        = Throw (ValueError (lit "cookie file must start with " ++ [34] ++ COOKIE_NAME
                             ++ lit "=" ++ [34] ++ lit " (no quotes)"))).
Proof.
  unfold get_cookies. split_and!.
  - intros Hno. by rewrite str_split_absent.
  - intros a b c ->.
    pose proof (str_split_length (ord "=") (a ++ lit "=" ++ b ++ lit "=" ++ c)) as Hlen.
    change (lit "=") with [ord "="] in Hlen |- *.
    rewrite !List.filter_app, !length_app in Hlen. cbn [List.filter] in Hlen.
    rewrite N.eqb_refl in Hlen. cbn [length] in Hlen.
    destruct (str_split _ _) as [|x [|y [|z rest]]]; cbn [length] in Hlen; [lia..|done].
  - intros name value -> Hname Hvalue Hne.
    change (lit "=" ++ value) with (ord "=" :: value).
    rewrite str_split_two by done. by rewrite bool_decide_eq_true_2.
Qed.

Lemma get_cookies_rejects_witness :
  get_cookies (Some (lit "_glowfic_constellation_production=abc=="))
  = Throw (ValueError (lit "too many values to unpack (expected 2)")).
Proof.
  destruct (get_cookies_rejects (lit "_glowfic_constellation_production=abc=="))
    as (_ & Hmany & _).
  apply (Hmany (lit "_glowfic_constellation_production") (lit "abc") (lit "=")).
  reflexivity.
Defined.

(** ** The description of the book *)

Lemma foldl_max_spec (stamps : list Z) (first : Z) :
  let latest := foldl Z.max first stamps in
  latest ∈ first :: stamps /\ Forall (fun s => (s <= latest)%Z) (first :: stamps).
Proof.
  revert first. induction stamps as [|s stamps IH]; intros first; simpl.
  - split; [left|]. by repeat constructor.
  - destruct (IH (first `max` s)%Z) as [Hin Hall]. simpl in Hin, Hall.
    apply Forall_cons in Hall as [Hmax Hall]. split.
    + apply elem_of_cons in Hin as [->|Hin]; [|by do 2 right].
      destruct (Z.max_spec first s) as [[_ ->]|[_ ->]]; [right; left|left].
    + repeat constructor; [lia|lia|done].
Qed.

(** X22. A [BookSpec] cannot be made of an empty list of chapters: [max]
    raises [ValueError].  Of a list that is not empty it is made, and its
    [last_update] is the latest of the chapters' time stamps. *)
Theorem BookSpec_last_update (stamped_urls : list StampedURL.t) (title : str) :
  (stamped_urls = [] ->
   BookSpec.init stamped_urls title
   = Throw (ValueError (lit "max() arg is an empty sequence")))
  /\ (stamped_urls <> [] ->
      exists spec,
        BookSpec.init stamped_urls title = Return spec
        /\ BookSpec.stamped_urls spec = stamped_urls
        /\ BookSpec.title spec = title
        /\ BookSpec.last_update spec ∈ StampedURL.stamp <$> stamped_urls
        /\ Forall (fun stamped_url =>
                     (StampedURL.stamp stamped_url <= BookSpec.last_update spec)%Z)
                  stamped_urls).
Proof.
  unfold BookSpec.init. split; [by intros ->|].
  destruct stamped_urls as [|first rest]; [done|]. intros _.
  rewrite fmap_cons. eexists. split_and!; [done|done|done|..]; simpl.
  - apply foldl_max_spec.
  - pose proof (foldl_max_spec (StampedURL.stamp <$> rest) (StampedURL.stamp first))
      as [_ Hall].
    simpl in Hall. rewrite Forall_forall in Hall.
    apply Forall_forall. intros stamped_url Hin. apply Hall.
    rewrite <- fmap_cons. by apply list_elem_of_fmap_2.
Qed.

Lemma BookSpec_last_update_witness :
  let stamped_urls :=
    [ StampedURL.mk (lit "https://glowfic.com/posts/1") 5;
      StampedURL.mk (lit "https://glowfic.com/posts/2") 9;
      StampedURL.mk (lit "https://glowfic.com/posts/3") 7 ] in
  exists spec,
    BookSpec.init stamped_urls (lit "A board") = Return spec
    /\ BookSpec.stamped_urls spec = stamped_urls
    /\ BookSpec.title spec = lit "A board"
    /\ BookSpec.last_update spec ∈ StampedURL.stamp <$> stamped_urls
    /\ Forall (fun stamped_url =>
                 (StampedURL.stamp stamped_url <= BookSpec.last_update spec)%Z)
              stamped_urls.
Proof.
  intros stamped_urls. apply (BookSpec_last_update stamped_urls (lit "A board")).
  discriminate.
Defined.

(** ** What a rendered post holds *)

Lemma find_is_tag (name : str) (p : list (str * str) -> bool) (n d : Node) :
  find name p n = Some d -> is_tag name d = true /\ p (attrs_of d) = true.
Proof.
  unfold find, find_all. intros Hhead.
  apply head_Some_elem_of, list_elem_of_In, List.filter_In in Hhead as [_ Hd].
  by apply andb_true_iff in Hd.
Qed.

Lemma get_text_contents (name : str) (n : Node) :
  is_tag name n = true -> get_text n = flat_map get_text (contents_of n).
Proof. by destruct n. Qed.

(** X23. What [render_post] returns is fixed by the post and the registry:
    a [div] of class [post] that holds, in this order, the anchor (an [a]
    tag with the anchor id of the permalink), the header (a [p] with a
    [strong] that reads the names the post gives of character, screen name
    and author, joined by [ / ]), the icon if the post has one (an [img] of
    class [icon] whose [src] is [../] and the registry's path for the icon's
    URL, with the icon's [alt]), and then the children of the post's content,
    unchanged and in their order.  Its text is the header line followed by
    the text of the content, and its author is the post's. *)
Theorem render_post_keeps_content (post : Node) (image_map image_map' : ImageMap.t)
    (rendered : RenderedPost.t) :
  render_post post image_map = Ok (rendered, image_map') ->
  let names :=
    omap id [ find_text (lit "post-character") post;
              find_text (lit "post-screenname") post;
              find_text (lit "post-author") post ] in
  let anchor :=
    Tag (lit "a") [(lit "id", anchor_id (RenderedPost.permalink rendered))] [] in
  let header :=
    Tag (lit "p") []
      [Tag (lit "strong") [] [NavigableString (str_join (lit " / ") names)]] in
  exists content icons,
    find (lit "div") (has_class (lit "post-content")) post = Some content
    /\ RenderedPost.html rendered
       = Tag (lit "div") [(lit "class", lit "post")]
           (anchor :: header :: icons ++ contents_of content)
    /\ match find_icon post with
       | None => icons = []
       | Some icon =>
           exists src alt image,
             attr_get (lit "src") (attrs_of icon) = Some src
             /\ attr_get (lit "alt") (attrs_of icon) = Some alt
             /\ ImageMap.map image_map !! src = Some image
             /\ icons
                = [Tag (lit "img")
                     [(lit "class", lit "icon");
                      (lit "src",
                       lit "../"
                       ++ MappedImage.to_filename image (ImageMap.icon_id_width image_map));
                      (lit "alt", alt)]
                     []]
       end
    /\ get_text (RenderedPost.html rendered)
       = str_join (lit " / ") names ++ get_text content
    /\ RenderedPost.author rendered = find_text (lit "post-author") post.
Proof.
  intros Hr names anchor header. unfold render_post in Hr.
  bind_inv Hr. rename a into permalink.
  bind_inv Hr. destruct a as [children im]. injection Hr as <- <-.
  unfold anchor, header, names, anchor_id.
  cbn [RenderedPost.permalink RenderedPost.html RenderedPost.author].
  destruct (find_icon post) as [icon|].
  - bind_inv Hm0. rename a into src. bind_inv Hm0. destruct a as [path im1].
    bind_inv Hm0. rename a into alt. bind_inv Hm0.
    destruct (find (lit "div") (has_class (lit "post-content")) post)
      as [content|] eqn:Hcontent; [|discriminate].
    apply find_is_tag in Hcontent as [Hdiv _].
    injection Hm4 as <-. injection Hm0 as <- _.
    apply get_icon_ok_inv in Hm2 as (_ & image & Himage & ->).
    unfold getitem in Hm1, Hm3.
    destruct (attr_get (lit "src") (attrs_of icon)) as [src'|]; [|discriminate].
    destruct (attr_get (lit "alt") (attrs_of icon)) as [alt'|]; [|discriminate].
    injection Hm1 as ->. injection Hm3 as ->.
    exists content. eexists [_]. split_and!; [done| |by exists src, alt, image| |done].
    + by destruct (bool_decide _).
    + rewrite (get_text_contents _ _ Hdiv).
      destruct (bool_decide _); cbn [get_text flat_map app];
        by rewrite ?app_nil_l, ?app_nil_r.
  - bind_inv Hm0.
    destruct (find (lit "div") (has_class (lit "post-content")) post)
      as [content|] eqn:Hcontent; [|discriminate].
    apply find_is_tag in Hcontent as [Hdiv _].
    injection Hm1 as <-. injection Hm0 as <- _.
    exists content, []. split_and!; [done| |done| |done].
    + by destruct (bool_decide _).
    + rewrite (get_text_contents _ _ Hdiv).
      destruct (bool_decide _); cbn [get_text flat_map app];
        by rewrite ?app_nil_l, ?app_nil_r.
Qed.

Lemma render_post_keeps_content_witness :
  RenderedPost.html bare_rendered
  = Tag (lit "div") [(lit "class", lit "post")]
      [ Tag (lit "a") [(lit "id", lit "post-7")] [];
        Tag (lit "p") [] [Tag (lit "strong") [] [NavigableString (lit "bob")]];
        NavigableString (lit "Hello.") ]
  /\ get_text (RenderedPost.html bare_rendered) = lit "bob" ++ lit "Hello.".
Proof.
  destruct (render_post_keeps_content bare_post ImageMap.init ImageMap.init bare_rendered)
    as (content & icons & Hcontent & Hhtml & Hicons & Htext & _).
  { vm_compute. reflexivity. }
  vm_compute in Hcontent. injection Hcontent as <-.
  vm_compute in Hicons. subst icons.
  split; [rewrite Hhtml|rewrite Htext]; vm_compute; reflexivity.
Defined.

(** ** The extension of an image *)

(** X24. A URL that is new to the registry gets the next id and, for
    extension, what follows the last period of the URL's path; when the path
    has no period, the whole path, slashes included, is the extension. *)
Theorem add_icon_extension (self : ImageMap.t) (url : str) :
  ImageMap.map self !! url = None ->
  let path := urllib.path (urllib.urlparse url) in
  exists image,
    ImageMap.map (ImageMap.add_icon self url) !! url = Some image
    /\ MappedImage.id image = ImageMap.next_icon self
    /\ (ord "." ∉ MappedImage.ext image)
    /\ (ord "." ∉ path -> MappedImage.ext image = path)
    /\ (forall stem ext,
          path = stem ++ lit "." ++ ext -> ord "." ∉ ext ->
          MappedImage.ext image = ext).
Proof.
  intros Hnew path. unfold ImageMap.add_icon. rewrite Hnew. cbn [ImageMap.map].
  rewrite lookup_insert_eq. eexists. split; [done|]. cbn [MappedImage.id MappedImage.ext].
  fold path. destruct (split_extension path) as [Hnodot Hsplit].
  split_and!; [done|done| |].
  - intros Hpath. by rewrite str_split_absent.
  - intros stem ext Hpath Hext. destruct Hsplit as [[_ Hwhole]|Hsplit].
    + exfalso. rewrite <- Hwhole in Hnodot. apply Hnodot. rewrite Hpath.
      change (lit ".") with [ord "."]. set_solver.
    + rewrite Hpath in Hsplit at 1.
      by apply last_dot_unique in Hsplit as [_ <-].
Qed.

Lemma add_icon_extension_witness :
  let url := lit "https://www.gravatar.com/avatar/abc" in
  exists image,
    ImageMap.map (ImageMap.add_icon ImageMap.init url) !! url = Some image
    /\ MappedImage.id image = 0
    /\ MappedImage.ext image = lit "/avatar/abc".
Proof.
  intros url.
  destruct (add_icon_extension ImageMap.init url (lookup_empty _))
    as (image & Hl & Hid & _ & Hwhole & _).
  exists image. split_and!; [done|done|].
  apply Hwhole. intros Hin%str_in_spec. vm_compute in Hin. discriminate.
Defined.

(** ** Where the internal links lead *)





Section anchors.
Context `{Formatter}.




End anchors.


(** ** Sections are filled as far as they go *)

Section greedy.
Context `{Formatter}.

Lemma packed_greedily_snoc (sections : list Sec.t) (s s' : Sec.t) :
  packed_greedily (sections ++ [s]) -> closed_when_full s s' ->
  packed_greedily ((sections ++ [s]) ++ [s']).
Proof.
  intros Hchain Hfull. induction sections as [|x sections IH]; simpl in *.
  - by split.
  - destruct sections as [|y sections]; simpl in *.
    + destruct Hchain as [Hxs _]. by repeat split.
    + destruct Hchain as [Hxy Hchain]. split; [done|]. by apply IH.
Qed.

Lemma packed_greedily_last (sections : list Sec.t) (s s' : Sec.t) :
  packed_greedily (sections ++ [s]) ->
  (forall x, closed_when_full x s -> closed_when_full x s') ->
  packed_greedily (sections ++ [s']).
Proof.
  intros Hchain Hsame. induction sections as [|x sections IH]; simpl in *; [done|].
  destruct sections as [|y sections]; simpl in *.
  - destruct Hchain as [Hxs _]. split; [by apply Hsame|done].
  - destruct Hchain as [Hxy Hchain]. split; [done|]. by apply IH.
Qed.

Lemma packed_greedily_lookup (sections : list Sec.t) (k : nat) (s s' : Sec.t) :
  packed_greedily sections ->
  sections !! k = Some s -> sections !! S k = Some s' -> closed_when_full s s'.
Proof.
  revert k. induction sections as [|x sections IH]; intros k Hchain Hs Hs'; [done|].
  destruct sections as [|y sections]; [done|]. destruct Hchain as [Hxy Hchain].
  destruct k as [|k]; simpl in *.
  - injection Hs as <-. by injection Hs' as <-.
  - by eapply IH.
Qed.

(** X26. The splitter closes a section only when it must: of two sections
    that follow each other, the first with the first post of the second
    would have passed the limit of 200000 bytes. *)
Theorem render_posts_sections_greedy
    (posts : list Node) (image_map image_map' : ImageMap.t)
    (authors authors' : list (option str)) (sections : list Sec.t) :
  render_posts posts image_map authors = Ok (sections, image_map', authors') ->
  forall k s s',
    sections !! k = Some s -> sections !! S k = Some s' ->
    exists post posts',
      Sec.posts s' = post :: posts'
      /\ (200000 < Sec.size s + encoded_size post)%Z.
Proof.
  unfold render_posts. intros Hr.
  bind_inv Hr. bind_inv Hr. destruct a0 as [[[yielded out] im] au].
  injection Hr as <- _ _.
  enough (Hinv : packed_greedily (yielded ++ [out])).
  { intros k s s' Hs Hs'. by apply (packed_greedily_lookup _ k s s' Hinv). }
  revert Hm0.
  apply (for_each_ind (fun _ st => packed_greedily (st.1.1.1 ++ [st.1.1.2]))).
  - done.
  - intros _ post [[[y o] i] u] [[[y' o'] i'] u']. simpl. intros Hchain Hstep.
    unfold render_posts_step in Hstep. bind_inv Hstep. destruct a0 as [r im1].
    destruct (SECTION_SIZE_LIMIT <? _)%Z eqn:Hfull; simpl in Hstep.
    + destruct (0 <? Sec.size o)%Z; injection Hstep as <- <- _ _.
      * apply packed_greedily_snoc; [done|].
        exists (RenderedPost.html r), []. split; [done|]. by apply Z.ltb_lt.
      * apply (packed_greedily_last y o); [done|].
        intros x (p & ps & Hposts & Hsize). exists p, (ps ++ [RenderedPost.html r]).
        split; [|done]. simpl. by rewrite Hposts.
    + injection Hstep as <- <- _ _.
      apply (packed_greedily_last y o); [done|].
      intros x (p & ps & Hposts & Hsize). exists p, (ps ++ [RenderedPost.html r]).
      split; [|done]. simpl. by rewrite Hposts.
Qed.

End greedy.

Lemma render_posts_sections_greedy_witness :
  exists s s' post posts',
    Sec.size s = 76%Z /\ Sec.size s' = 200068%Z
    /\ Sec.posts s' = post :: posts'
    /\ (200000 < Sec.size s + encoded_size post)%Z.
Proof.
  generalize render_posts_long_chapter.
  destruct (render_posts long_chapter ImageMap.init [])
    as [[[sections image_map'] authors']| |] eqn:Hrun;
    cbn [shapes]; intros Hshapes; [|discriminate Hshapes..].
  destruct sections as [|s [|s' sections]]; [discriminate Hshapes..|].
  rewrite !fmap_cons in Hshapes. injection Hshapes as _ Hs _ Hs' _.
  destruct (render_posts_sections_greedy long_chapter ImageMap.init image_map'
              [] authors' (s :: s' :: sections) Hrun 0%nat s s' eq_refl eq_refl)
    as (post & posts' & Hposts & Hsize).
  exists s, s', post, posts'.
  exact (conj Hs (conj Hs' (conj Hposts Hsize))).
Defined.

(** ** Ids are given in the order of first appearance *)

Lemma registered_dom (urls : list str) (self : ImageMap.t) :
  dom (ImageMap.map (foldl ImageMap.add_icon self urls))
  = dom (ImageMap.map self) ∪ list_to_set urls.
Proof.
  apply set_eq. intros url.
  rewrite elem_of_union, !elem_of_dom, elem_of_list_to_set.
  apply registered_after.
Qed.

(** X27. The id of an image is the number of different URLs that were
    registered before its URL first came: ids are given in the order of first
    appearance, and registering a URL again, or any URL after it, does not
    change it. *)
Theorem add_icon_first_seen (before after : list str) (url : str) :
  url ∉ before ->
  exists image,
    ImageMap.map (foldl ImageMap.add_icon ImageMap.init (before ++ url :: after))
      !! url = Some image
    /\ MappedImage.id image = N.of_nat (size (list_to_set (C := gset str) before)).
Proof.
  intros Hnew. rewrite foldl_app. cbn [foldl].
  set (self := foldl ImageMap.add_icon ImageMap.init before).
  assert (ImageMap.map self !! url = None) as Hnone.
  { apply eq_None_not_Some. intros Hsome. apply registered_after in Hsome as [Hinit|Hin].
    - by apply not_is_Some_None in Hinit.
    - done. }
  assert (ImageMap.next_icon self = N.of_nat (size (list_to_set (C := gset str) before)))
    as Hnext.
  { destruct (registry_ok_foldl before ImageMap.init registry_ok_init) as (Hsize & _).
    fold self in Hsize. rewrite Hsize. f_equal.
    rewrite <- size_dom. unfold self. rewrite registered_dom.
    cbn [ImageMap.map ImageMap.init]. by rewrite dom_empty_L, (left_id_L ∅ (∪)). }
  eexists. split.
  - apply foldl_add_icon_keeps. unfold ImageMap.add_icon. rewrite Hnone.
    cbn [ImageMap.map]. apply lookup_insert_eq.
  - exact Hnext.
Qed.

Lemma add_icon_first_seen_witness :
  exists image,
    ImageMap.map
      (foldl ImageMap.add_icon ImageMap.init
         ([sample_icon_url 0; sample_icon_url 1; sample_icon_url 0]
          ++ sample_icon_url 2 :: [sample_icon_url 1]))
      !! sample_icon_url 2 = Some image
    /\ MappedImage.id image
       = N.of_nat (size (list_to_set (C := gset str)
                           [sample_icon_url 0; sample_icon_url 1; sample_icon_url 0])).
Proof.
  apply (add_icon_first_seen
           [sample_icon_url 0; sample_icon_url 1; sample_icon_url 0]
           [sample_icon_url 1] (sample_icon_url 2)).
  rewrite !not_elem_of_cons. split_and!; [by vm_compute..|apply not_elem_of_nil].
Defined.

(** * File names, anchors and the page without a title *)

(** ** The names of the files, by index and title *)





(** Ten chapters: the numbers of the chapters have two digits. *)
Example ten_chapters_names :
  match compile_chapters 0 (replicate 10 (lit "T", [Sec.init; Sec.init])) with
  | Ok compiled => (EpubHtml.file_name <$> concat (take 1 compiled ++ drop 9 compiled))
  | _ => []
  end
  = [ lit "Text/01-0 (T).xhtml"; lit "Text/01-1 (T).xhtml";
      lit "Text/10-0 (T).xhtml"; lit "Text/10-1 (T).xhtml" ].
Proof. vm_compute. reflexivity. Qed.

(** ** The anchor of a post *)

(** What follows the last [c] of a string: it has no [c], and it is the
    whole string when the string has none. *)
Lemma split_last (c : N) (s : str) :
  (c ∉ last_seg (str_split c s))
  /\ (s = last_seg (str_split c s)
      \/ exists before, s = before ++ c :: last_seg (str_split c s)).
Proof.
  pose proof (str_split_nonempty c s) as Hne.
  pose proof (str_split_no_sep c s) as Hsep.
  pose proof (str_join_split c s) as Hjoin.
  destruct (str_split c s) as [|tail init _] using rev_ind; [done|].
  unfold last_seg. rewrite last_snoc. simpl.
  rewrite Forall_app, Forall_singleton in Hsep. destruct Hsep as [_ Htail].
  split; [exact Htail|].
  destruct init as [|p init]; [by left|right].
  rewrite str_join_snoc in Hjoin by done.
  exists (str_join [c] (p :: init)). by rewrite <- Hjoin.
Qed.

Lemma last_seg_after (c : N) (before tail : str) :
  c ∉ tail -> last_seg (str_split c (before ++ c :: tail)) = tail.
Proof.
  intros Htail. destruct (split_last c (before ++ c :: tail)) as [Hlast [Hall|[b Hcut]]].
  - exfalso. apply Hlast. rewrite <- Hall. set_solver.
  - apply not_elem_of_app_cons_inv_r in Hcut as (_ & _ & Heq); [|done..].
    by symmetry.
Qed.

Lemma digit_in_path (c : N) :
  is_digit c = true ->
  negb (str_in c [ord "#"; ord "?"; ord ";"; 9; 10; 13]) = true.
Proof.
  unfold is_digit. intros [Hlo Hhi]%andb_true_iff.
  apply N.leb_le in Hlo, Hhi. apply negb_true_iff, not_true_is_false.
  intros Hin%str_in_spec.
  change (ord "#") with 35 in Hin. change (ord "?") with 63 in Hin.
  change (ord ";") with 59 in Hin.
  rewrite !elem_of_cons, elem_of_nil in Hin. lia.
Qed.

Lemma posts_path_plain (number : str) :
  Forall (fun c => is_digit c = true) number ->
  is_plain_path (lit "/posts/" ++ number) = true.
Proof.
  intros Hdigits. unfold is_plain_path.
  replace (lit "/posts/") with [ord "/"; 112; 111; 115; 116; 115; ord "/"] by done.
  change (lit "//") with [ord "/"; ord "/"]. change (lit "/") with [ord "/"].
  cbn [app startswith]. rewrite !N.eqb_refl. cbn [andb negb].
  replace (112 =? ord "/") with false by done. cbn [andb negb forallb].
  apply andb_true_iff. split; [done|]. repeat (apply andb_true_iff; split; [done|]).
  apply forallb_forall. intros c Hc%list_elem_of_In.
  rewrite Forall_forall in Hdigits. by apply digit_in_path, Hdigits.
Qed.

(** C8. The anchor of a rendered post, the first child of its [div],
    is an [a] tag whose [id] is the fragment of the post's permalink when
    that fragment is not empty.  Otherwise the [id] is [post-] followed by
    what follows the last slash of the permalink as it is written, its query
    string included ([/posts/7?page=2] gives [post-7?page=2]); for a
    permalink [/posts/<digits>] that is [post-<digits>], the number of the
    post, and for any permalink that is a plain path it is the last segment
    of the path. *)
Theorem render_post_anchor (post : Node) (image_map image_map' : ImageMap.t)
    (rendered : RenderedPost.t) :
  render_post post image_map = Ok (rendered, image_map') ->
  let permalink := RenderedPost.permalink rendered in
  let fragment := urllib.fragment (urllib.urlparse permalink) in
  (exists parent,
      find_parent is_permalink_img post = Some parent
      /\ getitem parent (lit "href") = Ok permalink)
  /\ RenderedPost.permalink_fragment rendered = fragment
  /\ exists id children,
      RenderedPost.html rendered
      = Tag (lit "div") [(lit "class", lit "post")]
          (Tag (lit "a") [(lit "id", id)] [] :: children)
      /\ find (lit "a") any_attrs (RenderedPost.html rendered)
         = Some (Tag (lit "a") [(lit "id", id)] [])
      /\ (fragment <> [] -> id = fragment)
      /\ (fragment = [] ->
          exists tail,
            id = lit "post-" ++ tail
            /\ (ord "/" ∉ tail)
            /\ (permalink = tail \/ exists before, permalink = before ++ lit "/" ++ tail))
      /\ (forall number,
            permalink = lit "/posts/" ++ number ->
            Forall (fun c => is_digit c = true) number ->
            id = lit "post-" ++ number)
      /\ (is_plain_path permalink = true ->
          fragment = [] /\ urllib.path (urllib.urlparse permalink) = permalink).
Proof.
  intros Hr.
  apply render_post_ok_inv in Hr as (parent & permalink & children & Hparent & Hhref & ->).
  cbn [RenderedPost.permalink RenderedPost.permalink_fragment RenderedPost.html].
  split_and!; [by exists parent|done|].
  eexists _, children. split_and!; [reflexivity|by apply find_first_child|..].
  - intros Hfragment. by rewrite bool_decide_eq_false_2.
  - intros Hfragment. rewrite bool_decide_eq_true_2 by done.
    exists (last_seg (str_split (ord "/") permalink)).
    destruct (split_last (ord "/") permalink) as [Hlast Hcut]. done.
  - intros number Hpermalink Hdigits.
    pose proof (posts_path_plain number Hdigits) as Hplain.
    rewrite <- Hpermalink in Hplain. rewrite (urlparse_plain_path _ Hplain).
    cbn [urllib.fragment]. rewrite bool_decide_eq_true_2 by done.
    f_equal. rewrite Hpermalink.
    replace (lit "/posts/" ++ number) with (lit "/posts" ++ ord "/" :: number) by done.
    apply last_seg_after. intros Hin. rewrite Forall_forall in Hdigits.
    by specialize (Hdigits _ Hin).
  - intros Hplain. by rewrite (urlparse_plain_path _ Hplain).
Qed.

Lemma render_post_anchor_witness :
  exists id children,
    RenderedPost.html bare_rendered
    = Tag (lit "div") [(lit "class", lit "post")]
        (Tag (lit "a") [(lit "id", id)] [] :: children)
    /\ id = lit "post-" ++ lit "7".
Proof.
  destruct (render_post_anchor bare_post ImageMap.init ImageMap.init bare_rendered
              ltac:(vm_compute; reflexivity))
    as (_ & _ & id & children & Hhtml & _ & _ & _ & Hnumber & _).
  exists id, children. split; [exact Hhtml|].
  apply Hnumber; [reflexivity|repeat constructor].
Defined.

(** C8 in the words of the specification fails: with the permalink
    [/posts/7?page=2], which has no fragment, the [id] is [post-7?page=2],
    not [post-] and the last segment of the permalink's path, [7]. *)
Lemma render_post_anchor_counterexample :
  exists rendered anchor,
    render_post paged_post ImageMap.init = Ok (rendered, ImageMap.init)
    /\ RenderedPost.permalink rendered = lit "/posts/7?page=2"
    /\ urllib.fragment (urllib.urlparse (RenderedPost.permalink rendered)) = []
    /\ last_seg (str_split (ord "/")
                   (urllib.path (urllib.urlparse (RenderedPost.permalink rendered))))
       = lit "7"
    /\ find (lit "a") any_attrs (RenderedPost.html rendered) = Some anchor
    /\ getitem anchor (lit "id") = Ok (lit "post-7?page=2")
    /\ lit "post-7?page=2" <> lit "post-" ++ lit "7".
Proof.
  eexists _, _. split_and!.
  - vm_compute. reflexivity.
  - reflexivity.
  - reflexivity.
  - reflexivity.
  - reflexivity.
  - reflexivity.
  - by vm_compute.
Qed.

(** ** A chapter page without a title *)





